(** * PhotoSlide: media delivery and playback engine

    A shallow embedding of the parts of the application that the
    specification talks about:

    - [PhotosApi]   electron/services/photosApi.ts: [fetchWithRetry],
                    [refreshBaseUrls], [isBaseUrlExpired], [cacheImage],
                    [cleanupCacheIfNeeded], and the IPC handler
                    'photos:refresh-urls' of electron/main.ts;
    - [Schedule]    electron/main.ts: [checkSchedule], and the listener of
                    src/App.tsx that reacts to 'schedule:state-changed';
    - [Slideshow]   src/pages/Slideshow.tsx: the playback state and its
                    handlers ([transitionTo], [goToNext], [handleVideoEnd],
                    [handleLoadTimeout], the keyboard listener, ...);
    - [AlbumList]   src/pages/AlbumList.tsx: the merge of [fetchPickedMedia],
                    and the picked list with its handlers;
    - [Settings]    src/pages/Settings.tsx: the handlers of the time grid;
    - [Ipc]         electron/main.ts: the handlers 'photos:get-image',
                    'photos:get-video' and 'power:prevent-sleep'.

    Definitions come first, theorems after them. *)

From stdpp Require Import gmap strings list fin_maps sorting pretty.
From Stdlib Require Import ZArith NArith Lia Ascii.

(** ** electron/services/photosApi.ts *)

Module PhotosApi.

Local Open Scope Z_scope.

(** *** Data *)

(** [CachedMediaItem]; [creationTime], [filename], [width], [height] play no
    role in the service and are left out. *)
Record CachedMediaItem := {
  id : string;
  baseUrl : string;
  mimeType : string;
  albumId : string;
  cachedAt : Z
}.

(** The parsed body of a [mediaItems:batchGet] answer, as far as
    [refreshBaseUrls] inspects it: [data.mediaItemResults] may be missing,
    and so may [result.mediaItem]; a media item is its [(id, baseUrl)]. *)
Record mediaItemResult := { mediaItem : option (string * string) }.
Record batchGetData := { mediaItemResults : option (list mediaItemResult) }.

(** A [Response]: its status and what [response.json()] gives ([None] when
    the body is not JSON and [json()] rejects). *)
Record Response := { status : Z; json : option batchGetData }.

(** [response.ok] *)
Definition ok (r : Response) : bool := (200 <=? status r) && (status r <=? 299).

(** What [fetch] can do: resolve with a response, or reject (transport
    failure) with a cause. *)
Inductive outcome :=
  | Answered (response : Response)
  | Rejected (cause : string).

(** A URL is kept structured: [URLSearchParams.toString] is injective on the
    list of pairs. *)
Record url := { endpoint : string; params : list (string * string) }.

(** A request as [fetchWithRetry] sends it: the URL and the bearer token of
    the [Authorization] header ([this.accessToken], possibly [null]). *)
Record request := { req_url : url; bearer : option string }.

Inductive error :=
  | FetchError (cause : string)      (* the error [fetch] rejected with *)
  | MaxRetriesExceeded               (* [new Error('Max retries exceeded')] *)
  | JsonError.                       (* [response.json()] rejected *)

(** *** The world of the main process

    [clock] is what [Date.now()] reads, [issued] the requests sent so far
    (oldest first), [waited] the delays slept so far (oldest first),
    [accessToken] the field of [PhotosApiService], [mediaItems] the
    'mediaItems' entry of the electron-store 'photoslide-cache'. *)
Record world := {
  clock : Z;
  issued : list request;
  waited : list Z;
  accessToken : option string;
  mediaItems : list CachedMediaItem
}.

Inductive result (A : Type) :=
  | Ok (a : A)
  | Throw (e : error).
Arguments Ok {A} a.
Arguments Throw {A} e.

(** Asynchronous code of the service: a state and exception monad over
    [world]; [await] is sequencing. *)
Definition io (A : Type) : Type := world -> result A * world.

#[export] Instance io_ret : MRet io := fun A a w => (Ok a, w).
#[export] Instance io_bind : MBind io := fun A B f m w =>
  match m w with
  | (Ok a, w') => f a w'
  | (Throw e, w') => (Throw e, w')
  end.

Definition throw {A} (e : error) : io A := fun w => (Throw e, w).

Definition get_world : io world := fun w => (Ok w, w).

(** The world after [delay] milliseconds were waited. *)
Definition slept (delay : Z) (w : world) : world :=
  {| clock := clock w + delay; issued := issued w;
     waited := waited w ++ [delay]; accessToken := accessToken w;
     mediaItems := mediaItems w |}.

(** [await new Promise(resolve => setTimeout(resolve, delay))] *)
Definition sleep (delay : Z) : io unit := fun w => (Ok tt, slept delay w).

(** [setAccessToken] *)
Definition setAccessToken (token : string) : io unit := fun w =>
  (Ok tt, {| clock := clock w; issued := issued w; waited := waited w;
             accessToken := Some token; mediaItems := mediaItems w |}).

(** [store.set('mediaItems', items)] *)
Definition store_set_mediaItems (items : list CachedMediaItem) : io unit := fun w =>
  (Ok tt, {| clock := clock w; issued := issued w; waited := waited w;
             accessToken := accessToken w; mediaItems := items |}).

(** The request for [u] in world [w], and the world after it was sent. *)
Definition request_of (u : url) (w : world) : request :=
  {| req_url := u; bearer := accessToken w |}.

Definition sent (u : url) (w : world) : world :=
  {| clock := clock w; issued := issued w ++ [request_of u w]; waited := waited w;
     accessToken := accessToken w; mediaItems := mediaItems w |}.

Definition MAX_RETRIES : nat := 3.
Definition INITIAL_DELAY : Z := 1000.
Definition BASE_URL_TTL : Z := 50 * 60 * 1000.

Section Network.

(** The upstream service: the outcome of a request, given how many requests
    were sent before it. *)
Variable net : nat -> request -> outcome.

(** [fetch(url, { ...options, headers })]: the request is logged and the
    network answers. *)
Definition fetch (u : url) : io outcome := fun w =>
  (Ok (net (length (issued w)) (request_of u w)), sent u w).

(** The loop [for (let i = 0; i < retries; i++)] of [fetchWithRetry]; [n] is
    the number of iterations left, [retries - i]. A transport failure is
    what the [catch] block sees. *)
Fixpoint attempts (u : url) (retries n i : nat) : io Response :=
  match n with
  | O => throw MaxRetriesExceeded
  | S n' =>
      o ← fetch u;
      match o with
      | Answered response =>
          if status response =? 429 then
            sleep (INITIAL_DELAY * 2 ^ Z.of_nat i);; attempts u retries n' (S i)
          else if negb (ok response) && (500 <=? status response) then
            sleep (INITIAL_DELAY * 2 ^ Z.of_nat i);; attempts u retries n' (S i)
          else mret response
      | Rejected cause =>
          if (i =? retries - 1)%nat then throw (FetchError cause)
          else sleep (INITIAL_DELAY * 2 ^ Z.of_nat i);; attempts u retries n' (S i)
      end
  end.

Definition fetchWithRetry (u : url) (retries : nat) : io Response :=
  attempts u retries retries 0.

(** [await response.json()] *)
Definition response_json (response : Response) : io batchGetData :=
  match json response with
  | Some data => mret data
  | None => throw JsonError
  end.

Definition batchGet (batch : list string) : url :=
  {| endpoint := "https://photoslibrary.googleapis.com/v1/mediaItems:batchGet";
     params := (fun i => ("mediaItemIds", i)) <$> batch |}.

(** [for (const result of data.mediaItemResults)
       if (result.mediaItem) urlMap.set(result.mediaItem.id, result.mediaItem.baseUrl)] *)
Definition collect (urlMap : gmap string string) (results : list mediaItemResult)
  : gmap string string :=
  foldl (fun m r => match mediaItem r with
                    | Some (i, u) => <[i := u]> m
                    | None => m
                    end) urlMap results.

(** The loop [for (let i = 0; i < mediaItemIds.length; i += 50)] of
    [refreshBaseUrls]. The loop test is evaluated at every round; [fuel]
    only makes the recursion structural, and [mediaItemIds.length] rounds
    are always enough (lemma [batches_fuel] below). *)
Fixpoint batches (mediaItemIds : list string) (fuel i : nat)
    (urlMap : gmap string string) : io (gmap string string) :=
  match fuel with
  | O => mret urlMap
  | S fuel' =>
      if (i <? length mediaItemIds)%nat then
        let batch := take 50 (drop i mediaItemIds) in
        response ← fetchWithRetry (batchGet batch) MAX_RETRIES;
        data ← response_json response;
        batches mediaItemIds fuel' (i + 50)
          (match mediaItemResults data with
           | Some results => collect urlMap results
           | None => urlMap
           end)
      else mret urlMap
  end.

(** JavaScript truthiness of a string: [if (newUrl)], [a || b]. *)
Definition truthy (s : string) : bool :=
  match s with EmptyString => false | _ => true end.

(** The callback of [cachedItems.map] in [refreshBaseUrls]. *)
Definition update_cached (urlMap : gmap string string) (now : Z)
    (item : CachedMediaItem) : CachedMediaItem :=
  match urlMap !! id item with
  | Some newUrl =>
      if truthy newUrl then
        {| id := id item; baseUrl := newUrl; mimeType := mimeType item;
           albumId := albumId item; cachedAt := now |}
      else item
  | None => item
  end.

Definition refreshBaseUrls (mediaItemIds : list string) : io (gmap string string) :=
  urlMap ← batches mediaItemIds (length mediaItemIds) 0 ∅;
  w ← get_world;
  store_set_mediaItems (update_cached urlMap (clock w) <$> mediaItems w);;
  mret urlMap.

(** What the IPC handlers answer: [{ success, urls }] (the [error] text is
    left out). *)
Record RefreshResult := { success : bool; urls : option (gmap string string) }.

(** [ipcMain.handle('photos:refresh-urls', ...)] of electron/main.ts.
    [token] is what [authService.getAccessToken()] resolved to. The handler
    catches every error, so it always answers. *)
Definition handle_refresh_urls (token : option string) (mediaItemIds : list string)
    (w : world) : RefreshResult * world :=
  match token with
  | None => ({| success := false; urls := None |}, w)
  | Some t =>
      match (setAccessToken t;; refreshBaseUrls mediaItemIds) w with
      | (Ok urlMap, w') => ({| success := true; urls := Some urlMap |}, w')
      | (Throw _, w') => ({| success := false; urls := None |}, w')
      end
  end.

End Network.

(** *** Notions for the properties of the retrying fetch *)

(** The outcomes after which the loop of [fetchWithRetry] waits and, when
    attempts are left, tries again: 429, a failure status of 500 or above,
    and a rejection of [fetch]. *)
Definition retried (o : outcome) : bool :=
  match o with
  | Answered response =>
      (status response =? 429) || (negb (ok response) && (500 <=? status response))
  | Rejected _ => true
  end.

(** The waits after attempts [i], [i + 1], ..., [i + k - 1]. *)
Definition delays (i k : nat) : list Z :=
  (fun j => INITIAL_DELAY * 2 ^ Z.of_nat j) <$> seq i k.

(** *** Notions for the properties of the refresh *)

(** The ids a batchGet request asks for. *)
Definition requested_ids (rq : request) : list string := (params (req_url rq)).*2.

(** What [refreshBaseUrls] may do to an item of the store: leave it as it
    is, or give it the non-empty locator [urlMap] has for its id and the
    time stamp [now]. *)
Definition kept_or_reissued (urlMap : gmap string string) (now : Z)
    (old new : CachedMediaItem) : Prop :=
  id new = id old /\ mimeType new = mimeType old /\ albumId new = albumId old
  /\ (new = old
      \/ (urlMap !! id old = Some (baseUrl new) /\ truthy (baseUrl new) = true
          /\ cachedAt new = now)).

(** [isBaseUrlExpired], with [Date.now()] passed in. *)
Definition isBaseUrlExpired (now cachedAt : Z) : bool := BASE_URL_TTL <? now - cachedAt.

(** *** The image cache directory

    The directory [image-cache] as a finite map from file names to what
    [fs.statSync] reports. The file system is taken to behave: [readdirSync],
    [statSync] and [unlinkSync] do not throw. [readdirSync] lists the files
    in the order of [map_to_list]. Modification times are counted in a unit
    fine enough to tell apart what [mtimeMs] tells apart. *)
Record Stats := { size : N; mtimeMs : Z }.

(** An element of [fileStats]. *)
Record FileStat := { path : string; fsize : N; mtime : Z }.

(** [{ path: filePath, size: stat.size, mtime: stat.mtimeMs }] *)
Definition fileStat_of (f : string * Stats) : FileStat :=
  {| path := f.1; fsize := size f.2; mtime := mtimeMs f.2 |}.

(** [getCacheStats().diskSize]: the sizes of all files of the directory. *)
Definition sum_sizes (files : list (string * Stats)) : N :=
  foldr (fun f acc => (size f.2 + acc)%N) 0%N files.

Definition diskSize (dir : gmap string Stats) : N := sum_sizes (map_to_list dir).

(** [fileStats.sort((a, b) => a.mtime - b.mtime)]: a stable sort, oldest
    first. *)
Fixpoint insert_by_mtime (f : FileStat) (l : list FileStat) : list FileStat :=
  match l with
  | [] => [f]
  | g :: l' => if mtime f <=? mtime g then f :: g :: l' else g :: insert_by_mtime f l'
  end.

Definition sort_by_mtime (l : list FileStat) : list FileStat :=
  foldr insert_by_mtime [] l.


Section Capacity.

(** The constant [MAX_CACHE_SIZE]; the application fixes it to 500 MiB
    ([MAX_CACHE_SIZE_app] below). *)
Variable MAX_CACHE_SIZE : N.

(** [x <= targetSize] where [targetSize = MAX_CACHE_SIZE * 0.7]. The product
    is taken exactly. For the application's constant (and for 1000) the
    floating-point product is the exact value; for other capacities it can
    differ from it in the last place, which changes the comparison with an
    integer [x] only when [7 * MAX_CACHE_SIZE / 10] is itself an integer
    and the product was rounded below it. *)
Definition within_target (x : N) : bool := (10 * x <=? 7 * MAX_CACHE_SIZE)%N.

(** The loop [for (const file of fileStats)] of [cleanupCacheIfNeeded]:
    stop as soon as what is left is within the target, otherwise unlink the
    file and count its size. *)
Fixpoint unlink_oldest (totalSize : N) (fileStats : list FileStat) (deletedSize : N)
    (dir : gmap string Stats) : gmap string Stats :=
  match fileStats with
  | [] => dir
  | file :: rest =>
      if within_target (totalSize - deletedSize) then dir
      else unlink_oldest totalSize rest (deletedSize + fsize file) (delete (path file) dir)
  end.

Definition cleanupCacheIfNeeded (dir : gmap string Stats) : gmap string Stats :=
  let fileStats := fileStat_of <$> map_to_list dir in
  let totalSize := sum_sizes (map_to_list dir) in
  if (MAX_CACHE_SIZE <? totalSize)%N then
    unlink_oldest totalSize (sort_by_mtime fileStats) 0 dir
  else dir.

(** [mediaItem.mimeType.split('/')[1] || 'jpg'] *)
Fixpoint after_slash (s : string) : option string :=
  match s with
  | EmptyString => None
  | String c s' => if Ascii.eqb c "/"%char then Some s' else after_slash s'
  end.

Fixpoint until_slash (s : string) : string :=
  match s with
  | EmptyString => EmptyString
  | String c s' => if Ascii.eqb c "/"%char then EmptyString else String c (until_slash s')
  end.

Definition extension (mime : string) : string :=
  match after_slash mime with
  | Some rest => if truthy (until_slash rest) then until_slash rest else "jpg"
  | None => "jpg"
  end.

(** The file name of [localPath] inside the cache directory. *)
Definition localPath (mediaItem : CachedMediaItem) : string :=
  id mediaItem +:+ "." +:+ extension (mimeType mediaItem).

(** [cacheImage]. [download] is what [https.get] delivers: [Some n] when a
    body of [n] bytes was written to the file (at time [now]), [None] when
    the request failed and the file was unlinked again. The answer is the
    path the promise resolves to, or [None] when it rejects. *)
Definition cacheImage (mediaItem : CachedMediaItem) (download : option N) (now : Z)
    (dir : gmap string Stats) : option string * gmap string Stats :=
  match dir !! localPath mediaItem with
  | Some _ => (Some (localPath mediaItem), dir)
  | None =>
      let dir' := cleanupCacheIfNeeded dir in
      match download with
      | Some bytes =>
          (Some (localPath mediaItem),
           <[localPath mediaItem := {| size := bytes; mtimeMs := now |}]> dir')
      | None => (None, dir')
      end
  end.

End Capacity.

(** [getCachedImagePath]: the first file of the directory whose name
    starts with the id. *)
Definition getCachedImagePath (mediaItemId : string) (dir : gmap string Stats)
    : option string :=
  List.find (String.prefix mediaItemId) (map_to_list dir).*1.

Definition MAX_CACHE_SIZE_app : N := 500 * 1024 * 1024.

End PhotosApi.

(** ** electron/main.ts: the schedule check, and its listener in src/App.tsx *)

Module Schedule.

Local Open Scope Z_scope.

(** [settings.schedule] *)
Record ScheduleSettings := { enabled : bool; timeGrid : list (list bool) }.

(** The module-level variables of the main process that [checkSchedule]
    uses; [mainWindow] is whether the window exists. *)
Record main := {
  mainWindow : bool;
  lastScheduleState : option bool;
  isSlideshowRunning : bool
}.

(** [webContents.send('schedule:state-changed', shouldPlay)] *)
Inductive message := schedule_state_changed (shouldPlay : bool).

Definition set_lastScheduleState (v : option bool) (m : main) : main :=
  {| mainWindow := mainWindow m; lastScheduleState := v;
     isSlideshowRunning := isSlideshowRunning m |}.

(** [settings.schedule.timeGrid[dayIndex]?.[hourIndex] ?? false], where
    [dayIndex] is [day - 1], or 6 for Sunday ([day = 0]). *)
Definition shouldPlay_at (timeGrid : list (list bool)) (day hour : Z) : bool :=
  let dayIndex := if day - 1 <? 0 then 6 else day - 1 in
  let hourIndex := hour in
  match timeGrid !! Z.to_nat dayIndex with
  | Some row => default false (row !! Z.to_nat hourIndex)
  | None => false
  end.

(** [checkSchedule]. [schedule] is [settings?.schedule] ([None] when the
    settings or the schedule are missing), [day] is [now.getDay()] and
    [hour] is [now.getHours()]. The result is the new variables and the
    messages sent to the renderer, in order. *)
Definition checkSchedule (schedule : option ScheduleSettings) (day hour : Z) (m : main)
    : main * list message :=
  if negb (mainWindow m) then (m, [])
  else
    match schedule with
    | Some s =>
        if enabled s then
          let shouldPlay := shouldPlay_at (timeGrid s) day hour in
          let stop :=
            if isSlideshowRunning m && negb shouldPlay
            then [schedule_state_changed false] else [] in
          if decide (Some shouldPlay = lastScheduleState m) then (m, stop)
          else (set_lastScheduleState (Some shouldPlay) m,
                stop ++ [schedule_state_changed shouldPlay])
        else (set_lastScheduleState None m, [])
    | None => (set_lastScheduleState None m, [])
    end.

(** The routes of src/App.tsx. *)
Inductive route := login | albums | slideshow | settings.

(** The application seen from the schedule: the main-process variables, the
    current route of the renderer, whether the window is in full screen,
    and how many items 'pickedMediaItems' holds. The Slideshow page reports
    mounting and unmounting through 'slideshow:set-state', so
    [isSlideshowRunning] follows the route. *)
Record app := {
  main_vars : main;
  pathname : route;
  fullscreen : bool;
  picked : nat
}.

Definition navigate (r : route) (a : app) : app :=
  {| main_vars := {| mainWindow := mainWindow (main_vars a);
                     lastScheduleState := lastScheduleState (main_vars a);
                     isSlideshowRunning :=
                       match r with slideshow => true | _ => false end |};
     pathname := r; fullscreen := fullscreen a; picked := picked a |}.

(** Whether the user is signed in. The routes under "/" are rendered only
    while [isAuthenticated] holds and redirect to /login otherwise, and
    /login redirects to /albums once it holds: the route [login] is the
    signed-out state. *)
Definition signed_in (a : app) : bool :=
  match pathname a with login => false | _ => true end.

(** The listener [scheduleStateChanged] of src/App.tsx. The two handlers of
    two messages are run one after the other. The listener is registered
    only once the user is signed in; while signed out it is absent, or,
    after a logout, its [navigate('/slideshow')] is redirected back to
    /login and the Slideshow page is not mounted: nothing changes. *)
Definition on_schedule_state_changed (msg : message) (a : app) : app :=
  if signed_in a then
    match msg with
    | schedule_state_changed true =>
        if (0 <? picked a)%nat then
          match pathname a with
          | slideshow => a
          | _ => navigate slideshow a
          end
        else a
    | schedule_state_changed false =>
        match pathname a with
        | slideshow =>
            navigate albums
              {| main_vars := main_vars a; pathname := pathname a;
                 fullscreen := false; picked := picked a |}
        | _ => a
        end
    end
  else a.

(** One tick of the schedule timer: [checkSchedule], then the renderer
    handles the messages in the order they were sent. *)
Definition tick (schedule : option ScheduleSettings) (day hour : Z) (a : app)
    : app * list message :=
  let '(m, sent) := checkSchedule schedule day hour (main_vars a) in
  (foldl (fun a msg => on_schedule_state_changed msg a)
         {| main_vars := m; pathname := pathname a;
            fullscreen := fullscreen a; picked := picked a |} sent,
   sent).

End Schedule.

(** ** src/pages/Slideshow.tsx *)

Module Slideshow.

Local Open Scope Z_scope.

Inductive TransitionEffect := none | fade | slide | zoom.

(** [MediaItem]; [creationTime] is kept as [new Date(creationTime).getTime()]. *)
Record MediaItem := {
  id : string;
  baseUrl : string;
  mimeType : string;
  filename : string;
  creationTime : Z;
  albumId : string;
  cachedAt : Z
}.

(** A callback handed to [setTimeout] by [transitionTo] and still pending:
    the outer one (50 ms) sets the index and starts the inner one
    ([transitionDuration] ms), which ends the transition. *)
Inductive timeout :=
  | set_current_index (newIndex : Z) (transitionDuration : Z)
  | end_transition.

(** What a callback created during a render closes over: the values the
    state had at that render. *)
Record closure := {
  c_length : nat;                 (* mediaItems.length *)
  c_currentIndex : Z;
  c_isPlaying : bool;
  c_isTransitioning : bool;
  c_transitionEffect : TransitionEffect;
  c_isCurrentVideo : bool
}.

(** The state of the [Slideshow] component that playback depends on.
    [timeouts] are the pending [setTimeout] callbacks, oldest first.
    [keydown] is the closure of the listener registered by the effect with
    dependencies [[mediaItems.length]]: the callbacks it calls are those of
    the render in which it was registered. *)
Record state := {
  mediaItems : list MediaItem;
  currentIndex : Z;
  previousIndex : option Z;
  isPlaying : bool;
  isTransitioning : bool;
  transitionEffect : TransitionEffect;
  timeouts : list timeout;
  keydown : closure
}.

(** [currentMedia?.mimeType?.startsWith('video/')] *)
Definition isCurrentVideo (items : list MediaItem) (index : Z) : bool :=
  if index <? 0 then false
  else match items !! Z.to_nat index with
       | Some currentMedia => String.prefix "video/" (mimeType currentMedia)
       | None => false
       end.

(** The closure of the callbacks of the current render. *)
Definition render (s : state) : closure :=
  {| c_length := length (mediaItems s);
     c_currentIndex := currentIndex s;
     c_isPlaying := isPlaying s;
     c_isTransitioning := isTransitioning s;
     c_transitionEffect := transitionEffect s;
     c_isCurrentVideo := isCurrentVideo (mediaItems s) (currentIndex s) |}.

(** The state when the component mounts (settings already loaded). *)
Definition mount (effect : TransitionEffect) : state :=
  {| mediaItems := []; currentIndex := 0; previousIndex := None;
     isPlaying := true; isTransitioning := false; transitionEffect := effect;
     timeouts := [];
     keydown := {| c_length := 0; c_currentIndex := 0; c_isPlaying := true;
                   c_isTransitioning := false; c_transitionEffect := effect;
                   c_isCurrentVideo := false |} |}.

(** [transitionTo], as created in the render with closure [c]. *)
Definition transitionTo (c : closure) (newIndex : Z) (s : state) : state :=
  if c_isTransitioning c || (c_length c =? 0)%nat then s
  else
    let transitionDuration :=
      match c_transitionEffect c with none => 0 | _ => 500 end in
    {| mediaItems := mediaItems s;
       currentIndex := currentIndex s;
       previousIndex := Some (c_currentIndex c);
       isPlaying := isPlaying s;
       isTransitioning := true;
       transitionEffect := transitionEffect s;
       timeouts := timeouts s ++ [set_current_index newIndex transitionDuration];
       keydown := keydown s |}.

(** JavaScript [a % b] on integers. *)
Definition js_rem (a b : Z) : Z := Z.rem a b.

(** The callback of [setInterval] in the auto-play effect; the interval only
    exists when the condition of the effect holds. *)
Definition interval_running (c : closure) : bool :=
  c_isPlaying c && (0 <? c_length c)%nat && negb (c_isTransitioning c)
  && negb (c_isCurrentVideo c).

Definition on_interval (c : closure) (s : state) : state :=
  if interval_running c then
    transitionTo c (js_rem (c_currentIndex c + 1) (Z.of_nat (c_length c))) s
  else s.

Definition handleVideoEnd (c : closure) (s : state) : state :=
  if c_isPlaying c && (0 <? c_length c)%nat then
    transitionTo c (js_rem (c_currentIndex c + 1) (Z.of_nat (c_length c))) s
  else s.

Definition handleLoadTimeout (c : closure) (s : state) : state :=
  if (0 <? c_length c)%nat then
    transitionTo c (js_rem (c_currentIndex c + 1) (Z.of_nat (c_length c))) s
  else s.

Definition goToNext (c : closure) (s : state) : state :=
  transitionTo c (js_rem (c_currentIndex c + 1) (Z.of_nat (c_length c))) s.

Definition goToPrevious (c : closure) (s : state) : state :=
  transitionTo c
    (js_rem (c_currentIndex c - 1 + Z.of_nat (c_length c)) (Z.of_nat (c_length c))) s.

Definition set_isPlaying (b : bool) (s : state) : state :=
  {| mediaItems := mediaItems s; currentIndex := currentIndex s;
     previousIndex := previousIndex s; isPlaying := b;
     isTransitioning := isTransitioning s; transitionEffect := transitionEffect s;
     timeouts := timeouts s; keydown := keydown s |}.

(** [setIsPlaying(prev => !prev)] *)
Definition togglePlayPause (s : state) : state := set_isPlaying (negb (isPlaying s)) s.

(** [handleEscape]: [setIsPlaying(false)] (the window calls are left out). *)
Definition handleEscape (s : state) : state := set_isPlaying false s.

(** The [k]-th pending timeout fires. *)
Definition fire (k : nat) (s : state) : state :=
  match timeouts s !! k with
  | Some (set_current_index newIndex _) =>
      {| mediaItems := mediaItems s; currentIndex := newIndex;
         previousIndex := previousIndex s; isPlaying := isPlaying s;
         isTransitioning := isTransitioning s; transitionEffect := transitionEffect s;
         timeouts := delete k (timeouts s) ++ [end_transition];
         keydown := keydown s |}
  | Some end_transition =>
      {| mediaItems := mediaItems s; currentIndex := currentIndex s;
         previousIndex := None; isPlaying := isPlaying s;
         isTransitioning := false; transitionEffect := transitionEffect s;
         timeouts := delete k (timeouts s);
         keydown := keydown s |}
  | None => s
  end.

(** What can happen to the component. Buttons, the interval, [onEnded] and
    [onLoadTimeout] use the callbacks of the current render; the keys use
    the callbacks of the closure [keydown]. *)
Inductive event :=
  | interval_fires
  | video_ended
  | load_timed_out
  | click_next
  | click_previous
  | click_play_pause
  | key_ArrowRight
  | key_ArrowLeft
  | key_Space
  | key_Escape
  | timeout_fires (k : nat).

Definition step (s : state) (e : event) : state :=
  match e with
  | interval_fires => on_interval (render s) s
  | video_ended => handleVideoEnd (render s) s
  | load_timed_out => handleLoadTimeout (render s) s
  | click_next => goToNext (render s) s
  | click_previous => goToPrevious (render s) s
  | click_play_pause => togglePlayPause s
  | key_ArrowRight => goToNext (keydown s) s
  | key_ArrowLeft => goToPrevious (keydown s) s
  | key_Space => togglePlayPause s
  | key_Escape => handleEscape s
  | timeout_fires k => fire k s
  end.

Definition run (s : state) (es : list event) : state := foldl step s es.

(** An advance that runs to its end: the trigger, then the two timeouts of
    [transitionTo] fire. *)
Definition completed (trigger : event) : list event :=
  [trigger; timeout_fires 0; timeout_fires 0].

(** *** Loading *)

Inductive PhotoOrder := latest | oldest | random.

(** A stable insertion sort: [x] goes before the first element it is not
    after. *)
Fixpoint insert_sorted {A} (le : A -> A -> bool) (x : A) (l : list A) : list A :=
  match l with
  | [] => [x]
  | y :: l' => if le x y then x :: y :: l' else y :: insert_sorted le x l'
  end.

Definition stable_sort {A} (le : A -> A -> bool) (l : list A) : list A :=
  foldr (insert_sorted le) [] l.

(** [sortedItems.sort(() => Math.random() - 0.5)]: which permutation comes
    out depends on the engine and on the random numbers; here every element
    is inserted where the next random signs say. [rnd k] is whether the
    [k]-th comparison was negative. *)
Fixpoint insert_random {A} (rnd : nat -> bool) (k : nat) (x : A) (l : list A)
    : list A * nat :=
  match l with
  | [] => ([x], k)
  | y :: l' =>
      if rnd k then (x :: y :: l', S k)
      else let '(r, k') := insert_random rnd (S k) x l' in (y :: r, k')
  end.

Fixpoint shuffle {A} (rnd : nat -> bool) (l : list A) : list A * nat :=
  match l with
  | [] => ([], O)
  | x :: l' => let '(r, k) := shuffle rnd l' in insert_random rnd k x r
  end.

(** The [switch (parsed.photoOrder)]; [None] is any other value, or no
    settings. *)
Definition sortItems (order : option PhotoOrder) (rnd : nat -> bool)
    (allMediaItems : list MediaItem) : list MediaItem :=
  match order with
  | Some latest =>
      stable_sort (fun a b => creationTime b <=? creationTime a) allMediaItems
  | Some oldest =>
      stable_sort (fun a b => creationTime a <=? creationTime b) allMediaItems
  | Some random => (shuffle rnd allMediaItems).1
  | None => allMediaItems
  end.

(** [loadMediaItems]. [stored] is the 'pickedMediaItems' entry when it is
    an array. Without it the page navigates away, with an empty one it shows
    an error; in both cases the playback state stays as it is. The keydown
    effect runs again when the length of [mediaItems] changed. *)
Definition loadMediaItems (stored : option (list MediaItem)) (order : option PhotoOrder)
    (rnd : nat -> bool) (s : state) : state :=
  match stored with
  | None => s
  | Some [] => s
  | Some allMediaItems =>
      let sortedItems := sortItems order rnd allMediaItems in
      let s' :=
        {| mediaItems := sortedItems; currentIndex := currentIndex s;
           previousIndex := previousIndex s; isPlaying := isPlaying s;
           isTransitioning := isTransitioning s;
           transitionEffect := transitionEffect s;
           timeouts := timeouts s; keydown := keydown s |} in
      if decide (length sortedItems = length (mediaItems s)) then s'
      else
        {| mediaItems := sortedItems; currentIndex := currentIndex s;
           previousIndex := previousIndex s; isPlaying := isPlaying s;
           isTransitioning := isTransitioning s;
           transitionEffect := transitionEffect s;
           timeouts := timeouts s; keydown := render s' |}
  end.

(** *** Refreshing the locators *)

(** The callback of [prev.map] in [refreshBaseUrls]:
    [{ ...item, baseUrl: result.urls![item.id] || item.baseUrl, cachedAt: Date.now() }].
    Item ids are taken not to be names of [Object.prototype]. *)
Definition refreshed (urls : gmap string string) (now : Z) (item : MediaItem)
    : MediaItem :=
  {| id := id item;
     baseUrl := match urls !! id item with
                | Some u => if PhotosApi.truthy u then u else baseUrl item
                | None => baseUrl item
                end;
     mimeType := mimeType item; filename := filename item;
     creationTime := creationTime item; albumId := albumId item;
     cachedAt := now |}.

Definition set_mediaItems (items : list MediaItem) (s : state) : state :=
  {| mediaItems := items; currentIndex := currentIndex s;
     previousIndex := previousIndex s; isPlaying := isPlaying s;
     isTransitioning := isTransitioning s; transitionEffect := transitionEffect s;
     timeouts := timeouts s; keydown := keydown s |}.

(** [refreshBaseUrls(items)]: the ids of all [items] go through the IPC
    handler to the service; on success every item of the state is mapped.
    [Date.now()] of the renderer reads the same clock. *)
Definition refreshBaseUrls (net : nat -> PhotosApi.request -> PhotosApi.outcome)
    (token : option string) (items : list MediaItem)
    (s : state) (w : PhotosApi.world) : state * PhotosApi.world :=
  let ids := id <$> items in
  let '(result, w') := PhotosApi.handle_refresh_urls net token ids w in
  match PhotosApi.success result, PhotosApi.urls result with
  | true, Some urls =>
      (set_mediaItems (refreshed urls (PhotosApi.clock w') <$> mediaItems s) s, w')
  | _, _ => (s, w')
  end.

(** *** Notions used to state the properties of playback *)

(** No transition is in flight. *)
Definition settled (s : state) : Prop :=
  isTransitioning s = false /\ timeouts s = [].

(** The state once an advance to [index] has run to its end. *)
Definition arrived (index : Z) (s : state) : state :=
  {| mediaItems := mediaItems s; currentIndex := index; previousIndex := None;
     isPlaying := isPlaying s; isTransitioning := false;
     transitionEffect := transitionEffect s; timeouts := []; keydown := keydown s |}.

(** [n] completed advances by the "next" button. *)
Definition nexts (n : nat) : list event := mjoin (replicate n (completed click_next)).

(** [n] completed advances by the key ArrowRight. *)
Definition arrow_rights (n : nat) : list event :=
  mjoin (replicate n (completed key_ArrowRight)).

(** Events whose handler is the callback of the current render. *)
Definition of_current_render (e : event) : bool :=
  match e with
  | key_ArrowRight | key_ArrowLeft => false
  | _ => true
  end.

(** A trigger of an advance. *)
Definition is_trigger (e : event) : bool :=
  match e with
  | interval_fires | video_ended | load_timed_out | click_next | click_previous
  | key_ArrowRight | key_ArrowLeft => true
  | _ => false
  end.

(** The advances in flight: the pending index changes. *)
Definition in_flight (s : state) : list Z :=
  omap (fun t => match t with
                 | set_current_index newIndex _ => Some newIndex
                 | end_transition => None
                 end) (timeouts s).

(** The cursor and every pending index change are inside [[0, L)], where [L]
    is the length of the sequence. *)
Definition in_range (L : nat) (s : state) : Prop :=
  length (mediaItems s) = L
  /\ 0 <= currentIndex s < Z.of_nat L
  /\ Forall (fun i => 0 <= i < Z.of_nat L) (in_flight s).

(** *** More notions for the properties of playback *)

(** [mediaItems[index]]: [undefined] outside the array. *)
Definition item_at (items : list MediaItem) (index : Z) : option MediaItem :=
  if index <? 0 then None else items !! Z.to_nat index.

(** The state is well formed for a sequence of length [L]: the cursor, the
    previous index, every pending index change and the closure of the
    keydown listener are inside [[0, L)]. *)
Definition well_formed (L : nat) (s : state) : Prop :=
  in_range L s
  /\ match previousIndex s with Some i => 0 <= i < Z.of_nat L | None => True end
  /\ c_length (keydown s) = L
  /\ 0 <= c_currentIndex (keydown s) < Z.of_nat L.

(** How many timeouts fire until none is pending: an outer timeout starts
    an inner one. *)
Definition pending_work (ts : list timeout) : nat :=
  foldr (fun t n => match t with
                    | set_current_index _ _ => S (S n)
                    | end_transition => S n
                    end) O ts.

(** All pending timeouts fire, oldest first, and those they start. *)
Definition drain (s : state) : state :=
  run s (replicate (pending_work (timeouts s)) (timeout_fires 0)).

(** *** Preloading *)

Definition PRELOAD_COUNT : nat := 3.
Definition MAX_CACHED_IMAGES : nat := 10.

(** A background request of [preloadNextImages]: [getVideo] for a video,
    [getImage] otherwise. *)
Record PreloadRequest := {
  pr_id : string;
  pr_baseUrl : string;
  pr_isVideo : bool
}.

(** One round of [for (let i = 1; i <= PRELOAD_COUNT; i++)]. *)
Definition preload_round (items : list MediaItem) (currentIndex : Z)
    (acc : gset string * list PreloadRequest) (i : Z)
    : gset string * list PreloadRequest :=
  let nextIndex := js_rem (currentIndex + i) (Z.of_nat (length items)) in
  match item_at items nextIndex with
  | Some nextItem =>
      if decide (id nextItem ∈ acc.1) then acc
      else ({[id nextItem]} ∪ acc.1,
            acc.2 ++ [{| pr_id := id nextItem; pr_baseUrl := baseUrl nextItem;
                         pr_isVideo := String.prefix "video/" (mimeType nextItem) |}])
  | None => acc
  end.

(** The set [idsToKeep], filled by [for (let i = -2; i <= PRELOAD_COUNT; i++)]:
    the items from 2 behind to [PRELOAD_COUNT] ahead. *)
Definition idsToKeep (items : list MediaItem) (currentIndex : Z) : gset string :=
  list_to_set
    (omap (fun i => id <$> item_at items
                      (js_rem (currentIndex + i + Z.of_nat (length items))
                              (Z.of_nat (length items))))
          ((fun k => Z.of_nat k - 2) <$> seq 0 (PRELOAD_COUNT + 3))).

(** [preloadNextImages]: the new content of [preloadedImagesRef] and the
    requests started, in order. *)
Definition preloadNextImages (items : list MediaItem) (currentIndex : Z)
    (preloaded : gset string) : gset string * list PreloadRequest :=
  let '(preloaded', requests) :=
    foldl (preload_round items currentIndex) (preloaded, [])
          (Z.of_nat <$> seq 1 PRELOAD_COUNT) in
  if (MAX_CACHED_IMAGES <? size preloaded')%nat then
    (filter (fun i => i ∈ idsToKeep items currentIndex) preloaded', requests)
  else (preloaded', requests).


(** What one round of the preload loop keeps true, [before] being the set
    at the start of the whole loop: the set has only grown, no id was
    requested twice, and the ids requested are new ones. *)
Definition preload_inv (before : gset string) (acc : gset string * list PreloadRequest)
    : Prop :=
  (before ⊆ acc.1)
  /\ NoDup (pr_id <$> acc.2)
  /\ Forall (fun rq => (pr_id rq ∉ before) /\ (pr_id rq ∈ acc.1)) acc.2.

End Slideshow.

(** ** src/pages/AlbumList.tsx *)

Module AlbumList.

Record MediaItem := {
  id : string;
  baseUrl : string;
  mimeType : string;
  filename : string
}.

(** The merge of [fetchPickedMedia]: [mediaItems] is the list of the state,
    [newItems] is [result.mediaItems]; the result is [mergedItems]. *)
Definition mergedItems (mediaItems newItems : list MediaItem) : list MediaItem :=
  let existingIds : gset string := list_to_set (id <$> mediaItems) in
  let uniqueNewItems := filter (fun item => id item ∉ existingIds) newItems in
  mediaItems ++ uniqueNewItems.


(** *** The page and the store *)

(** The list shown by the page, and the entry 'pickedMediaItems' of the
    store ([None] when the key was deleted; the store then answers with its
    default, the empty list). *)
Record state := {
  mediaItems : list MediaItem;
  pickedMediaItems : option (list MediaItem)
}.

(** What the page shows after mounting: the array the store answers with. *)
Definition loadMediaItems (s : state) : state :=
  {| mediaItems := default [] (pickedMediaItems s);
     pickedMediaItems := pickedMediaItems s |}.

(** [fetchPickedMedia], as created in a render whose list was [captured].
    [result] is [result.mediaItems] when the call succeeded; otherwise the
    error is shown and nothing else changes. *)
Definition fetchPickedMedia (captured : list MediaItem) (result : option (list MediaItem))
    (s : state) : state :=
  match result with
  | None => s
  | Some newItems =>
      {| mediaItems := mergedItems captured newItems;
         pickedMediaItems := Some (mergedItems captured newItems) |}
  end.

(** [handleDeleteItem]: the key is deleted when nothing is left. *)
Definition handleDeleteItem (itemId : string) (s : state) : state :=
  let updatedItems := filter (fun item => id item <> itemId) (mediaItems s) in
  {| mediaItems := updatedItems;
     pickedMediaItems := match updatedItems with
                         | [] => None
                         | _ => Some updatedItems
                         end |}.

(** [handleClearSelection] *)
Definition handleClearSelection (s : state) : state :=
  {| mediaItems := []; pickedMediaItems := None |}.

(** [handleStartSlideshow]: with an empty list nothing happens, otherwise
    the list is written before the page is left. *)
Definition handleStartSlideshow (s : state) : state :=
  match mediaItems s with
  | [] => s
  | _ => {| mediaItems := mediaItems s; pickedMediaItems := Some (mediaItems s) |}
  end.

(** The page while the picker may be open. The polling effect has the
    dependencies [[sessionId, isPicking]], so its [pollSession] calls the
    [fetchPickedMedia] of the render in which picking started: [polling] is
    the [mediaItems] of that render while [isPicking] holds, and [None]
    otherwise. *)
Record page := {
  shown : state;
  polling : option (list MediaItem)
}.

(** What happens on the page: the picker is opened ([handlePickPhotos]
    with a session created), a poll finds the selection done and fetches
    it, an item is deleted, the selection is cleared, the slideshow is
    started. Each handler runs to its end before the next one starts. *)
Inductive action :=
  | pick_photos
  | picked (result : option (list MediaItem))
  | delete_item (itemId : string)
  | clear_selection
  | start_slideshow.

(** The button of [handlePickPhotos] is disabled while [isPicking] holds;
    a poll runs only while it holds, and ends it before it fetches;
    starting the slideshow leaves the page, which ends the polling. *)
Definition handle (p : page) (a : action) : page :=
  match a with
  | pick_photos =>
      match polling p with
      | None => {| shown := shown p; polling := Some (mediaItems (shown p)) |}
      | Some _ => p
      end
  | picked result =>
      match polling p with
      | Some captured =>
          {| shown := fetchPickedMedia captured result (shown p); polling := None |}
      | None => p
      end
  | delete_item itemId =>
      {| shown := handleDeleteItem itemId (shown p); polling := polling p |}
  | clear_selection =>
      {| shown := handleClearSelection (shown p); polling := polling p |}
  | start_slideshow =>
      match mediaItems (shown p) with
      | [] => p
      | _ => {| shown := handleStartSlideshow (shown p); polling := None |}
      end
  end.

(** The actions that edit the list: deleting an item and clearing. *)
Definition is_edit (a : action) : bool :=
  match a with
  | delete_item _ | clear_selection => true
  | _ => false
  end.

(** The page shows what the store holds, and no id twice. *)
Definition consistent (s : state) : Prop :=
  default [] (pickedMediaItems s) = mediaItems s /\ NoDup (id <$> mediaItems s).

(** The picks of a sequence of actions that deliver no id twice. *)
Definition distinct_picks (a : action) : Prop :=
  match a with
  | picked (Some newItems) => NoDup (id <$> newItems)
  | _ => True
  end.

(** The page shows what the store holds, no id twice, and the list the
    polling effect holds has no id twice either. *)
Definition consistent_page (p : page) : Prop :=
  consistent (shown p)
  /\ match polling p with
     | Some captured => NoDup (id <$> captured)
     | None => True
     end.

End AlbumList.

(** ** src/pages/Settings.tsx: editing the schedule grid *)

Module Settings.

(** The part of the component state that the grid handlers use: the grid of
    [settings.schedule] (rows are days, Monday first; columns are hours),
    the three drag variables, and the grid of the settings last written to
    the store. *)
Record state := {
  timeGrid : list (list bool);
  isDragging : bool;
  dragStart : option (nat * nat);
  dragValue : bool;
  stored : list (list bool)
}.

(** [saveSettings] with a new grid: the state and the store get it. *)
Definition saveSettings (newGrid : list (list bool)) (s : state) : state :=
  {| timeGrid := newGrid; isDragging := isDragging s; dragStart := dragStart s;
     dragValue := dragValue s; stored := newGrid |}.

(** [handleCellMouseDown]. Reading [timeGrid[day][hour]] throws when there
    is no row [day], after the first two setters ran; a missing cell reads
    as [undefined]. *)
Definition handleCellMouseDown (day hour : nat) (s : state) : state :=
  match timeGrid s !! day with
  | None =>
      {| timeGrid := timeGrid s; isDragging := true; dragStart := Some (day, hour);
         dragValue := dragValue s; stored := stored s |}
  | Some row =>
      {| timeGrid :=
           imap (fun d row =>
                   imap (fun h cell =>
                           if (d =? day)%nat && (h =? hour)%nat then negb cell else cell)
                        row) (timeGrid s);
         isDragging := true; dragStart := Some (day, hour);
         dragValue := negb (default false (row !! hour));
         stored := stored s |}
  end.

(** [handleCellMouseEnter] *)
Definition handleCellMouseEnter (day hour : nat) (s : state) : state :=
  match isDragging s, dragStart s with
  | true, Some (startDay, startHour) =>
      let minDay := Nat.min startDay day in
      let maxDay := Nat.max startDay day in
      let minHour := Nat.min startHour hour in
      let maxHour := Nat.max startHour hour in
      {| timeGrid :=
           imap (fun d row =>
                   imap (fun h cell =>
                           if (minDay <=? d)%nat && (d <=? maxDay)%nat
                              && (minHour <=? h)%nat && (h <=? maxHour)%nat
                           then dragValue s else cell)
                        row) (timeGrid s);
         isDragging := isDragging s; dragStart := dragStart s;
         dragValue := dragValue s; stored := stored s |}
  | _, _ => s
  end.

(** [handleMouseUp]: the drag ends and the settings are written. *)
Definition handleMouseUp (s : state) : state :=
  if isDragging s then
    {| timeGrid := timeGrid s; isDragging := false; dragStart := None;
       dragValue := dragValue s; stored := timeGrid s |}
  else s.

(** [handleDayToggle]; [timeGrid[day].every] throws when there is no row
    [day], and nothing changes. *)
Definition handleDayToggle (day : nat) (s : state) : state :=
  match timeGrid s !! day with
  | None => s
  | Some row =>
      let allSelected := forallb (fun cell => cell) row in
      saveSettings
        (imap (fun d row => if (d =? day)%nat then (fun _ => negb allSelected) <$> row
                            else row) (timeGrid s)) s
  end.

(** [handleHourToggle]; a row without the cell reads [undefined]. *)
Definition handleHourToggle (hour : nat) (s : state) : state :=
  let allSelected := forallb (fun row => default false (row !! hour)) (timeGrid s) in
  saveSettings
    ((fun row => imap (fun h cell => if (h =? hour)%nat then negb allSelected else cell) row)
       <$> timeGrid s) s.

Inductive preset := all | none | weekdays | weekends.

(** The grid of [applyPreset], built by [Array(7)...map((_, d) => ...)]. *)
Definition preset_grid (p : preset) : list (list bool) :=
  match p with
  | all => replicate 7 (replicate 24 true)
  | none => replicate 7 (replicate 24 false)
  | weekdays =>
      imap (fun d _ =>
              imap (fun h _ => (d <? 5)%nat && (6 <=? h)%nat && (h <=? 22)%nat)
                   (replicate 24 false))
           (replicate 7 tt)
  | weekends => imap (fun d _ => replicate 24 (5 <=? d)%nat) (replicate 7 tt)
  end.

Definition applyPreset (p : preset) (s : state) : state := saveSettings (preset_grid p) s.

(** What the user does to the grid. *)
Inductive action :=
  | cell_mouse_down (day hour : nat)
  | cell_mouse_enter (day hour : nat)
  | mouse_up
  | day_toggle (day : nat)
  | hour_toggle (hour : nat)
  | apply_preset (p : preset).

Definition handle (s : state) (a : action) : state :=
  match a with
  | cell_mouse_down day hour => handleCellMouseDown day hour s
  | cell_mouse_enter day hour => handleCellMouseEnter day hour s
  | mouse_up => handleMouseUp s
  | day_toggle day => handleDayToggle day s
  | hour_toggle hour => handleHourToggle hour s
  | apply_preset p => applyPreset p s
  end.

(** The cell of day [d] and hour [h], if there is one. *)
Definition cell (grid : list (list bool)) (d h : nat) : option bool :=
  row ← grid !! d; row !! h.

(** A grid of seven days of twenty-four hours. *)
Definition is_week (grid : list (list bool)) : Prop :=
  length <$> grid = replicate 7 24%nat.

End Settings.

(** ** electron/main.ts: the IPC handlers for media and for the power blocker *)

Module Ipc.

Local Open Scope Z_scope.

(** What [fetch] gives for a media URL: a response with its status, body
    and content type, or a rejection. *)
Record MediaResponse := {
  status : Z;
  body : string;
  contentType : option string
}.

Definition ok (r : MediaResponse) : bool := (200 <=? status r) && (status r <=? 299).

Inductive fetched :=
  | answered (response : MediaResponse)
  | rejected.

(** What a handler answers: [{ success: true, dataUrl | filePath }] or
    [{ success: false, error }]. *)
Inductive error :=
  | auth_required                (* no access token *)
  | http (status : Z)            (* `HTTP ${response.status}` *)
  | thrown.                      (* String(error) of what was caught *)

Inductive answer :=
  | success (value : string)
  | failure (e : error).

(** The main process as the two handlers see it: the files of the
    directories [image-cache] and [video-cache] with their content, and the
    requests sent so far, each with its URL and bearer token. *)
Record disk := {
  image_cache : gmap string string;
  video_cache : gmap string string;
  requests : list (string * string)
}.

(** The surroundings of one call: the token [authService.getAccessToken()]
    resolves to, what the network does with the request, and whether
    reading or writing a file throws. *)
Record env := {
  token : option string;
  net : string -> string -> fetched;
  read_throws : bool;
  write_throws : bool
}.

Section Encoding.

(** [crypto.createHash('md5').update(s).digest('hex')] and
    [Buffer.from(buffer).toString('base64')]. *)
Variable md5 : string -> string.
Variable base64 : string -> string.

(** JavaScript [a || b] on strings that may be missing. *)
Definition or_else (a : option string) (b : string) : string :=
  match a with
  | Some s => if PhotosApi.truthy s then s else b
  | None => b
  end.

Definition is_truthy (a : option string) : bool :=
  match a with
  | Some s => PhotosApi.truthy s
  | None => false
  end.

(** The name of the cache file of 'photos:get-image'. *)
Definition cacheKey (baseUrl : string) (size imageId : option string) : string :=
  or_else imageId (md5 (baseUrl +:+ or_else size "")).

Definition cachePath (baseUrl : string) (size imageId : option string) : string :=
  cacheKey baseUrl size imageId +:+ ".cache".

Definition log_request (url bearer : string) (d : disk) : disk :=
  {| image_cache := image_cache d; video_cache := video_cache d;
     requests := requests d ++ [(url, bearer)] |}.

(** [ipcMain.handle('photos:get-image', ...)] *)
Definition get_image (e : env) (baseUrl : string) (size imageId : option string)
    (d : disk) : answer * disk :=
  let path := cachePath baseUrl size imageId in
  match (if read_throws e then None else image_cache d !! path) with
  | Some cached => (success cached, d)
  | None =>
      match token e with
      | None => (failure auth_required, d)
      | Some t =>
          if PhotosApi.truthy t then
            let imageUrl := if is_truthy size then baseUrl +:+ "=" +:+ or_else size ""
                            else baseUrl in
            match net e imageUrl t with
            | rejected => (failure thrown, log_request imageUrl t d)
            | answered response =>
                if ok response then
                  let dataUrl := "data:" +:+ or_else (contentType response) "image/jpeg"
                                 +:+ ";base64," +:+ base64 (body response) in
                  (success dataUrl,
                   if write_throws e then log_request imageUrl t d
                   else {| image_cache := <[path := dataUrl]> (image_cache d);
                           video_cache := video_cache d;
                           requests := requests d ++ [(imageUrl, t)] |})
                else (failure (http (status response)), log_request imageUrl t d)
            end
          else (failure auth_required, d)
      end
  end.

End Encoding.

(** [ipcMain.handle('photos:get-video', ...)]: the token is asked for
    first; the file is [`${videoId}.mp4`] and the answer is its path. A
    write that throws is caught by the handler's [catch]. *)
Definition get_video (e : env) (baseUrl videoId : string) (d : disk) : answer * disk :=
  match token e with
  | None => (failure auth_required, d)
  | Some t =>
      if PhotosApi.truthy t then
        let videoPath := videoId +:+ ".mp4" in
        match video_cache d !! videoPath with
        | Some _ => (success videoPath, d)
        | None =>
            let videoUrl := baseUrl +:+ "=dv" in
            match net e videoUrl t with
            | rejected => (failure thrown, log_request videoUrl t d)
            | answered response =>
                if ok response then
                  if write_throws e then (failure thrown, log_request videoUrl t d)
                  else
                    (success videoPath,
                     {| image_cache := image_cache d;
                        video_cache := <[videoPath := body response]> (video_cache d);
                        requests := requests d ++ [(videoUrl, t)] |})
                else (failure (http (status response)), log_request videoUrl t d)
            end
        end
      else (failure auth_required, d)
  end.

(** *** The power-save blocker *)

(** [powerSaveId], and the blockers of [powerSaveBlocker]: the ids that
    were started and not stopped, and the id the next [start] returns. *)
Record power := {
  powerSaveId : option nat;
  active : gset nat;
  next_id : nat
}.

(** [ipcMain.handle('power:prevent-sleep', ...)]: the answer and the new
    state. *)
Definition prevent_sleep (prevent : bool) (p : power) : bool * power :=
  match prevent, powerSaveId p with
  | true, None =>
      (true, {| powerSaveId := Some (next_id p);
                active := {[next_id p]} ∪ active p;
                next_id := S (next_id p) |})
  | false, Some i =>
      (true, {| powerSaveId := None; active := active p ∖ {[i]};
                next_id := next_id p |})
  | _, _ => (false, p)
  end.

(** The blocker state when the application starts. *)
Definition power_off : power := {| powerSaveId := None; active := ∅; next_id := 0 |}.

(** The variable [powerSaveId] names the one blocker that is active, if
    any. *)
Definition power_ok (p : power) : Prop :=
  active p = match powerSaveId p with Some i => {[i]} | None => ∅ end.

(** *** Calls one after the other *)

(** The renderer's calls of the two handlers, each with the surroundings it
    meets. *)
Inductive call :=
  | image (e : env) (baseUrl : string) (size imageId : option string)
  | video (e : env) (baseUrl videoId : string).

Definition serve (md5 base64 : string -> string) (c : call) (d : disk) : answer * disk :=
  match c with
  | image e baseUrl size imageId => get_image md5 base64 e baseUrl size imageId d
  | video e baseUrl videoId => get_video e baseUrl videoId d
  end.

Definition serve_all (md5 base64 : string -> string) (calls : list call) (d : disk) : disk :=
  foldl (fun d c => (serve md5 base64 c d).2) d calls.

Definition reads_well (c : call) : Prop :=
  match c with
  | image e _ _ _ => read_throws e = false
  | video _ _ _ => True
  end.

Definition prevent_sleep_all (wishes : list bool) (p : power) : power :=
  foldl (fun p prevent => (prevent_sleep prevent p).2) p wishes.


End Ipc.

(** ** Scenarios used by the examples below *)

Module Scenarios.

(** Picked items: [picked_a'] has the id of [picked_a]. *)
Definition picked_a := AlbumList.Build_MediaItem "a" "u1" "image/jpeg" "a.jpg".
Definition picked_b := AlbumList.Build_MediaItem "b" "u2" "image/jpeg" "b.jpg".
Definition picked_a' := AlbumList.Build_MediaItem "a" "u3" "image/png" "a.png".
Definition picked_c := AlbumList.Build_MediaItem "c" "u4" "video/mp4" "c.mp4".

(** Five images, created at times 10, 20, ..., 50. *)
Definition photo (name : string) (created : Z) : Slideshow.MediaItem :=
  Slideshow.Build_MediaItem name ("https://lh3/" +:+ name) "image/jpeg"
    (name +:+ ".jpg") created "picker-selected" 0.

Definition items5 : list Slideshow.MediaItem :=
  [photo "p1" 10; photo "p2" 20; photo "p3" 30; photo "p4" 40; photo "p5" 50].

(** The slideshow after mounting with the effect "fade" and loading
    [items5], newest first. *)
Definition loaded5 : Slideshow.state :=
  Slideshow.loadMediaItems (Some items5) (Some Slideshow.latest) (fun _ => true)
    (Slideshow.mount Slideshow.fade).

(** One advance by the interval has completed (index 1) and the interval
    has fired again: the transition to index 2 is in flight. *)
Definition in_transition5 : Slideshow.state :=
  Slideshow.run loaded5
    (Slideshow.completed Slideshow.interval_fires ++ [Slideshow.interval_fires]).

(** A schedule that allows playback on Monday from 9 to 10 only. *)
Definition monday_morning : Schedule.ScheduleSettings :=
  Schedule.Build_ScheduleSettings true
    ((replicate 9 false ++ [true] ++ replicate 14 false)
     :: replicate 6 (replicate 24 false)).

(** The slideshow is on screen and the last check found playback allowed. *)
Definition showing : Schedule.app :=
  Schedule.Build_app (Schedule.Build_main true (Some true) true)
    Schedule.slideshow true 5.

(** Networks: one that answers from a script, request by request, and
    [last] once the script is used up. *)
Definition scripted (script : list PhotosApi.outcome) (last : PhotosApi.outcome)
    : nat -> PhotosApi.request -> PhotosApi.outcome :=
  fun k _ => nth k script last.

Definition answer (status : Z) : PhotosApi.outcome :=
  PhotosApi.Answered (PhotosApi.Build_Response status
    (Some (PhotosApi.Build_batchGetData None))).

(** The answer 200 to a batchGet that reissues the locator of "p1". *)
Definition answer_p1 : PhotosApi.outcome :=
  PhotosApi.Answered (PhotosApi.Build_Response 200
    (Some (PhotosApi.Build_batchGetData
       (Some [PhotosApi.Build_mediaItemResult (Some ("p1", "https://lh3/p1-new"))])))).

(** The main process at time [now], with nothing sent yet. *)
Definition world_at (now : Z) : PhotosApi.world :=
  PhotosApi.Build_world now [] [] None [].

Definition a_url : PhotosApi.url :=
  PhotosApi.Build_url "https://photoslibrary.googleapis.com/v1/mediaItems:search" [].

(** Fifty-one ids, "id0" to "id50": two batches. *)
Definition ids51 : list string := (fun n => "id" +:+ pretty n) <$> seq 0 51.

(** The main process at time [now] with a token set. *)
Definition world_with_token (now : Z) : PhotosApi.world :=
  PhotosApi.Build_world now [] [] (Some "token") [].

(** A slideshow of the single item "p1", whose locator was issued at time 0. *)
Definition item_p1 : Slideshow.MediaItem := photo "p1" 10.

Definition showing_p1 : Slideshow.state :=
  Slideshow.loadMediaItems (Some [item_p1]) None (fun _ => true)
    (Slideshow.mount Slideshow.fade).

Definition minutes (n : Z) : Z := (n * 60 * 1000)%Z.

(** The cache scenario: capacity 1000 bytes, images A, B, C, D (and E) of
    300 bytes each, cached at times 1, 2, 3, 4 (and 5). *)
Definition image (name : string) : PhotosApi.CachedMediaItem :=
  PhotosApi.Build_CachedMediaItem name ("https://lh3/" +:+ name) "image/jpeg"
    "picker-selected" 0.

Definition put (name : string) (now : Z) (dir : gmap string PhotosApi.Stats)
    : gmap string PhotosApi.Stats :=
  (PhotosApi.cacheImage 1000 (image name) (Some 300%N) now dir).2.

Definition after_ABCD : gmap string PhotosApi.Stats :=
  put "D" 4 (put "C" 3 (put "B" 2 (put "A" 1 ∅))).

(** The settings page with an empty week, nothing being dragged. *)
Definition empty_week : Settings.state :=
  Settings.Build_state (Settings.preset_grid Settings.none) false None true
    (Settings.preset_grid Settings.none).

(** The main process with empty caches; a network that answers every
    request with a JPEG of body "bytes", one that answers 404, and the
    surroundings of a call that is signed in and online, and of one that is
    signed out. *)
Definition empty_disk : Ipc.disk := Ipc.Build_disk ∅ ∅ [].

Definition jpeg : Ipc.MediaResponse := Ipc.Build_MediaResponse 200 "bytes" (Some "image/jpeg").

Definition online : Ipc.env :=
  Ipc.Build_env (Some "token") (fun _ _ => Ipc.answered jpeg) false false.

Definition signed_out : Ipc.env :=
  Ipc.Build_env None (fun _ _ => Ipc.rejected) false false.

End Scenarios.

(** * Theorems *)

(** ** The picked-media list (src/pages/AlbumList.tsx) *)

Section AlbumListFacts.

Import AlbumList Scenarios.

Lemma elem_of_existingIds (mediaItems : list MediaItem) (i : string) :
  i ∈ (list_to_set (id <$> mediaItems) : gset string) <-> i ∈ id <$> mediaItems.
Proof. apply elem_of_list_to_set. Qed.

Lemma uniqueNewItems_fresh (mediaItems newItems : list MediaItem) (item : MediaItem) :
  item ∈ filter (fun item => id item ∉ (list_to_set (id <$> mediaItems) : gset string)) newItems ->
  id item ∉ id <$> mediaItems.
Proof.
  intros Hin. apply list_elem_of_filter in Hin as [Hfresh _].
  by rewrite <- elem_of_existingIds.
Qed.

Lemma NoDup_fmap_filter {A B} (f : A -> B) (P : A -> Prop) `{!forall x, Decision (P x)}
    (l : list A) :
  NoDup (f <$> l) -> NoDup (f <$> filter P l).
Proof.
  induction l as [|x l IH]; simpl; [done|].
  intros Hnd. apply NoDup_cons in Hnd as [Hx Hl].
  rewrite filter_cons. destruct (decide (P x)); simpl; [|by apply IH].
  apply NoDup_cons. split; [|by apply IH].
  intros Hin. apply Hx.
  apply list_elem_of_fmap in Hin as (y & -> & Hy).
  apply list_elem_of_filter in Hy as [_ Hy].
  apply list_elem_of_fmap. eauto.
Qed.

(** C10. Merging newly picked items into the list keeps the existing items
    as they are, in order, and appends after them exactly the new items
    whose id does not occur in the list; when the ids of the list are
    pairwise distinct and so are the ids of the new batch, the ids of the
    merged list are pairwise distinct. *)
Theorem C10_merged_ids_distinct (mediaItems newItems : list MediaItem) :
  mergedItems mediaItems newItems
    = mediaItems ++ filter (fun item => id item ∉ id <$> mediaItems) newItems
  /\ take (length mediaItems) (mergedItems mediaItems newItems) = mediaItems
  /\ (NoDup (id <$> mediaItems) -> NoDup (id <$> newItems) ->
      NoDup (id <$> mergedItems mediaItems newItems)).
Proof.
  unfold mergedItems. split; [|split].
  - f_equal. apply list_filter_iff. intros item. by rewrite elem_of_existingIds.
  - by rewrite take_app_length.
  - intros Hold Hnew. rewrite fmap_app. apply NoDup_app. split; [done|]. split.
    + intros i Hin Hin'.
      apply list_elem_of_fmap in Hin' as (item & -> & Hitem).
      by apply uniqueNewItems_fresh in Hitem.
    + by apply NoDup_fmap_filter.
Qed.

Lemma C10_merged_ids_distinct_witness :
  mergedItems [picked_a; picked_b] [picked_a'; picked_c] = [picked_a; picked_b; picked_c]
  /\ NoDup (id <$> mergedItems [picked_a; picked_b] [picked_a'; picked_c]).
Proof.
  assert (H1 : NoDup (id <$> [picked_a; picked_b])).
  { apply (bool_decide_unpack _). vm_compute. exact I. }
  assert (H2 : NoDup (id <$> [picked_a'; picked_c])).
  { apply (bool_decide_unpack _). vm_compute. exact I. }
  destruct (C10_merged_ids_distinct [picked_a; picked_b] [picked_a'; picked_c])
    as (_ & _ & Hnd).
  split; [vm_compute; reflexivity | exact (Hnd H1 H2)].
Defined.

End AlbumListFacts.

(** ** Playback (src/pages/Slideshow.tsx) *)

Section SlideshowFacts.

Import Slideshow Scenarios.
Local Open Scope Z_scope.

Lemma length_insert_sorted {A} (le : A -> A -> bool) (x : A) (l : list A) :
  length (insert_sorted le x l) = S (length l).
Proof.
  induction l as [|y l IH]; simpl; [done|].
  destruct (le x y); simpl; [done|]. by rewrite IH.
Qed.

Lemma length_stable_sort {A} (le : A -> A -> bool) (l : list A) :
  length (stable_sort le l) = length l.
Proof.
  induction l as [|x l IH]; simpl; [done|].
  rewrite length_insert_sorted. f_equal. exact IH.
Qed.

Lemma length_insert_random {A} (rnd : nat -> bool) (x : A) (l : list A) (k : nat) :
  length (insert_random rnd k x l).1 = S (length l).
Proof.
  revert k. induction l as [|y l IH]; intros k; simpl; [done|].
  destruct (rnd k); simpl; [done|].
  specialize (IH (S k)). destruct (insert_random rnd (S k) x l) as [r k'].
  simpl in *. by rewrite IH.
Qed.

Lemma length_shuffle {A} (rnd : nat -> bool) (l : list A) :
  length (shuffle rnd l).1 = length l.
Proof.
  induction l as [|x l IH]; simpl; [done|].
  destruct (shuffle rnd l) as [r k]. simpl in IH.
  rewrite length_insert_random. by rewrite IH.
Qed.

(** Whatever the order, sorting keeps the number of items. *)
Lemma length_sortItems (order : option PhotoOrder) (rnd : nat -> bool)
    (items : list MediaItem) :
  length (sortItems order rnd items) = length items.
Proof.
  destruct order as [[]|]; simpl;
    auto using length_stable_sort, length_shuffle.
Qed.

Lemma js_rem_range (a : Z) (L : nat) :
  0 <= a -> (0 < L)%nat -> 0 <= js_rem a (Z.of_nat L) < Z.of_nat L.
Proof. intros Ha HL. unfold js_rem. apply Z.rem_bound_pos; lia. Qed.

Lemma js_rem_mod (a : Z) (L : nat) :
  0 <= a -> (0 < L)%nat -> js_rem a (Z.of_nat L) = a mod Z.of_nat L.
Proof. intros Ha HL. unfold js_rem. apply Z.rem_mod_nonneg; lia. Qed.

(** A trigger handled by the current render, in a settled state with a
    non-empty sequence, followed by its two timeouts, ends in the settled
    state at the target index. *)
Lemma transitionTo_completes (s : state) (newIndex : Z) :
  settled s -> mediaItems s <> [] ->
  run (transitionTo (render s) newIndex s) [timeout_fires 0; timeout_fires 0]
  = arrived newIndex s.
Proof.
  intros [Htr Hto] Hne. unfold transitionTo, render; simpl.
  rewrite Htr. destruct (mediaItems s) as [|m ms] eqn:Hm; [done|]. simpl.
  unfold fire; simpl. rewrite Hto. simpl. unfold arrived. by rewrite Hm.
Qed.

Lemma click_next_completes (s : state) :
  settled s -> mediaItems s <> [] ->
  run s (completed click_next)
  = arrived (js_rem (currentIndex s + 1) (Z.of_nat (length (mediaItems s)))) s.
Proof. intros Hs Hne. by apply transitionTo_completes. Qed.

Lemma arrived_settled (i : Z) (s : state) : settled (arrived i s).
Proof. by split. Qed.

Lemma nexts_S (n : nat) : nexts (S n) = completed click_next ++ nexts n.
Proof. done. Qed.

Lemma run_app (s : state) (es1 es2 : list event) :
  run s (es1 ++ es2) = run (run s es1) es2.
Proof. apply foldl_app. Qed.

(** After [k] completed advances by "next" the cursor is [k] further,
    modulo the length, and the state is settled again. *)
Lemma nexts_index (k : nat) (s : state) :
  settled s -> mediaItems s <> [] ->
  0 <= currentIndex s ->
  run s (nexts k)
  = (if k is O then s
     else arrived ((currentIndex s + Z.of_nat k) mod Z.of_nat (length (mediaItems s))) s).
Proof.
  revert s. induction k as [|k IH]; intros s Hs Hne Hi; [done|].
  assert (HL : (0 < length (mediaItems s))%nat).
  { destruct (mediaItems s); [done|simpl; lia]. }
  rewrite nexts_S, run_app, click_next_completes by done.
  pose proof (js_rem_range (currentIndex s + 1) _ ltac:(lia) HL) as Hr.
  rewrite IH; [|apply arrived_settled|done|simpl; lia].
  destruct k as [|k].
  - simpl. rewrite js_rem_mod by lia. done.
  - simpl mediaItems. simpl currentIndex. unfold arrived at 1. simpl.
    unfold arrived. f_equal.
    rewrite js_rem_mod by lia.
    rewrite Zplus_mod_idemp_l. f_equal. lia.
Qed.

Lemma in_flight_app (s : state) (ts : list timeout) :
  omap (fun t => match t with
                 | set_current_index newIndex _ => Some newIndex
                 | end_transition => None
                 end) (timeouts s ++ ts)
  = in_flight s ++ omap (fun t => match t with
                 | set_current_index newIndex _ => Some newIndex
                 | end_transition => None
                 end) ts.
Proof. unfold in_flight. by rewrite omap_app. Qed.

Lemma in_range_transitionTo (L : nat) (c : closure) (newIndex : Z) (s : state) :
  in_range L s -> 0 <= newIndex < Z.of_nat L ->
  in_range L (transitionTo c newIndex s).
Proof.
  intros (Hlen & Hi & Hfl) Hnew. unfold transitionTo.
  destruct (c_isTransitioning c || (c_length c =? 0)%nat); [done|].
  split; [done|]. split; [done|].
  unfold in_flight. simpl. rewrite in_flight_app. simpl.
  apply Forall_app. split; [done|]. by apply Forall_singleton.
Qed.

Lemma in_flight_delete (s : state) (k : nat) (i : Z) :
  i ∈ omap (fun t => match t with
                 | set_current_index newIndex _ => Some newIndex
                 | end_transition => None
                 end) (delete k (timeouts s)) ->
  i ∈ in_flight s.
Proof.
  unfold in_flight. rewrite !list_elem_of_omap.
  intros (t & Ht & Hsome). exists t. split; [|done].
  by eapply list_elem_of_delete_inv.
Qed.

Lemma in_range_fire (L : nat) (k : nat) (s : state) :
  in_range L s -> in_range L (fire k s).
Proof.
  intros (Hlen & Hi & Hfl). unfold fire.
  destruct (timeouts s !! k) as [[newIndex d|]|] eqn:Hk; [| |done].
  - split; [done|]. simpl. split.
    + rewrite Forall_forall in Hfl. apply Hfl.
      unfold in_flight. apply list_elem_of_omap.
      exists (set_current_index newIndex d). split; [|done].
      by eapply list_elem_of_lookup_2.
    + unfold in_flight. simpl. rewrite omap_app. simpl. rewrite app_nil_r.
      apply Forall_forall. intros i Hin. rewrite Forall_forall in Hfl.
      by apply Hfl, (in_flight_delete s k).
  - split; [done|]. split; [done|]. unfold in_flight. simpl.
    apply Forall_forall. intros i Hin. rewrite Forall_forall in Hfl.
    by apply Hfl, (in_flight_delete s k).
Qed.

(** Every event handled by the current render keeps the cursor and the
    pending index changes in range. *)
Lemma in_range_step (L : nat) (s : state) (e : event) :
  of_current_render e = true -> in_range L s -> in_range L (step s e).
Proof.
  intros He Hinv. pose proof Hinv as (Hlen & Hi & _).
  assert (Hnext : (0 < L)%nat ->
    0 <= js_rem (currentIndex s + 1) (Z.of_nat (length (mediaItems s))) < Z.of_nat L).
  { intros HL. rewrite Hlen. apply js_rem_range; lia. }
  destruct e; try discriminate He; simpl.
  - unfold on_interval, interval_running. simpl.
    destruct (isPlaying s); [|done]. simpl.
    destruct (0 <? length (mediaItems s))%nat eqn:HL; [|done]. simpl.
    destruct (negb (isTransitioning s) && _); [|done].
    apply in_range_transitionTo; [done|]. apply Hnext. apply Nat.ltb_lt in HL. lia.
  - unfold handleVideoEnd. simpl.
    destruct (isPlaying s); [|done]. simpl.
    destruct (0 <? length (mediaItems s))%nat eqn:HL; [|done].
    apply in_range_transitionTo; [done|]. apply Hnext. apply Nat.ltb_lt in HL. lia.
  - unfold handleLoadTimeout. simpl.
    destruct (0 <? length (mediaItems s))%nat eqn:HL; [|done].
    apply in_range_transitionTo; [done|]. apply Hnext. apply Nat.ltb_lt in HL. lia.
  - unfold goToNext. simpl. apply in_range_transitionTo; [done|]. apply Hnext. lia.
  - unfold goToPrevious. simpl. apply in_range_transitionTo; [done|].
    rewrite Hlen. apply js_rem_range; lia.
  - done.
  - done.
  - done.
  - by apply in_range_fire.
Qed.

Lemma in_range_run (L : nat) (es : list event) (s : state) :
  Forall (fun e => of_current_render e = true) es -> in_range L s -> in_range L (run s es).
Proof.
  revert s. induction es as [|e es IH]; intros s Hes Hinv; [done|].
  apply Forall_cons in Hes as [He Hes]. simpl. apply IH; [done|].
  by apply in_range_step.
Qed.

Lemma nexts_of_current_render (n : nat) :
  Forall (fun e => of_current_render e = true) (nexts n).
Proof.
  induction n as [|n IH]; [constructor|].
  rewrite nexts_S. apply Forall_app. split; [|done].
  repeat constructor.
Qed.

(** The "next" button wraps around. For a sequence of length [L > 0],
    loaded in any order, and any starting index in [[0, L)]: [k] completed
    advances by the button, each going from index [i] to [(i + 1) % L],
    move the cursor to [(start + k) mod L]; after [L] of them it is back at
    its starting index, and at every moment on the way it is inside
    [[0, L)]. *)
Lemma click_next_wraps_around (order : option PhotoOrder) (rnd : nat -> bool)
    (items : list MediaItem) (s : state)
    (Hitems : items <> [])
    (Hload : mediaItems s = sortItems order rnd items)
    (Hstart : 0 <= currentIndex s < Z.of_nat (length items))
    (Hsettled : settled s) :
  run s (completed click_next)
    = arrived (js_rem (currentIndex s + 1) (Z.of_nat (length items))) s
  /\ (forall k : nat, currentIndex (run s (nexts k))
                      = (currentIndex s + Z.of_nat k) mod Z.of_nat (length items))
  /\ currentIndex (run s (nexts (length items))) = currentIndex s
  /\ (forall es, es `prefix_of` nexts (length items) ->
                 0 <= currentIndex (run s es) < Z.of_nat (length items)).
Proof.
  assert (Hlen : length (mediaItems s) = length items).
  { rewrite Hload. apply length_sortItems. }
  assert (HL : (0 < length items)%nat).
  { destruct items; [done|simpl; lia]. }
  assert (Hne : mediaItems s <> []).
  { intros Hnil. rewrite Hnil in Hlen. simpl in Hlen. lia. }
  assert (Hk : forall k : nat, currentIndex (run s (nexts k))
                      = (currentIndex s + Z.of_nat k) mod Z.of_nat (length items)).
  { intros k. rewrite nexts_index by (done || lia). destruct k as [|k].
    - rewrite Z.add_0_r, Z.mod_small; [done|lia].
    - simpl. by rewrite Hlen. }
  split; [|split; [done|split]].
  - rewrite click_next_completes by done. by rewrite Hlen.
  - rewrite Hk. rewrite <- (Z.mul_1_l (Z.of_nat (length items))) at 1.
    rewrite Z.mod_add by lia. apply Z.mod_small. lia.
  - intros es [rest Hes].
    assert (Hin : in_range (length items) s).
    { split; [done|]. split; [done|]. destruct Hsettled as [_ Hto].
      unfold in_flight. rewrite Hto. constructor. }
    pose proof (nexts_of_current_render (length items)) as Hall.
    rewrite Hes in Hall. apply Forall_app in Hall as [Hall _].
    by destruct (in_range_run _ es s Hall Hin) as (_ & ? & _).
Qed.

(** An advance started by a callback of the closure [c], which is not
    transitioning itself, in a settled state, followed by its two timeouts,
    ends at the target index. *)
Lemma closure_advance_completes (c : closure) (s : state) (newIndex : Z) :
  settled s -> c_isTransitioning c = false -> c_length c <> 0%nat ->
  run (transitionTo c newIndex s) [timeout_fires 0; timeout_fires 0]
  = arrived newIndex s.
Proof.
  intros [Htr Hto] Hc Hlen. unfold transitionTo. rewrite Hc.
  destruct (c_length c) as [|n] eqn:Hn; [done|]. simpl.
  unfold fire; simpl. rewrite Hto. simpl. done.
Qed.

Lemma arrow_rights_S (n : nat) :
  arrow_rights (S n) = completed key_ArrowRight ++ arrow_rights n.
Proof. done. Qed.

(** However often ArrowRight is pressed, each advance running to its end,
    the cursor ends one after the index of the closure of the listener. *)
Lemma arrow_rights_index (k : nat) (s : state) :
  settled s -> c_isTransitioning (keydown s) = false -> c_length (keydown s) <> 0%nat ->
  run s (arrow_rights (S k))
  = arrived (js_rem (c_currentIndex (keydown s) + 1) (Z.of_nat (c_length (keydown s)))) s.
Proof.
  revert s. induction k as [|k IH]; intros s Hs Hc Hlen.
  - change (arrow_rights 1) with (completed key_ArrowRight).
    by apply closure_advance_completes.
  - rewrite arrow_rights_S, run_app.
    change (run s (completed key_ArrowRight))
      with (run (transitionTo (keydown s)
                   (js_rem (c_currentIndex (keydown s) + 1) (Z.of_nat (c_length (keydown s)))) s)
              [timeout_fires 0; timeout_fires 0]).
    rewrite closure_advance_completes by done.
    rewrite IH; [|apply arrived_settled|done|done]. done.
Qed.

(** The state after loading a non-empty list into the mounted component:
    settled, at index 0, and the listener for the keys holds the closure of
    this render. *)
Lemma loaded_keydown (order : option PhotoOrder) (rnd : nat -> bool)
    (effect : TransitionEffect) (items : list MediaItem) :
  items <> [] ->
  let s := loadMediaItems (Some items) order rnd (mount effect) in
  settled s
  /\ mediaItems s = sortItems order rnd items
  /\ currentIndex s = 0
  /\ c_length (keydown s) = length items
  /\ c_currentIndex (keydown s) = 0
  /\ c_isTransitioning (keydown s) = false.
Proof.
  intros Hne. destruct items as [|item items]; [done|].
  pose proof (length_sortItems order rnd (item :: items)) as Hlen.
  cbv zeta. unfold loadMediaItems.
  destruct (decide _) as [Heq|_].
  - simpl in Heq. rewrite Hlen in Heq. discriminate Heq.
  - simpl. by rewrite Hlen.
Qed.

(** C8 (where the code departs from it). The on-screen button wraps
    around, the key does not. The listener for ArrowRight keeps the
    [goToNext] of the render in which the list was loaded, whose index is
    0, so every completed advance by the key ends at index 1, wherever the
    cursor was: after a list of [L >= 2] items was loaded, in any order,
    and the button brought the cursor to any index [j mod L], [L] completed
    advances by ArrowRight leave the cursor at 1, not at its starting
    index (unless that was 1), while [L] advances by the button bring it
    back. *)
Theorem C8_arrow_key_does_not_wrap (order : option PhotoOrder) (rnd : nat -> bool)
    (effect : TransitionEffect) (items : list MediaItem) (j : nat)
    (Hitems : (2 <= length items)%nat) :
  let s := run (loadMediaItems (Some items) order rnd (mount effect)) (nexts j) in
  settled s
  /\ mediaItems s = sortItems order rnd items
  /\ currentIndex s = Z.of_nat j mod Z.of_nat (length items)
  /\ (forall k : nat, currentIndex (run s (arrow_rights (S k))) = 1)
  /\ (currentIndex s <> 1 ->
      currentIndex (run s (arrow_rights (length items))) <> currentIndex s)
  /\ currentIndex (run s (nexts (length items))) = currentIndex s.
Proof.
  assert (Hne : items <> []) by (destruct items; [simpl in Hitems; lia|done]).
  destruct (loaded_keydown order rnd effect items Hne)
    as (Hsettled0 & Hitems0 & Hindex0 & Hklen & Hkidx & Hktr).
  set (s0 := loadMediaItems (Some items) order rnd (mount effect)) in *.
  assert (Hlen0 : length (mediaItems s0) = length items).
  { rewrite Hitems0. apply length_sortItems. }
  assert (Hne0 : mediaItems s0 <> []).
  { intros Hnil. rewrite Hnil in Hlen0. simpl in Hlen0. lia. }
  intros s.
  assert (Hs : settled s /\ mediaItems s = mediaItems s0 /\ keydown s = keydown s0
               /\ currentIndex s = Z.of_nat j mod Z.of_nat (length items)).
  { subst s. rewrite nexts_index by (done || lia). destruct j as [|j].
    - rewrite Hindex0. by rewrite Zmod_0_l.
    - rewrite Hlen0, Hindex0. repeat split. }
  destruct Hs as (Hsettled & Hsame & Hkeys & Hindex).
  assert (Hrange : 0 <= currentIndex s < Z.of_nat (length items)).
  { rewrite Hindex. apply Z.mod_pos_bound. lia. }
  assert (Hkey : forall k : nat, currentIndex (run s (arrow_rights (S k))) = 1).
  { intros k. rewrite arrow_rights_index; rewrite ?Hkeys; [|done|done|lia].
    simpl. rewrite Hkidx, Hklen. unfold js_rem. apply Z.rem_small. lia. }
  split; [done|]. split; [congruence|]. split; [done|]. split; [done|]. split.
  - intros Hnot. destruct (length items) as [|n] eqn:HL; [lia|].
    rewrite Hkey. congruence.
  - rewrite nexts_index; [|done|congruence|lia].
    destruct (length items) as [|n] eqn:HL; [lia|].
    simpl currentIndex. rewrite Hsame, Hlen0.
    rewrite <- (Z.mul_1_l (Z.of_nat (S n))) at 1.
    rewrite Z.mod_add by lia. apply Z.mod_small. lia.
Qed.

Lemma C8_arrow_key_does_not_wrap_witness :
  currentIndex (run loaded5 (arrow_rights 5)) = 1
  /\ currentIndex (run loaded5 (nexts 5)) = currentIndex loaded5.
Proof.
  destruct (C8_arrow_key_does_not_wrap (Some latest) (fun _ => true) fade items5 0
              ltac:(simpl; lia)) as (_ & _ & _ & Hkey & _ & Hbutton).
  split; [exact (Hkey 4%nat)|exact Hbutton].
Defined.

(** C9. With playback paused and no transition in flight, the end of the
    video changes nothing, while a load timeout still moves the cursor to
    the next index when the sequence is not empty; with playback running
    the end of the video does so too. The next index is
    [(index + 1) mod length] in both cases. *)
Theorem C9_pause_asymmetry (s : state) (Hsettled : settled s) :
  (isPlaying s = false -> step s video_ended = s)
  /\ (mediaItems s <> [] -> 0 <= currentIndex s ->
      run s (completed load_timed_out)
      = arrived ((currentIndex s + 1) mod Z.of_nat (length (mediaItems s))) s)
  /\ (isPlaying s = true -> mediaItems s <> [] -> 0 <= currentIndex s ->
      run s (completed video_ended)
      = arrived ((currentIndex s + 1) mod Z.of_nat (length (mediaItems s))) s).
Proof.
  assert (Hltb : mediaItems s <> [] -> (0 <? length (mediaItems s))%nat = true).
  { intros Hne. apply Nat.ltb_lt. destruct (mediaItems s); [done|simpl; lia]. }
  split; [|split].
  - intros Hpaused. simpl. unfold handleVideoEnd. simpl. by rewrite Hpaused.
  - intros Hitems Hindex. specialize (Hltb Hitems).
    rewrite <- js_rem_mod by (by apply Nat.ltb_lt || lia).
    unfold completed. change (run s (?e :: ?es)) with (run (step s e) es).
    simpl step. unfold handleLoadTimeout. simpl c_length. rewrite Hltb.
    by apply transitionTo_completes.
  - intros Hplaying Hitems Hindex. specialize (Hltb Hitems).
    rewrite <- js_rem_mod by (by apply Nat.ltb_lt || lia).
    unfold completed. change (run s (?e :: ?es)) with (run (step s e) es).
    simpl step. unfold handleVideoEnd. simpl c_length. simpl c_isPlaying.
    rewrite Hplaying, Hltb. simpl. by apply transitionTo_completes.
Qed.

Lemma C9_pause_asymmetry_witness :
  step (set_isPlaying false loaded5) video_ended = set_isPlaying false loaded5
  /\ currentIndex (run (set_isPlaying false loaded5) (completed load_timed_out)) = 1.
Proof.
  assert (Hsettled : settled (set_isPlaying false loaded5)) by (split; reflexivity).
  assert (Hitems : mediaItems (set_isPlaying false loaded5) <> []) by discriminate.
  assert (Hindex : 0 <= currentIndex (set_isPlaying false loaded5))
    by (vm_compute; discriminate).
  destruct (C9_pause_asymmetry (set_isPlaying false loaded5) Hsettled)
    as (Hend & Htimeout & _).
  split; [apply Hend; reflexivity|]. rewrite (Htimeout Hitems Hindex). reflexivity.
Defined.

(** While a transition is in flight, every trigger handled by a callback of
    the current render is dropped: the state does not change. *)
Lemma trigger_of_current_render_dropped (s : state) (e : event) :
  isTransitioning s = true -> is_trigger e = true -> of_current_render e = true ->
  step s e = s.
Proof.
  intros Htr Htrig Hcur.
  destruct e; try discriminate Htrig; try discriminate Hcur; simpl.
  - unfold on_interval, interval_running. simpl. rewrite Htr. simpl.
    by rewrite !andb_false_r.
  - unfold handleVideoEnd, transitionTo. simpl. rewrite Htr.
    by destruct (isPlaying s && _).
  - unfold handleLoadTimeout, transitionTo. simpl. rewrite Htr.
    by destruct (0 <? _)%nat.
  - unfold goToNext, transitionTo. simpl. by rewrite Htr.
  - unfold goToPrevious, transitionTo. simpl. by rewrite Htr.
Qed.

(** The end of a video and a tick of the interval arriving for the same
    index, in either order, start one advance. *)
Lemma interval_and_video_end_advance_once (s : state) :
  settled s -> mediaItems s <> [] -> isPlaying s = true ->
  in_flight (run s [video_ended; interval_fires])
    = [js_rem (currentIndex s + 1) (Z.of_nat (length (mediaItems s)))]
  /\ (isCurrentVideo (mediaItems s) (currentIndex s) = false ->
      in_flight (run s [interval_fires; video_ended])
      = [js_rem (currentIndex s + 1) (Z.of_nat (length (mediaItems s)))]).
Proof.
  intros [Htr Hto] Hne Hplay.
  assert (Hstart : forall c, c_isTransitioning c = false -> (c_length c =? 0)%nat = false ->
            forall i, isTransitioning (transitionTo c i s) = true
                      /\ in_flight (transitionTo c i s) = [i]).
  { intros c Hc1 Hc2 i. unfold transitionTo. rewrite Hc1, Hc2. simpl.
    split; [done|]. unfold in_flight. simpl. by rewrite Hto. }
  assert (Hlen : (length (mediaItems s) =? 0)%nat = false).
  { destruct (mediaItems s); [done|done]. }
  assert (Hltb : (0 <? length (mediaItems s))%nat = true).
  { destruct (mediaItems s); [done|done]. }
  split.
  - change (run s [video_ended; interval_fires])
      with (step (step s video_ended) interval_fires).
    assert (Hv : step s video_ended
                 = transitionTo (render s)
                     (js_rem (currentIndex s + 1) (Z.of_nat (length (mediaItems s)))) s).
    { simpl. unfold handleVideoEnd. simpl. by rewrite Hplay, Hltb. }
    rewrite Hv.
    destruct (Hstart (render s) Htr Hlen
                (js_rem (currentIndex s + 1) (Z.of_nat (length (mediaItems s)))))
      as [Ht Hf].
    rewrite (trigger_of_current_render_dropped _ interval_fires Ht eq_refl eq_refl).
    exact Hf.
  - intros Hvideo.
    change (run s [interval_fires; video_ended])
      with (step (step s interval_fires) video_ended).
    assert (Hv : step s interval_fires
                 = transitionTo (render s)
                     (js_rem (currentIndex s + 1) (Z.of_nat (length (mediaItems s)))) s).
    { simpl. unfold on_interval, interval_running. simpl.
      by rewrite Hplay, Hltb, Htr, Hvideo. }
    rewrite Hv.
    destruct (Hstart (render s) Htr Hlen
                (js_rem (currentIndex s + 1) (Z.of_nat (length (mediaItems s)))))
      as [Ht Hf].
    rewrite (trigger_of_current_render_dropped _ video_ended Ht eq_refl eq_refl).
    exact Hf.
Qed.

(** C7 (where the code departs from it). The listener for the arrow keys is
    registered by an effect that runs again only when [mediaItems.length]
    changes, so ArrowRight calls the [goToNext] of the render in which the
    list was loaded: index 0, not transitioning. In [in_transition5] the
    cursor is at 1 and the advance to 2 is in flight. The "next" button is
    dropped there; ArrowRight is not: a second advance, to index 1, is
    queued behind the first, and once all timeouts have fired the cursor is
    at 1. *)
Theorem C7_arrow_key_not_debounced :
  isTransitioning in_transition5 = true
  /\ currentIndex in_transition5 = 1
  /\ in_flight in_transition5 = [2]
  /\ step in_transition5 click_next = in_transition5
  /\ in_flight (step in_transition5 key_ArrowRight) = [2; 1]
  /\ currentIndex (run in_transition5
                     [key_ArrowRight; timeout_fires 0; timeout_fires 0;
                      timeout_fires 0; timeout_fires 0]) = 1
  /\ currentIndex (run in_transition5
                     [click_next; timeout_fires 0; timeout_fires 0]) = 2.
Proof. repeat split; reflexivity. Qed.

End SlideshowFacts.

(** ** The schedule gate (electron/main.ts, src/App.tsx) *)

Section ScheduleFacts.

Import Schedule Scenarios.
Local Open Scope Z_scope.

(** C6 as stated fails: on Monday at 10 o'clock, with the slideshow on
    screen and the last check at [true], [checkSchedule] sends the stop
    message twice, not once. *)
Lemma C6_counterexample :
  (checkSchedule (Some monday_morning) 1 10 (main_vars showing)).2
    = [schedule_state_changed false; schedule_state_changed false]
  /\ length (checkSchedule (Some monday_morning) 1 10 (main_vars showing)).2 <> 1%nat.
Proof. split; [reflexivity|discriminate]. Qed.

(** C6, amended. When the gate reads false with the slideshow running and
    the last reading true, [checkSchedule] sends the stop message twice:
    once because the slideshow runs outside the schedule, once because the
    reading changed. The renderer leaves the slideshow, which is then no
    longer running, and a further false reading sends nothing. As long as
    the slideshow keeps running, every false reading sends a stop message,
    changed or not. *)
Theorem C6_stop_sent_twice_then_silent (s : ScheduleSettings) (day hour day' hour' : Z)
    (a : app)
    (Hwindow : mainWindow (main_vars a) = true)
    (Henabled : enabled s = true)
    (Hlast : lastScheduleState (main_vars a) = Some true)
    (Hrunning : isSlideshowRunning (main_vars a) = true)
    (Hroute : pathname a = slideshow)
    (Hgate : shouldPlay_at (timeGrid s) day hour = false)
    (Hgate' : shouldPlay_at (timeGrid s) day' hour' = false) :
  (tick (Some s) day hour a).2
    = [schedule_state_changed false; schedule_state_changed false]
  /\ pathname (tick (Some s) day hour a).1 = albums
  /\ isSlideshowRunning (main_vars (tick (Some s) day hour a).1) = false
  /\ lastScheduleState (main_vars (tick (Some s) day hour a).1) = Some false
  /\ (tick (Some s) day' hour' (tick (Some s) day hour a).1).2 = []
  /\ (checkSchedule (Some s) day' hour'
        {| mainWindow := true; lastScheduleState := Some false;
           isSlideshowRunning := true |}).2 = [schedule_state_changed false].
Proof.
  destruct a as [[w l r] p f n]. simpl in *. subst.
  unfold tick, checkSchedule. simpl. rewrite Henabled, Hgate, Hgate'. simpl.
  repeat split; try reflexivity.
Qed.

Lemma C6_stop_sent_twice_then_silent_witness :
  (tick (Some monday_morning) 1 10 showing).2
    = [schedule_state_changed false; schedule_state_changed false]
  /\ (tick (Some monday_morning) 1 11 (tick (Some monday_morning) 1 10 showing).1).2 = [].
Proof.
  destruct (C6_stop_sent_twice_then_silent monday_morning 1 10 1 11 showing
              eq_refl eq_refl eq_refl eq_refl eq_refl eq_refl eq_refl)
    as (Hsent & _ & _ & _ & Hsilent & _).
  split; [exact Hsent | exact Hsilent].
Defined.

End ScheduleFacts.

(** ** The retrying fetch (electron/services/photosApi.ts) *)

Section FetchFacts.

Import PhotosApi Scenarios.
Local Open Scope Z_scope.

Variable net : nat -> request -> outcome.

(** One round of the loop of [fetchWithRetry], by the outcome of the
    request. *)
Lemma attempts_round (u : url) (retries n i : nat) (w : world) :
  attempts net u retries (S n) i w
  = match net (length (issued w)) (request_of u w) with
    | Answered response =>
        if status response =? 429 then
          attempts net u retries n (S i) (slept (INITIAL_DELAY * 2 ^ Z.of_nat i) (sent u w))
        else if negb (ok response) && (500 <=? status response) then
          attempts net u retries n (S i) (slept (INITIAL_DELAY * 2 ^ Z.of_nat i) (sent u w))
        else (Ok response, sent u w)
    | Rejected cause =>
        if (i =? retries - 1)%nat then (Throw (FetchError cause), sent u w)
        else attempts net u retries n (S i) (slept (INITIAL_DELAY * 2 ^ Z.of_nat i) (sent u w))
    end.
Proof.
  simpl. unfold mbind, io_bind, fetch. simpl.
  destruct (net (length (issued w)) (request_of u w)) as [response|cause]; [|].
  - destruct (status response =? 429); [done|].
    by destruct (negb (ok response) && (500 <=? status response)).
  - by destruct (i =? retries - 1)%nat.
Qed.

(** The loop sends at most one request per round left, whatever the
    network does. *)
Lemma attempts_requests_bound (u : url) (retries n i : nat) (w : world) :
  (length (issued (attempts net u retries n i w).2) <= length (issued w) + n)%nat.
Proof.
  revert i w. induction n as [|n IH]; intros i w; [simpl; lia|].
  rewrite attempts_round.
  assert (Hs : forall d, (length (issued (attempts net u retries n (S i) (slept d (sent u w))).2)
                          <= length (issued w) + S n)%nat).
  { intros d. etrans; [apply IH|]. simpl. rewrite length_app. simpl. lia. }
  assert (H1 : (length (issued (sent u w)) <= length (issued w) + S n)%nat).
  { simpl. rewrite length_app. simpl. lia. }
  destruct (net (length (issued w)) (request_of u w)) as [response|cause].
  - destruct (status response =? 429); [apply Hs|].
    destruct (negb (ok response) && (500 <=? status response)); [apply Hs|done].
  - destruct (i =? retries - 1)%nat; [done|apply Hs].
Qed.

(** C4 as stated fails: with three answers 429 and then 200, the fetch
    gives up with 'Max retries exceeded' after three requests. The third
    rate-limited attempt is waited for (4000 ms) but not retried, and the
    answer 200 is never asked for. *)
Lemma C4_counterexample :
  fetchWithRetry (scripted [answer 429; answer 429; answer 429] (answer 200))
      a_url MAX_RETRIES (world_at 0)
  = (Throw MaxRetriesExceeded,
     {| clock := 7000;
        issued := replicate 3 (request_of a_url (world_at 0));
        waited := [1000; 2000; 4000];
        accessToken := None; mediaItems := [] |}).
Proof. reflexivity. Qed.

(** C4, amended. An attempt answered with 429 waits
    [INITIAL_DELAY * 2 ^ i] milliseconds, [i] being the number of the
    attempt from 0, and the loop goes on with attempt [i + 1] and one round
    fewer: the rate-limited attempt is one of the [retries] attempts. When
    it was the last one, the fetch fails with 'Max retries exceeded'. In
    all, at most one request per round is sent. *)
Theorem C4_rate_limited_attempt_is_counted (u : url) (retries n i : nat) (w : world)
    (r : Response)
    (Hanswer : net (length (issued w)) (request_of u w) = Answered r)
    (Hstatus : status r = 429) :
  attempts net u retries (S n) i w
    = attempts net u retries n (S i) (slept (INITIAL_DELAY * 2 ^ Z.of_nat i) (sent u w))
  /\ (n = O -> attempts net u retries (S n) i w
               = (Throw MaxRetriesExceeded,
                  slept (INITIAL_DELAY * 2 ^ Z.of_nat i) (sent u w)))
  /\ (length (issued (attempts net u retries (S n) i w).2) <= length (issued w) + S n)%nat.
Proof.
  assert (Hround : attempts net u retries (S n) i w
    = attempts net u retries n (S i) (slept (INITIAL_DELAY * 2 ^ Z.of_nat i) (sent u w))).
  { rewrite attempts_round, Hanswer, Hstatus. done. }
  split; [done|]. split; [|apply attempts_requests_bound].
  intros ->. by rewrite Hround.
Qed.

End FetchFacts.

Lemma C4_rate_limited_attempt_is_counted_witness :
  let net := Scenarios.scripted
               [Scenarios.answer 429; Scenarios.answer 429; Scenarios.answer 429]
               (Scenarios.answer 200) in
  let w2 := PhotosApi.slept 2000 (PhotosApi.sent Scenarios.a_url
              (PhotosApi.slept 1000 (PhotosApi.sent Scenarios.a_url (Scenarios.world_at 0)))) in
  PhotosApi.attempts net Scenarios.a_url 3 1 2 w2
  = (PhotosApi.Throw PhotosApi.MaxRetriesExceeded,
     PhotosApi.slept 4000 (PhotosApi.sent Scenarios.a_url w2)).
Proof.
  intros net w2.
  destruct (C4_rate_limited_attempt_is_counted net Scenarios.a_url 3 0 2 w2
              (PhotosApi.Build_Response 429 (Some (PhotosApi.Build_batchGetData None)))
              eq_refl eq_refl) as (_ & Hlast & _).
  exact (Hlast eq_refl).
Defined.

Section FetchResults.

Import PhotosApi Scenarios.
Local Open Scope Z_scope.

Variable net : nat -> request -> outcome.

(** When every attempt is rejected by the transport, the last rejection is
    what the fetch throws. *)
Lemma attempts_all_rejected (u : url) (retries n i : nat) (w : world)
    (cause : nat -> string) :
  (i + S n = retries)%nat ->
  (forall k, (k <= n)%nat ->
             net (length (issued w) + k)%nat (request_of u w) = Rejected (cause k)) ->
  (attempts net u retries (S n) i w).1 = Throw (FetchError (cause n))
  /\ length (issued (attempts net u retries (S n) i w).2) = (length (issued w) + S n)%nat.
Proof.
  revert i w cause. induction n as [|n IH]; intros i w cause Hi Hrej.
  - rewrite attempts_round. specialize (Hrej O (le_n _)). rewrite Nat.add_0_r in Hrej.
    rewrite Hrej. replace (i =? retries - 1)%nat with true
      by (symmetry; apply Nat.eqb_eq; lia).
    simpl. rewrite length_app. simpl. split; [done|lia].
  - rewrite attempts_round. pose proof (Hrej O ltac:(lia)) as H0.
    rewrite Nat.add_0_r in H0. rewrite H0.
    replace (i =? retries - 1)%nat with false
      by (symmetry; apply Nat.eqb_neq; lia).
    destruct (IH (S i) (slept (INITIAL_DELAY * 2 ^ Z.of_nat i) (sent u w))
                (fun k => cause (S k)) ltac:(lia)) as [Hres Hlen].
    { intros k Hk. simpl. rewrite length_app. simpl.
      replace (length (issued w) + 1 + k)%nat with (length (issued w) + S k)%nat by lia.
      apply (Hrej (S k)). lia. }
    split; [done|]. rewrite Hlen. simpl. rewrite length_app. simpl. lia.
Qed.

(** C5 as stated fails: the answer 404 is returned to the caller as the
    result of the fetch; nothing is thrown. *)
Lemma C5_counterexample :
  fetchWithRetry (scripted [] (answer 404)) a_url MAX_RETRIES (world_at 0)
  = (Ok {| status := 404; json := Some {| mediaItemResults := None |} |},
     sent a_url (world_at 0))
  /\ (forall e, (fetchWithRetry (scripted [] (answer 404)) a_url MAX_RETRIES (world_at 0)).1
                <> Throw e).
Proof. split; [reflexivity|discriminate]. Qed.

(** C5, amended. A response whose status is neither 429 nor 500 or above,
    whether 2xx or not (404 for one), is returned to the caller as it is,
    after that one request and without waiting. A transport failure at
    every one of the [retries] attempts makes the fetch throw the error of
    the last attempt. *)
Theorem C5_other_status_is_returned (u : url) (retries : nat) (w : world)
    (Hretries : (0 < retries)%nat) :
  (forall r, net (length (issued w)) (request_of u w) = Answered r ->
             status r <> 429 -> status r < 500 ->
             fetchWithRetry net u retries w = (Ok r, sent u w))
  /\ (forall cause : nat -> string,
        (forall k, (k < retries)%nat ->
           net (length (issued w) + k)%nat (request_of u w) = Rejected (cause k)) ->
        (fetchWithRetry net u retries w).1 = Throw (FetchError (cause (retries - 1)%nat))
        /\ length (issued (fetchWithRetry net u retries w).2)
           = (length (issued w) + retries)%nat).
Proof.
  unfold fetchWithRetry. destruct retries as [|n]; [lia|]. split.
  - intros r Hanswer H429 H500. rewrite attempts_round, Hanswer.
    replace (status r =? 429) with false by (symmetry; apply Z.eqb_neq; lia).
    replace (500 <=? status r) with false by (symmetry; apply Z.leb_gt; lia).
    by rewrite andb_false_r.
  - intros cause Hrej. replace (S n - 1)%nat with n by lia.
    apply attempts_all_rejected; [lia|]. intros k Hk. apply Hrej. lia.
Qed.

End FetchResults.

Lemma C5_other_status_is_returned_witness :
  PhotosApi.fetchWithRetry (Scenarios.scripted [] (Scenarios.answer 404))
    Scenarios.a_url 3 (Scenarios.world_at 0)
  = (PhotosApi.Ok (PhotosApi.Build_Response 404 (Some (PhotosApi.Build_batchGetData None))),
     PhotosApi.sent Scenarios.a_url (Scenarios.world_at 0))
  /\ (PhotosApi.fetchWithRetry (Scenarios.scripted [] (PhotosApi.Rejected "ECONNRESET"))
        Scenarios.a_url 3 (Scenarios.world_at 0)).1
     = PhotosApi.Throw (PhotosApi.FetchError "ECONNRESET").
Proof.
  split.
  - destruct (C5_other_status_is_returned (Scenarios.scripted [] (Scenarios.answer 404))
                Scenarios.a_url 3 (Scenarios.world_at 0) ltac:(lia)) as [Hret _].
    apply Hret; [reflexivity|discriminate|reflexivity].
  - destruct (C5_other_status_is_returned
                (Scenarios.scripted [] (PhotosApi.Rejected "ECONNRESET"))
                Scenarios.a_url 3 (Scenarios.world_at 0) ltac:(lia)) as [_ Hthrow].
    destruct (Hthrow (fun _ => "ECONNRESET")) as [Hres _]; [|exact Hres].
    intros k _. unfold Scenarios.scripted. by destruct k as [|[|[|k]]].
Defined.

(** ** Refreshing the locators (photosApi.ts, main.ts, Slideshow.tsx) *)

Section RefreshFacts.

Import PhotosApi Scenarios.
Local Open Scope Z_scope.

Variable net : nat -> request -> outcome.

(** Neither the token nor the store change during a fetch, and the log of
    requests only grows. *)
Lemma attempts_frame (u : url) (retries n i : nat) (w : world) :
  accessToken (attempts net u retries n i w).2 = accessToken w
  /\ mediaItems (attempts net u retries n i w).2 = mediaItems w
  /\ exists more, issued (attempts net u retries n i w).2 = issued w ++ more.
Proof.
  revert i w. induction n as [|n IH]; intros i w.
  - simpl. repeat split. exists []. by rewrite app_nil_r.
  - rewrite attempts_round.
    assert (Hs : forall d,
      accessToken (attempts net u retries n (S i) (slept d (sent u w))).2 = accessToken w
      /\ mediaItems (attempts net u retries n (S i) (slept d (sent u w))).2 = mediaItems w
      /\ exists more, issued (attempts net u retries n (S i) (slept d (sent u w))).2
                      = issued w ++ more).
    { intros d. destruct (IH (S i) (slept d (sent u w))) as (Ht & Hm & more & Hl).
      repeat split; [done|done|]. exists (request_of u w :: more).
      rewrite Hl. simpl. by rewrite <- app_assoc. }
    assert (H1 : accessToken (sent u w) = accessToken w
      /\ mediaItems (sent u w) = mediaItems w
      /\ exists more, issued (sent u w) = issued w ++ more).
    { repeat split. by exists [request_of u w]. }
    destruct (net (length (issued w)) (request_of u w)) as [response|cause].
    + destruct (status response =? 429); [apply Hs|].
      destruct (negb (ok response) && (500 <=? status response)); [apply Hs|done].
    + destruct (i =? retries - 1)%nat; [done|apply Hs].
Qed.

(** The first request of a fetch with at least one attempt is the request
    for its URL. *)
Lemma attempts_first_request (u : url) (retries n i : nat) (w : world) :
  exists more, issued (attempts net u retries (S n) i w).2
               = issued w ++ request_of u w :: more.
Proof.
  rewrite attempts_round.
  assert (Hs : forall d, exists more,
    issued (attempts net u retries n (S i) (slept d (sent u w))).2
    = issued w ++ request_of u w :: more).
  { intros d. destruct (attempts_frame u retries n (S i) (slept d (sent u w)))
      as (_ & _ & more & Hl).
    exists more. rewrite Hl. simpl. by rewrite <- app_assoc. }
  assert (H1 : exists more, issued (sent u w) = issued w ++ request_of u w :: more).
  { by exists []. }
  destruct (net (length (issued w)) (request_of u w)) as [response|cause].
  - destruct (status response =? 429); [apply Hs|].
    destruct (negb (ok response) && (500 <=? status response)); [apply Hs|done].
  - destruct (i =? retries - 1)%nat; [done|apply Hs].
Qed.

(** One round of the loop over the batches. *)
Lemma batches_round (mediaItemIds : list string) (fuel i : nat)
    (urlMap : gmap string string) (w : world) :
  (i < length mediaItemIds)%nat ->
  batches net mediaItemIds (S fuel) i urlMap w
  = match fetchWithRetry net (batchGet (take 50 (drop i mediaItemIds))) MAX_RETRIES w with
    | (Ok response, w1) =>
        match json response with
        | Some data =>
            batches net mediaItemIds fuel (i + 50)
              (match mediaItemResults data with
               | Some results => collect urlMap results
               | None => urlMap
               end) w1
        | None => (Throw JsonError, w1)
        end
    | (Throw e, w1) => (Throw e, w1)
    end.
Proof.
  intros Hi. simpl. apply Nat.ltb_lt in Hi. rewrite Hi.
  unfold mbind, io_bind.
  destruct (fetchWithRetry net _ MAX_RETRIES w) as [[response|e] w1]; [|done].
  unfold response_json. by destruct (json response).
Qed.

Lemma batches_done (mediaItemIds : list string) (fuel i : nat)
    (urlMap : gmap string string) (w : world) :
  (length mediaItemIds <= i)%nat ->
  batches net mediaItemIds fuel i urlMap w = (Ok urlMap, w).
Proof.
  intros Hi. destruct fuel as [|fuel]; [done|]. simpl.
  apply Nat.ltb_ge in Hi. by rewrite Hi.
Qed.

(** The loop over the batches ends by its own test: any fuel of at least
    [mediaItemIds.length - i] rounds gives the same result. *)
Lemma batches_fuel (mediaItemIds : list string) (fuel fuel' i : nat)
    (urlMap : gmap string string) (w : world) :
  (length mediaItemIds <= i + fuel)%nat -> (length mediaItemIds <= i + fuel')%nat ->
  batches net mediaItemIds fuel i urlMap w = batches net mediaItemIds fuel' i urlMap w.
Proof.
  revert fuel' i urlMap w. induction fuel as [|fuel IH]; intros fuel' i urlMap w H1 H2.
  - rewrite !batches_done by lia. done.
  - destruct (decide (i < length mediaItemIds)%nat) as [Hi|Hi].
    + destruct fuel' as [|fuel']; [lia|]. rewrite !batches_round by done.
      destruct (fetchWithRetry net _ MAX_RETRIES w) as [[response|e] w1]; [|done].
      destruct (json response) as [data|]; [|done]. apply IH; lia.
    + rewrite !batches_done by lia. done.
Qed.

Lemma batches_frame (mediaItemIds : list string) (fuel i : nat)
    (urlMap : gmap string string) (w : world) :
  accessToken (batches net mediaItemIds fuel i urlMap w).2 = accessToken w
  /\ mediaItems (batches net mediaItemIds fuel i urlMap w).2 = mediaItems w
  /\ exists more, issued (batches net mediaItemIds fuel i urlMap w).2 = issued w ++ more.
Proof.
  revert i urlMap w. induction fuel as [|fuel IH]; intros i urlMap w.
  - simpl. repeat split. exists []. by rewrite app_nil_r.
  - destruct (decide (i < length mediaItemIds)%nat) as [Hi|Hi].
    + rewrite batches_round by done.
      pose proof (attempts_frame (batchGet (take 50 (drop i mediaItemIds)))
                    MAX_RETRIES MAX_RETRIES 0 w) as (Ht & Hm & more & Hl).
      fold (fetchWithRetry net (batchGet (take 50 (drop i mediaItemIds))) MAX_RETRIES) in *.
      destruct (fetchWithRetry net _ MAX_RETRIES w) as [[response|e] w1]; simpl in *.
      * destruct (json response) as [data|]; simpl.
        -- destruct (IH (i + 50)%nat
               (match mediaItemResults data with
                | Some results => collect urlMap results
                | None => urlMap
                end) w1) as (Ht' & Hm' & more' & Hl').
           rewrite Ht', Hm', Hl', Ht, Hm, Hl. repeat split.
           exists (more ++ more'). by rewrite app_assoc.
        -- repeat split; [done|done|]. by exists more.
      * repeat split; [done|done|]. by exists more.
    + rewrite batches_done by lia. repeat split. exists []. by rewrite app_nil_r.
Qed.

(** When [refreshBaseUrls] of the service throws, the store is as it was. *)
Lemma refreshBaseUrls_throw_store (mediaItemIds : list string) (w w' : world) (e : error) :
  refreshBaseUrls net mediaItemIds w = (Throw e, w') ->
  mediaItems w' = mediaItems w.
Proof.
  unfold refreshBaseUrls, mbind, io_bind.
  pose proof (batches_frame mediaItemIds (length mediaItemIds) 0 ∅ w) as (_ & Hm & _).
  destruct (batches net mediaItemIds (length mediaItemIds) 0 ∅ w) as [[urlMap|e'] w1];
    simpl in *; [discriminate|].
  intros [= _ <-]. done.
Qed.

End RefreshFacts.

Section RefreshCycle.

Import PhotosApi Scenarios.
Local Open Scope Z_scope.

Variable net : nat -> request -> outcome.

(** A first answer that is not retried ends the fetch at once. *)
Lemma fetchWithRetry_first_answer (u : url) (n : nat) (w : world) (r : Response) :
  net (length (issued w)) (request_of u w) = Answered r ->
  status r <> 429 -> status r < 500 ->
  fetchWithRetry net u (S n) w = (Ok r, sent u w).
Proof.
  intros Hanswer H429 H500. unfold fetchWithRetry. rewrite attempts_round, Hanswer.
  replace (status r =? 429) with false by (symmetry; apply Z.eqb_neq; lia).
  replace (500 <=? status r) with false by (symmetry; apply Z.leb_gt; lia).
  by rewrite andb_false_r.
Qed.

(** The world after the IPC handler ran with a token is the world after the
    service ran with that token set. *)
Lemma handle_refresh_urls_world (token : string) (mediaItemIds : list string) (w : world) :
  (handle_refresh_urls net (Some token) mediaItemIds w).2
  = (refreshBaseUrls net mediaItemIds (setAccessToken token w).2).2.
Proof.
  unfold handle_refresh_urls, mbind, io_bind. simpl.
  by destruct (refreshBaseUrls net mediaItemIds _) as [[urlMap|e] w'].
Qed.

Lemma refreshBaseUrls_issued (mediaItemIds : list string) (w : world) :
  issued (refreshBaseUrls net mediaItemIds w).2
  = issued (batches net mediaItemIds (length mediaItemIds) 0 ∅ w).2.
Proof.
  unfold refreshBaseUrls, mbind, io_bind.
  by destruct (batches net mediaItemIds (length mediaItemIds) 0 ∅ w) as [[urlMap|e] w1].
Qed.

Lemma slideshow_refresh_world (token : string) (items : list Slideshow.MediaItem)
    (s : Slideshow.state) (w : world) :
  (Slideshow.refreshBaseUrls net (Some token) items s w).2
  = (handle_refresh_urls net (Some token) (Slideshow.id <$> items) w).2.
Proof.
  unfold Slideshow.refreshBaseUrls.
  destruct (handle_refresh_urls net (Some token) (Slideshow.id <$> items) w)
    as [[[] [urlMap|]] w']; done.
Qed.

(** C2 as stated fails: the locator of "p1" was issued at time 0 and the
    refresh runs at minute 49, when [isBaseUrlExpired] is still false; the
    batchGet request for "p1" is sent all the same, and the item gets the
    new locator and a new time stamp. *)
Lemma C2_counterexample :
  isBaseUrlExpired (minutes 49) 0 = false
  /\ issued (Slideshow.refreshBaseUrls (scripted [] answer_p1) (Some "token")
               [item_p1] showing_p1 (world_at (minutes 49))).2
     = [{| req_url := batchGet ["p1"]; bearer := Some "token" |}]
  /\ Slideshow.mediaItems
       (Slideshow.refreshBaseUrls (scripted [] answer_p1) (Some "token")
          [item_p1] showing_p1 (world_at (minutes 49))).1
     = [Slideshow.Build_MediaItem "p1" "https://lh3/p1-new" "image/jpeg" "p1.jpg" 10
          "picker-selected" (minutes 49)].
Proof. repeat split; vm_compute; reflexivity. Qed.

(** C2, amended. The refresh does not look at the age of a locator. Called
    with a token and a non-empty list, it always asks for the ids of all
    items, the first 50 in the first request. When the handler answers with
    success, every item of the state is stamped with the time at which the
    call finished, reissued or not. With at most 50 items and a first
    answer that is not retried, exactly one request is sent. *)
Theorem C2_refresh_ignores_age (token : string) (items : list Slideshow.MediaItem)
    (s : Slideshow.state) (w : world) (Hitems : items <> []) :
  let ids := Slideshow.id <$> items in
  let after := Slideshow.refreshBaseUrls net (Some token) items s w in
  (exists more, issued after.2
                = issued w ++ {| req_url := batchGet (take 50 ids); bearer := Some token |}
                              :: more)
  /\ (success (handle_refresh_urls net (Some token) ids w).1 = true ->
      Forall (fun item => Slideshow.cachedAt item = clock after.2)
             (Slideshow.mediaItems after.1))
  /\ (forall r, (length items <= 50)%nat ->
        net (length (issued w)) {| req_url := batchGet ids; bearer := Some token |}
          = Answered r ->
        status r <> 429 -> status r < 500 ->
        issued after.2 = issued w ++ [{| req_url := batchGet ids; bearer := Some token |}]).
Proof.
  intros ids after. subst after.
  assert (Hlen : (0 < length ids)%nat).
  { subst ids. rewrite length_fmap. destruct items; [done|simpl; lia]. }
  split; [|split].
  - rewrite slideshow_refresh_world, handle_refresh_urls_world, refreshBaseUrls_issued.
    fold ids. destruct (length ids) as [|fuel] eqn:Hfuel; [lia|].
    rewrite batches_round by lia. rewrite drop_0.
    destruct (attempts_first_request net (batchGet (take 50 ids)) MAX_RETRIES 2 0
                (setAccessToken token w).2) as (more & Hfirst).
    change (attempts net (batchGet (take 50 ids)) MAX_RETRIES 3 0)
      with (fetchWithRetry net (batchGet (take 50 ids)) MAX_RETRIES) in Hfirst.
    destruct (fetchWithRetry net (batchGet (take 50 ids)) MAX_RETRIES
                (setAccessToken token w).2) as [[response|e] w1]; simpl in Hfirst.
    + destruct (json response) as [data|]; [|by exists more].
      destruct (batches_frame net ids fuel (0 + 50)
                  (match mediaItemResults data with
                   | Some results => collect ∅ results
                   | None => ∅
                   end) w1) as (_ & _ & more' & Hl).
      rewrite Hl, Hfirst. exists (more ++ more'). by rewrite <- app_assoc.
    + by exists more.
  - unfold Slideshow.refreshBaseUrls. fold ids.
    destruct (handle_refresh_urls net (Some token) ids w) as [[ok urls] w'] eqn:Hh.
    simpl. intros ->. destruct urls as [urls|].
    + simpl. apply Forall_fmap, Forall_forall. by intros item _.
    + exfalso. unfold handle_refresh_urls in Hh.
      destruct ((setAccessToken token;; refreshBaseUrls net ids) w) as [[urlMap|e] w2];
        discriminate Hh.
  - intros r Hone Hanswer H429 H500.
    rewrite slideshow_refresh_world, handle_refresh_urls_world, refreshBaseUrls_issued.
    fold ids. assert (Hids : (length ids <= 50)%nat) by (subst ids; by rewrite length_fmap).
    destruct (length ids) as [|fuel] eqn:Hfuel; [lia|].
    rewrite batches_round by lia. rewrite drop_0, take_ge by lia.
    change MAX_RETRIES with 3%nat.
    rewrite (fetchWithRetry_first_answer (batchGet ids) 2 _ r); [|exact Hanswer|done|done].
    destruct (json r) as [data|]; [|done].
    rewrite batches_done by lia. done.
Qed.

(** C3 as stated fails: 51 ids make two batches; when the requests of the
    first batch are rejected by the transport, the cycle ends with that
    error after the three attempts for the first batch, and no request is
    ever sent for the second batch (the id "id50"). *)
Lemma C3_counterexample :
  (refreshBaseUrls (scripted [] (Rejected "ENETDOWN")) ids51 (world_with_token 0)).1
    = Throw (FetchError "ENETDOWN")
  /\ issued (refreshBaseUrls (scripted [] (Rejected "ENETDOWN")) ids51
               (world_with_token 0)).2
     = replicate 3 {| req_url := batchGet (take 50 ids51); bearer := Some "token" |}
  /\ Forall (fun rq => ("mediaItemIds", "id50") ∉ params (req_url rq))
       (issued (refreshBaseUrls (scripted [] (Rejected "ENETDOWN")) ids51
                  (world_with_token 0)).2).
Proof.
  split; [vm_compute; reflexivity|]. split; [vm_compute; reflexivity|].
  apply (bool_decide_unpack _). vm_compute. exact I.
Qed.

(** C3, amended. When the fetch for a batch throws (a transport failure at
    the last attempt, or 429 or 5xx at every attempt), the loop over the
    batches ends there with that error: nothing is requested afterwards.
    A cycle that throws leaves the store and the items of the slideshow as
    they were, so every item keeps its previous locator, those of batches
    answered before included. A batch whose answer is returned without
    [mediaItemResults] (an error answer such as 404) adds nothing and the
    loop goes on with the next batch. *)
Theorem C3_failed_batch_ends_cycle (mediaItemIds : list string) (fuel i : nat)
    (urlMap : gmap string string) (w w1 : world) (e : error)
    (Hi : (i < length mediaItemIds)%nat)
    (Hfail : fetchWithRetry net (batchGet (take 50 (drop i mediaItemIds))) MAX_RETRIES w
             = (Throw e, w1)) :
  batches net mediaItemIds (S fuel) i urlMap w = (Throw e, w1)
  /\ (forall token items s w0 e' w',
        (setAccessToken token;; refreshBaseUrls net (Slideshow.id <$> items)) w0
          = (Throw e', w') ->
        mediaItems w' = mediaItems w0
        /\ (Slideshow.refreshBaseUrls net (Some token) items s w0).1 = s)
  /\ (forall w2 response w3,
        fetchWithRetry net (batchGet (take 50 (drop i mediaItemIds))) MAX_RETRIES w2
          = (Ok response, w3) ->
        json response = Some {| mediaItemResults := None |} ->
        batches net mediaItemIds (S fuel) i urlMap w2
        = batches net mediaItemIds fuel (i + 50) urlMap w3).
Proof.
  split; [|split].
  - rewrite batches_round by done. by rewrite Hfail.
  - intros token items s w0 e' w' Hthrow. split.
    + unfold mbind, io_bind in Hthrow. simpl in Hthrow.
      by apply (refreshBaseUrls_throw_store net) in Hthrow.
    + unfold Slideshow.refreshBaseUrls, handle_refresh_urls. by rewrite Hthrow.
  - intros w2 response w3 Hok Hjson. rewrite batches_round by done.
    by rewrite Hok, Hjson.
Qed.

End RefreshCycle.

Lemma C2_refresh_ignores_age_witness :
  PhotosApi.issued (Slideshow.refreshBaseUrls (Scenarios.scripted [] Scenarios.answer_p1)
            (Some "token") [Scenarios.item_p1] Scenarios.showing_p1
            (Scenarios.world_at (Scenarios.minutes 51))).2
  = [PhotosApi.Build_request (PhotosApi.batchGet ["p1"]) (Some "token")].
Proof.
  destruct (C2_refresh_ignores_age (Scenarios.scripted [] Scenarios.answer_p1)
              "token" [Scenarios.item_p1] Scenarios.showing_p1
              (Scenarios.world_at (Scenarios.minutes 51)) ltac:(discriminate))
    as (_ & _ & Hone).
  apply (Hone (PhotosApi.Build_Response 200
    (Some (PhotosApi.Build_batchGetData
       (Some [PhotosApi.Build_mediaItemResult (Some ("p1", "https://lh3/p1-new"))]))))).
  - simpl. lia.
  - reflexivity.
  - discriminate.
  - reflexivity.
Defined.

Lemma C3_failed_batch_ends_cycle_witness :
  PhotosApi.batches (Scenarios.scripted [] (PhotosApi.Rejected "ENETDOWN"))
    Scenarios.ids51 51 0 ∅ (Scenarios.world_with_token 0)
  = (PhotosApi.Throw (PhotosApi.FetchError "ENETDOWN"),
     PhotosApi.sent (PhotosApi.batchGet (take 50 Scenarios.ids51))
       (PhotosApi.slept 2000 (PhotosApi.sent (PhotosApi.batchGet (take 50 Scenarios.ids51))
         (PhotosApi.slept 1000 (PhotosApi.sent (PhotosApi.batchGet (take 50 Scenarios.ids51))
           (Scenarios.world_with_token 0)))))).
Proof.
  refine (proj1 (C3_failed_batch_ends_cycle
            (Scenarios.scripted [] (PhotosApi.Rejected "ENETDOWN"))
            Scenarios.ids51 50 0 ∅ (Scenarios.world_with_token 0) _
            (PhotosApi.FetchError "ENETDOWN") _ _)).
  - vm_compute. lia.
  - reflexivity.
Defined.

(** ** The image cache (electron/services/photosApi.ts) *)

Section CacheFacts.

Import PhotosApi Scenarios.









Variable MAX_CACHE_SIZE : N.





(** The clean-up runs at the next download: caching E finds 1200 bytes,
    unlinks A and B, the two oldest, and leaves C, D and E. *)
Lemma cache_scenario_fifth_put :
  diskSize (put "E" 5 after_ABCD) = 900%N
  /\ put "E" 5 after_ABCD !! "A.jpeg" = None
  /\ put "E" 5 after_ABCD !! "B.jpeg" = None
  /\ put "E" 5 after_ABCD !! "C.jpeg" = Some {| size := 300; mtimeMs := 3 |}
  /\ put "E" 5 after_ABCD !! "D.jpeg" = Some {| size := 300; mtimeMs := 4 |}
  /\ put "E" 5 after_ABCD !! "E.jpeg" = Some {| size := 300; mtimeMs := 5 |}.
Proof. repeat split; vm_compute; reflexivity. Qed.


End CacheFacts.


(** * Further properties of the code *)

(** ** Ordering the sequence (src/pages/Slideshow.tsx, [loadMediaItems]) *)

Section SortFacts.

Import Slideshow.
Local Open Scope Z_scope.

Lemma insert_sorted_Permutation {A} (le : A -> A -> bool) (x : A) (l : list A) :
  insert_sorted le x l ≡ₚ x :: l.
Proof.
  induction l as [|y l IH]; simpl; [done|].
  destruct (le x y); [done|]. rewrite IH. apply Permutation_swap.
Qed.

Lemma stable_sort_Permutation {A} (le : A -> A -> bool) (l : list A) :
  stable_sort le l ≡ₚ l.
Proof.
  induction l as [|x l IH]; simpl; [done|].
  rewrite insert_sorted_Permutation. by rewrite IH.
Qed.

Lemma insert_random_Permutation {A} (rnd : nat -> bool) (k : nat) (x : A) (l : list A) :
  (insert_random rnd k x l).1 ≡ₚ x :: l.
Proof.
  revert k. induction l as [|y l IH]; intros k; simpl; [done|].
  destruct (rnd k); simpl; [done|].
  specialize (IH (S k)). destruct (insert_random rnd (S k) x l) as [r k'].
  simpl in *. rewrite IH. apply Permutation_swap.
Qed.

Lemma shuffle_Permutation {A} (rnd : nat -> bool) (l : list A) :
  (shuffle rnd l).1 ≡ₚ l.
Proof.
  induction l as [|x l IH]; simpl; [done|].
  destruct (shuffle rnd l) as [r k]. simpl in IH.
  rewrite insert_random_Permutation. by rewrite IH.
Qed.

(** X1. Whatever the order setting and the random numbers, the sequence
    shown is a rearrangement of the stored items: no item is lost and none
    is shown twice. *)
Theorem sortItems_rearranges (order : option PhotoOrder) (rnd : nat -> bool)
    (allMediaItems : list MediaItem) :
  sortItems order rnd allMediaItems ≡ₚ allMediaItems.
Proof.
  destruct order as [[]|]; simpl;
    auto using stable_sort_Permutation, shuffle_Permutation.
Qed.

Lemma insert_sorted_sorted {A} (le : A -> A -> bool) (R : relation A)
    (Hle : forall a b, le a b = true -> R a b)
    (Hgt : forall a b, le a b = false -> R b a)
    (Htrans : Transitive R) (x : A) (l : list A) :
  StronglySorted R l -> StronglySorted R (insert_sorted le x l).
Proof.
  induction 1 as [|y l Hsorted IH Hy]; simpl; [repeat constructor|].
  destruct (le x y) eqn:Hxy.
  - constructor; [by constructor|]. constructor; [by apply Hle|].
    eapply Forall_impl; [exact Hy|]. intros z Hz. etrans; [by apply Hle|done].
  - constructor; [done|]. rewrite insert_sorted_Permutation.
    constructor; [by apply Hgt|done].
Qed.

Lemma stable_sort_sorted {A} (le : A -> A -> bool) (R : relation A)
    (Hle : forall a b, le a b = true -> R a b)
    (Hgt : forall a b, le a b = false -> R b a)
    (Htrans : Transitive R) (l : list A) :
  StronglySorted R (stable_sort le l).
Proof.
  induction l as [|x l IH]; simpl; [constructor|].
  by apply (insert_sorted_sorted le R).
Qed.

(** X2. With the order "latest" every item is followed only by items
    created at the same time or earlier, with "oldest" only by items
    created at the same time or later. *)
Theorem sortItems_by_creation_time (rnd : nat -> bool) (allMediaItems : list MediaItem) :
  StronglySorted (fun a b => creationTime b <= creationTime a)
    (sortItems (Some latest) rnd allMediaItems)
  /\ StronglySorted (fun a b => creationTime a <= creationTime b)
       (sortItems (Some oldest) rnd allMediaItems).
Proof.
  split; simpl.
  - apply (stable_sort_sorted _ (fun a b => creationTime b <= creationTime a)).
    + intros a b. apply Z.leb_le.
    + intros a b Hab. apply Z.leb_gt in Hab. lia.
    + intros a b c. lia.
  - apply (stable_sort_sorted _ (fun a b => creationTime a <= creationTime b)).
    + intros a b. apply Z.leb_le.
    + intros a b Hab. apply Z.leb_gt in Hab. lia.
    + intros a b c. lia.
Qed.

Lemma filter_insert_sorted {A} (le : A -> A -> bool) (P : A -> Prop)
    `{!forall x, Decision (P x)} (x : A) (l : list A) :
  (forall y, P x -> P y -> le x y = true) ->
  filter P (insert_sorted le x l) = filter P (x :: l).
Proof.
  intros Hsame. induction l as [|y l IH]; simpl; [done|].
  destruct (le x y) eqn:Hxy; [done|].
  rewrite (filter_cons _ y), IH, !(filter_cons _ x), (filter_cons _ y).
  destruct (decide (P x)) as [Hx|Hx]; [|done].
  destruct (decide (P y)) as [Hy|Hy]; [|done].
  rewrite (Hsame y Hx Hy) in Hxy. discriminate.
Qed.

Lemma filter_stable_sort {A} (le : A -> A -> bool) (P : A -> Prop)
    `{!forall x, Decision (P x)} (l : list A) :
  (forall x y, P x -> P y -> le x y = true) ->
  filter P (stable_sort le l) = filter P l.
Proof.
  intros Hsame. induction l as [|x l IH]; simpl; [done|].
  rewrite filter_insert_sorted by (intros y; apply Hsame).
  rewrite !(filter_cons _ x). destruct (decide (P x)); by rewrite IH.
Qed.

(** X3. Sorting by creation time is stable: the items created at one and
    the same time come out in the order in which they were stored. *)
Theorem sortItems_stable (order : PhotoOrder) (rnd : nat -> bool)
    (allMediaItems : list MediaItem) (t : Z) (Horder : order <> random) :
  filter (fun item => creationTime item = t) (sortItems (Some order) rnd allMediaItems)
  = filter (fun item => creationTime item = t) allMediaItems.
Proof.
  destruct order; simpl; [..|done].
  - apply filter_stable_sort. intros x y -> ->. apply Z.leb_refl.
  - apply filter_stable_sort. intros x y -> ->. apply Z.leb_refl.
Qed.

End SortFacts.

Lemma sortItems_stable_witness :
  filter (fun item => Slideshow.creationTime item = 30%Z)
    (Slideshow.sortItems (Some Slideshow.latest) (fun _ => true) Scenarios.items5)
  = [Scenarios.photo "p3" 30].
Proof.
  rewrite (sortItems_stable Slideshow.latest (fun _ => true) Scenarios.items5 30%Z
             ltac:(discriminate)).
  reflexivity.
Defined.

(** ** The cursor (src/pages/Slideshow.tsx) *)

Section CursorFacts.

Import Slideshow Scenarios.
Local Open Scope Z_scope.

Lemma well_formed_transitionTo (L : nat) (c : closure) (newIndex : Z) (s : state) :
  well_formed L s -> 0 <= newIndex < Z.of_nat L ->
  0 <= c_currentIndex c < Z.of_nat L ->
  well_formed L (transitionTo c newIndex s).
Proof.
  intros (Hrange & Hprev & Hklen & Hkidx) Hnew Hc.
  split; [by apply in_range_transitionTo|].
  unfold transitionTo. by destruct (c_isTransitioning c || (c_length c =? 0)%nat).
Qed.

Lemma well_formed_fire (L : nat) (k : nat) (s : state) :
  well_formed L s -> well_formed L (fire k s).
Proof.
  intros (Hrange & Hprev & Hklen & Hkidx).
  split; [by apply in_range_fire|].
  unfold fire. by destruct (timeouts s !! k) as [[newIndex d|]|].
Qed.

(** Every event, the arrow keys included, keeps the state well formed. *)
Lemma well_formed_step (L : nat) (s : state) (e : event) :
  well_formed L s -> well_formed L (step s e).
Proof.
  intros Hwf. pose proof Hwf as ((Hlen & Hi & _) & _ & Hklen & Hkidx).
  assert (Hnext : (0 < L)%nat ->
    0 <= js_rem (currentIndex s + 1) (Z.of_nat (length (mediaItems s))) < Z.of_nat L).
  { intros HL. rewrite Hlen. apply js_rem_range; lia. }
  assert (HL : (0 < L)%nat) by lia.
  destruct e; simpl.
  - unfold on_interval. destruct (interval_running (render s)); [|done].
    apply well_formed_transitionTo; auto.
  - unfold handleVideoEnd. destruct (c_isPlaying (render s) && _); [|done].
    apply well_formed_transitionTo; auto.
  - unfold handleLoadTimeout. destruct (0 <? c_length (render s))%nat; [|done].
    apply well_formed_transitionTo; auto.
  - unfold goToNext. apply well_formed_transitionTo; auto.
  - unfold goToPrevious. apply well_formed_transitionTo; auto.
    simpl. rewrite Hlen. apply js_rem_range; lia.
  - done.
  - unfold goToNext. apply well_formed_transitionTo; auto.
    rewrite Hklen. apply js_rem_range; lia.
  - unfold goToPrevious. apply well_formed_transitionTo; auto.
    rewrite Hklen. apply js_rem_range; lia.
  - done.
  - done.
  - by apply well_formed_fire.
Qed.

Lemma well_formed_run (L : nat) (es : list event) (s : state) :
  well_formed L s -> well_formed L (run s es).
Proof.
  revert s. induction es as [|e es IH]; intros s Hwf; [done|].
  simpl. apply IH. by apply well_formed_step.
Qed.

Lemma well_formed_loaded (order : option PhotoOrder) (rnd : nat -> bool)
    (effect : TransitionEffect) (stored : list MediaItem) :
  stored <> [] ->
  well_formed (length stored) (loadMediaItems (Some stored) order rnd (mount effect)).
Proof.
  intros Hne. unfold loadMediaItems.
  destruct stored as [|item rest]; [done|].
  pose proof (length_sortItems order rnd (item :: rest)) as Hlen.
  destruct (decide (length (sortItems order rnd (item :: rest))
                    = length (mediaItems (mount effect)))) as [Heq|_].
  { rewrite Hlen in Heq. simpl in Heq. lia. }
  unfold well_formed, in_range, in_flight. simpl.
  rewrite Hlen. simpl. repeat split; try done; try lia.
Qed.

(** X4. Once a non-empty list has been loaded, in any order, the cursor
    stays inside the sequence whatever happens afterwards (interval, end of
    video, load timeout, buttons, keys, timeouts, in any number and order):
    there is always a current item, and the previous index and every
    pending index change are inside the sequence as well. *)
Theorem cursor_stays_in_sequence (order : option PhotoOrder) (rnd : nat -> bool)
    (effect : TransitionEffect) (stored : list MediaItem) (es : list event)
    (Hstored : stored <> []) :
  let s := run (loadMediaItems (Some stored) order rnd (mount effect)) es in
  well_formed (length stored) s
  /\ mediaItems s = sortItems order rnd stored
  /\ is_Some (item_at (mediaItems s) (currentIndex s)).
Proof.
  intros s.
  assert (Hwf : well_formed (length stored) s).
  { apply well_formed_run. by apply well_formed_loaded. }
  assert (Hitems : forall es' s', mediaItems (run s' es') = mediaItems s').
  { clear. induction es' as [|e es' IH]; intros s'; [done|]. simpl. rewrite IH.
    destruct e; simpl; try done;
      unfold on_interval, handleVideoEnd, handleLoadTimeout, goToNext, goToPrevious,
             transitionTo, fire;
      repeat match goal with
             | |- context [if ?b then _ else _] => destruct b
             | |- context [match ?x with _ => _ end] => destruct x
             end; done. }
  split; [done|]. split.
  - subst s. rewrite Hitems. unfold loadMediaItems.
    destruct stored as [|item stored']; [done|].
    by destruct (decide _).
  - destruct Hwf as ((Hlen & Hi & _) & _). unfold item_at.
    replace (currentIndex s <? 0) with false by (symmetry; apply Z.ltb_ge; lia).
    apply lookup_lt_is_Some. lia.
Qed.

Lemma cursor_stays_in_sequence_witness :
  is_Some (item_at
    (mediaItems (run loaded5 [key_ArrowLeft; interval_fires; key_ArrowRight;
                              timeout_fires 1; timeout_fires 0]))
    (currentIndex (run loaded5 [key_ArrowLeft; interval_fires; key_ArrowRight;
                                timeout_fires 1; timeout_fires 0]))).
Proof.
  exact (proj2 (proj2 (cursor_stays_in_sequence (Some latest) (fun _ => true) fade items5
           [key_ArrowLeft; interval_fires; key_ArrowRight; timeout_fires 1; timeout_fires 0]
           ltac:(discriminate)))).
Defined.

Lemma click_previous_completes (s : state) :
  settled s -> mediaItems s <> [] ->
  run s (completed click_previous)
  = arrived (js_rem (currentIndex s - 1 + Z.of_nat (length (mediaItems s)))
                    (Z.of_nat (length (mediaItems s)))) s.
Proof. intros Hs Hne. by apply transitionTo_completes. Qed.

Lemma arrived_arrived (i j : Z) (s : state) : arrived i (arrived j s) = arrived i s.
Proof. done. Qed.

(** X5. With the on-screen buttons "previous" undoes "next" and "next"
    undoes "previous": from a settled state with the cursor inside a
    non-empty sequence, one completed advance each way brings the cursor
    back, around either end of the sequence; "previous" at the first item
    goes to the last one. With the arrow keys this is not so: their
    listener keeps the callbacks of the render in which the list was
    loaded, whose index is 0, so ArrowRight then ArrowLeft ends at the last
    item and ArrowLeft then ArrowRight at the second one (the only one, if
    there is one item), wherever the cursor was. *)
Theorem next_and_previous_are_inverse (s : state)
    (Hsettled : settled s)
    (Hcursor : 0 <= currentIndex s < Z.of_nat (length (mediaItems s))) :
  run s (completed click_next ++ completed click_previous) = arrived (currentIndex s) s
  /\ run s (completed click_previous ++ completed click_next) = arrived (currentIndex s) s
  /\ currentIndex (run s (completed click_previous))
     = (if currentIndex s =? 0 then Z.of_nat (length (mediaItems s)) - 1
        else currentIndex s - 1)
  /\ (c_length (keydown s) = length (mediaItems s) ->
      c_currentIndex (keydown s) = 0 ->
      c_isTransitioning (keydown s) = false ->
      run s (completed key_ArrowRight ++ completed key_ArrowLeft)
      = arrived (Z.of_nat (length (mediaItems s)) - 1) s
      /\ run s (completed key_ArrowLeft ++ completed key_ArrowRight)
         = arrived (1 mod Z.of_nat (length (mediaItems s))) s).
Proof.
  assert (Hne : mediaItems s <> []).
  { intros Hnil. rewrite Hnil in Hcursor. simpl in Hcursor. lia. }
  assert (HL : (0 < length (mediaItems s))%nat) by lia.
  set (L := Z.of_nat (length (mediaItems s))) in *.
  assert (Hnext : js_rem (currentIndex s + 1) L
                  = if currentIndex s + 1 =? L then 0 else currentIndex s + 1).
  { unfold L. rewrite js_rem_mod by lia. fold L.
    destruct (currentIndex s + 1 =? L) eqn:Heq.
    - apply Z.eqb_eq in Heq. rewrite Heq. apply Z_mod_same_full.
    - apply Z.eqb_neq in Heq. apply Z.mod_small. lia. }
  assert (Hprev : js_rem (currentIndex s - 1 + L) L
                  = if currentIndex s =? 0 then L - 1 else currentIndex s - 1).
  { unfold L. rewrite js_rem_mod by lia. fold L.
    destruct (currentIndex s =? 0) eqn:Heq.
    - apply Z.eqb_eq in Heq. rewrite Heq.
      replace (0 - 1 + L) with (L - 1) by lia. apply Z.mod_small. lia.
    - apply Z.eqb_neq in Heq.
      replace (currentIndex s - 1 + L) with (currentIndex s - 1 + 1 * L) by lia.
      rewrite Z.mod_add by lia. apply Z.mod_small. lia. }
  split; [|split; [|split]].
  - rewrite run_app, click_next_completes by done. fold L.
    rewrite click_previous_completes; [|apply arrived_settled|done].
    simpl mediaItems. simpl currentIndex. fold L. rewrite arrived_arrived. f_equal.
    rewrite Hnext. unfold L. destruct (currentIndex s + 1 =? Z.of_nat _) eqn:Heq.
    + apply Z.eqb_eq in Heq. rewrite js_rem_mod by lia.
      rewrite Z.mod_small by lia. lia.
    + apply Z.eqb_neq in Heq. rewrite js_rem_mod by lia.
      replace (currentIndex s + 1 - 1 + Z.of_nat (length (mediaItems s)))
        with (currentIndex s + 1 * Z.of_nat (length (mediaItems s))) by lia.
      rewrite Z.mod_add by lia. apply Z.mod_small. lia.
  - rewrite run_app, click_previous_completes by done. fold L.
    rewrite click_next_completes; [|apply arrived_settled|done].
    simpl mediaItems. simpl currentIndex. fold L. rewrite arrived_arrived. f_equal.
    rewrite Hprev. unfold L. destruct (currentIndex s =? 0) eqn:Heq.
    + apply Z.eqb_eq in Heq. rewrite js_rem_mod by lia.
      replace (Z.of_nat (length (mediaItems s)) - 1 + 1)
        with (Z.of_nat (length (mediaItems s))) by lia.
      rewrite Z_mod_same_full. lia.
    + apply Z.eqb_neq in Heq. rewrite js_rem_mod by lia.
      rewrite Z.mod_small by lia. lia.
  - rewrite click_previous_completes by done. simpl. fold L. exact Hprev.
  - intros Hklen Hkidx Hktr.
    assert (Hk0 : c_length (keydown s) <> 0%nat) by lia.
    assert (Hright : forall s', settled s' -> keydown s' = keydown s ->
              run s' (completed key_ArrowRight) = arrived (1 mod L) s').
    { intros s' Hs' Hkeys.
      change (run s' (completed key_ArrowRight))
        with (run (transitionTo (keydown s')
                     (js_rem (c_currentIndex (keydown s') + 1)
                             (Z.of_nat (c_length (keydown s')))) s')
                [timeout_fires 0; timeout_fires 0]).
      rewrite Hkeys, closure_advance_completes by done.
      rewrite Hkidx, Hklen, js_rem_mod by lia. done. }
    assert (Hleft : forall s', settled s' -> keydown s' = keydown s ->
              run s' (completed key_ArrowLeft) = arrived (L - 1) s').
    { intros s' Hs' Hkeys.
      change (run s' (completed key_ArrowLeft))
        with (run (transitionTo (keydown s')
                     (js_rem (c_currentIndex (keydown s') - 1
                              + Z.of_nat (c_length (keydown s')))
                             (Z.of_nat (c_length (keydown s')))) s')
                [timeout_fires 0; timeout_fires 0]).
      rewrite Hkeys, closure_advance_completes by done.
      rewrite Hkidx, Hklen, js_rem_mod by lia. fold L.
      replace (0 - 1 + L) with (L - 1) by lia. by rewrite Z.mod_small by lia. }
    split.
    + rewrite run_app, Hright by done.
      rewrite Hleft; [|apply arrived_settled|done]. apply arrived_arrived.
    + rewrite run_app, Hleft by done.
      rewrite Hright; [|apply arrived_settled|done]. apply arrived_arrived.
Qed.

Lemma next_and_previous_are_inverse_witness :
  currentIndex (run loaded5 (completed click_next ++ completed click_previous)) = 0
  /\ currentIndex (run loaded5 (completed key_ArrowRight ++ completed key_ArrowLeft)) = 4.
Proof.
  destruct (next_and_previous_are_inverse loaded5
              (conj eq_refl eq_refl) ltac:(vm_compute; split; [discriminate|reflexivity]))
    as (Hbuttons & _ & _ & Hkeys).
  destruct (Hkeys eq_refl eq_refl eq_refl) as [Hrl _].
  split; [by rewrite Hbuttons|by rewrite Hrl].
Defined.

End CursorFacts.

(** ** Transitions and preloading (src/pages/Slideshow.tsx) *)

Section TransitionFacts.

Import Slideshow Scenarios.
Local Open Scope Z_scope.

Lemma pending_work_app (ts1 ts2 : list timeout) :
  pending_work (ts1 ++ ts2) = (pending_work ts1 + pending_work ts2)%nat.
Proof.
  induction ts1 as [|[i d|] ts1 IH]; simpl; [done|..]; rewrite IH; lia.
Qed.

Lemma default_last_cons (i c : Z) (l : list Z) :
  default i (last l) = default c (last (i :: l)).
Proof.
  destruct l as [|j l]; [reflexivity|]. rewrite last_cons_cons.
  by destruct (proj2 (last_is_Some (j :: l)) ltac:(discriminate)) as [k ->].
Qed.

Lemma drain_spec (n : nat) :
  forall s, pending_work (timeouts s) = n ->
    timeouts (run s (replicate n (timeout_fires 0))) = []
    /\ ((0 < n)%nat ->
        isTransitioning (run s (replicate n (timeout_fires 0))) = false
        /\ previousIndex (run s (replicate n (timeout_fires 0))) = None)
    /\ mediaItems (run s (replicate n (timeout_fires 0))) = mediaItems s
    /\ isPlaying (run s (replicate n (timeout_fires 0))) = isPlaying s
    /\ currentIndex (run s (replicate n (timeout_fires 0)))
       = default (currentIndex s) (last (in_flight s)).
Proof.
  induction n as [|n IH]; intros s Hwork.
  - simpl. destruct (timeouts s) as [|[i d|] ts] eqn:Hts; try discriminate Hwork.
    unfold in_flight. rewrite Hts. simpl. repeat split; [lia|lia].
  - change (run s (replicate (S n) (timeout_fires 0)))
      with (run (fire 0 s) (replicate n (timeout_fires 0))).
    destruct (timeouts s) as [|[i d|] ts] eqn:Hts; try discriminate Hwork.
    + simpl in Hwork. injection Hwork as Hwork.
      assert (Hfire : exists s1, fire 0 s = s1
                /\ timeouts s1 = ts ++ [end_transition]
                /\ mediaItems s1 = mediaItems s /\ isPlaying s1 = isPlaying s
                /\ currentIndex s1 = i).
      { eexists. split; [reflexivity|]. unfold fire. rewrite Hts. by simpl. }
      destruct Hfire as (s1 & -> & Hts1 & Hitems1 & Hplay1 & Hidx1).
      destruct (IH s1) as (Hto & Htr & Hitems & Hplay & Hidx).
      { rewrite Hts1, pending_work_app. simpl. lia. }
      split; [done|]. split.
      { intros _. apply Htr. lia. }
      split; [congruence|]. split; [congruence|].
      rewrite Hidx, Hidx1. unfold in_flight. rewrite Hts1, Hts. simpl.
      rewrite omap_app. simpl. rewrite app_nil_r.
      apply default_last_cons.
    + simpl in Hwork. injection Hwork as Hwork.
      assert (Hfire : exists s1, fire 0 s = s1
                /\ timeouts s1 = ts
                /\ mediaItems s1 = mediaItems s /\ isPlaying s1 = isPlaying s
                /\ currentIndex s1 = currentIndex s
                /\ isTransitioning s1 = false /\ previousIndex s1 = None).
      { eexists. split; [reflexivity|]. unfold fire. rewrite Hts. by simpl. }
      destruct Hfire as (s1 & -> & Hts1 & Hitems1 & Hplay1 & Hidx1 & Htr1 & Hprev1).
      destruct (IH s1) as (Hto & Htr & Hitems & Hplay & Hidx).
      { by rewrite Hts1. }
      split; [done|]. split.
      { intros _. destruct n as [|n]; [done|]. apply Htr. lia. }
      split; [congruence|]. split; [congruence|].
      rewrite Hidx, Hidx1. unfold in_flight. by rewrite Hts1, Hts.
Qed.

(** X6. A transition always comes to an end: once every pending timeout
    has fired, nothing is pending, the state is no longer transitioning
    and no previous item is kept, whether playback is paused or not and
    even when several advances were queued. The cursor is then at the
    target of the advance queued last, and the sequence is as it was. *)
Theorem transitions_always_complete (s : state) (Hpending : timeouts s <> []) :
  settled (drain s)
  /\ previousIndex (drain s) = None
  /\ mediaItems (drain s) = mediaItems s
  /\ isPlaying (drain s) = isPlaying s
  /\ currentIndex (drain s) = default (currentIndex s) (last (in_flight s)).
Proof.
  unfold drain, settled.
  destruct (drain_spec (pending_work (timeouts s)) s eq_refl)
    as (Hto & Htr & Hitems & Hplay & Hidx).
  assert (Hpos : (0 < pending_work (timeouts s))%nat).
  { destruct (timeouts s) as [|[i d|] ts]; [done|simpl; lia..]. }
  destruct (Htr Hpos). done.
Qed.

Lemma transitions_always_complete_witness :
  settled (drain (step in_transition5 key_ArrowRight))
  /\ currentIndex (drain (step in_transition5 key_ArrowRight)) = 1.
Proof.
  destruct (transitions_always_complete (step in_transition5 key_ArrowRight)
              ltac:(discriminate)) as (Hsettled & _ & _ & _ & Hidx).
  split; [exact Hsettled|]. rewrite Hidx. reflexivity.
Defined.

Lemma size_list_to_set_le (l : list string) :
  (size (list_to_set l : gset string) <= length l)%nat.
Proof.
  induction l as [|x l IH].
  - by rewrite list_to_set_nil, size_empty.
  - rewrite list_to_set_cons, size_union_alt, size_singleton. simpl.
    assert (Hsub : list_to_set l ∖ {[x]} ⊆ (list_to_set l : gset string)).
    { intros y Hy. by apply elem_of_difference in Hy as [? _]. }
    apply subseteq_size in Hsub. lia.
Qed.

Lemma length_omap_le {A B} (f : A -> option B) (l : list A) :
  (length (omap f l) <= length l)%nat.
Proof.
  induction l as [|x l IH]; [done|].
  change (omap f (x :: l))
    with (match f x with Some y => y :: omap f l | None => omap f l end).
  destruct (f x); simpl length; lia.
Qed.

Lemma size_idsToKeep (items : list MediaItem) (currentIndex : Z) :
  (size (idsToKeep items currentIndex) <= 6)%nat.
Proof.
  unfold idsToKeep. etrans; [apply size_list_to_set_le|].
  etrans; [apply length_omap_le|]. done.
Qed.

Lemma preload_round_inv (items : list MediaItem) (currentIndex : Z)
    (before : gset string) (acc : gset string * list PreloadRequest) (i : Z) :
  preload_inv before acc ->
  preload_inv before (preload_round items currentIndex acc i)
  /\ acc.1 ⊆ (preload_round items currentIndex acc i).1
  /\ (forall item,
        item_at items (js_rem (currentIndex + i) (Z.of_nat (length items))) = Some item ->
        id item ∈ (preload_round items currentIndex acc i).1).
Proof.
  destruct acc as [P reqs]. unfold preload_inv, preload_round.
  cbn [fst snd]. intros (Hsub & Hnd & Hall).
  destruct (item_at items _) as [nextItem|]; [|done].
  destruct (decide (id nextItem ∈ P)) as [Hin|Hnin]; cbn [fst snd].
  - split; [done|]. split; [done|]. by intros item [= <-].
  - split; [|split; [set_solver|intros item [= <-]; set_solver]].
    split; [set_solver|]. split.
    + rewrite fmap_app. apply NoDup_app. split; [done|]. split.
      * intros j Hj Hj'. apply list_elem_of_singleton in Hj'. subst j.
        apply list_elem_of_fmap in Hj as (rq & Hrq & Hrqin).
        rewrite Forall_forall in Hall. destruct (Hall rq Hrqin) as [_ Hin'].
        apply Hnin. cbn [pr_id] in Hrq. by rewrite Hrq.
      * apply NoDup_singleton.
    + apply Forall_app. split.
      * eapply Forall_impl; [exact Hall|]. intros rq [? ?]. split; [done|set_solver].
      * apply Forall_singleton. cbn [pr_id]. split; [|set_solver].
        intros Hin. apply Hnin. by apply Hsub.
Qed.

(** X7. The set of preloaded ids never holds more than
    [MAX_CACHED_IMAGES] ids after [preloadNextImages], whatever it held
    before. A request is started only for an id that was not in the set,
    and never twice for one id in a call. With the cursor at a valid index,
    the ids of the next three items are in the set afterwards. *)
Theorem preload_set_is_bounded (items : list MediaItem) (currentIndex : Z)
    (preloaded : gset string) :
  let after := preloadNextImages items currentIndex preloaded in
  (size after.1 <= MAX_CACHED_IMAGES)%nat
  /\ NoDup (pr_id <$> after.2)
  /\ Forall (fun rq => pr_id rq ∉ preloaded) after.2
  /\ (0 <= currentIndex ->
      forall i item, 1 <= i <= 3 ->
        item_at items ((currentIndex + i) mod Z.of_nat (length items)) = Some item ->
        id item ∈ after.1).
Proof.
  intros after. subst after. unfold preloadNextImages.
  change (Z.of_nat <$> seq 1 PRELOAD_COUNT) with [1; 2; 3]. simpl foldl.
  assert (H0 : preload_inv preloaded (preloaded, [])).
  { split; [done|]. split; [constructor|constructor]. }
  destruct (preload_round_inv items currentIndex preloaded _ 1 H0) as (H1 & Hs1 & Ha1).
  destruct (preload_round_inv items currentIndex preloaded _ 2 H1) as (H2 & Hs2 & Ha2).
  destruct (preload_round_inv items currentIndex preloaded _ 3 H2) as (H3 & Hs3 & Ha3).
  set (acc1 := preload_round items currentIndex (preloaded, []) 1) in *.
  set (acc2 := preload_round items currentIndex acc1 2) in *.
  set (acc3 := preload_round items currentIndex acc2 3) in *.
  destruct acc3 as [preloaded' requests] eqn:Hacc3.
  destruct H3 as (_ & Hnd & Hall). simpl in *.
  assert (Hcover : 0 <= currentIndex ->
    forall i item, 1 <= i <= 3 ->
      item_at items ((currentIndex + i) mod Z.of_nat (length items)) = Some item ->
      id item ∈ preloaded'
      /\ id item ∈ idsToKeep items currentIndex).
  { intros Hidx i item Hi Hitem.
    assert (HL : (0 < length items)%nat).
    { destruct items; [|simpl; lia]. unfold item_at in Hitem.
      by destruct (_ <? 0). }
    assert (Hrem : js_rem (currentIndex + i) (Z.of_nat (length items))
                   = (currentIndex + i) mod Z.of_nat (length items))
      by (apply js_rem_mod; lia).
    assert (Hrem' : js_rem (currentIndex + i + Z.of_nat (length items))
                      (Z.of_nat (length items))
                   = (currentIndex + i) mod Z.of_nat (length items)).
    { rewrite js_rem_mod by lia.
      replace (currentIndex + i + Z.of_nat (length items))
        with (currentIndex + i + 1 * Z.of_nat (length items)) by lia.
      by rewrite Z.mod_add by lia. }
    split.
    - assert (i = 1 \/ i = 2 \/ i = 3) as [->|[->| ->]] by lia.
      + apply Hs3, Hs2, Ha1. by rewrite Hrem.
      + apply Hs3, Ha2. by rewrite Hrem.
      + apply Ha3. by rewrite Hrem.
    - unfold idsToKeep. apply elem_of_list_to_set, list_elem_of_omap.
      exists i. split.
      + change ((fun k => Z.of_nat k - 2) <$> seq 0 (PRELOAD_COUNT + 3))
          with [-2; -1; 0; 1; 2; 3].
        apply list_elem_of_In. simpl. lia.
      + by rewrite Hrem', Hitem. }
  assert (Hreq : Forall (fun rq => pr_id rq ∉ preloaded) requests).
  { eapply Forall_impl; [exact Hall|]. by intros rq [? _]. }
  destruct (MAX_CACHED_IMAGES <? size preloaded')%nat eqn:Hsize; simpl.
  - split.
    { assert (Hle : (size (filter (fun j => j ∈ idsToKeep items currentIndex) preloaded')
                     <= size (idsToKeep items currentIndex))%nat).
      { apply subseteq_size. intros j Hj. by apply elem_of_filter in Hj as [? _]. }
      pose proof (size_idsToKeep items currentIndex). unfold MAX_CACHED_IMAGES. lia. }
    split; [done|]. split; [done|].
    intros Hidx i item Hi Hitem. apply elem_of_filter.
    destruct (Hcover Hidx i item Hi Hitem). done.
  - apply Nat.ltb_ge in Hsize. split; [done|]. split; [done|]. split; [done|].
    intros Hidx i item Hi Hitem. by destruct (Hcover Hidx i item Hi Hitem).
Qed.

End TransitionFacts.

Lemma preload_set_is_bounded_witness :
  Slideshow.id (Scenarios.photo "p1" 10)
  ∈ (Slideshow.preloadNextImages Scenarios.items5 4 ∅).1.
Proof.
  exact (proj2 (proj2 (proj2 (preload_set_is_bounded Scenarios.items5 4 ∅)))
           ltac:(lia) 1%Z (Scenarios.photo "p1" 10) ltac:(lia) eq_refl).
Defined.

(** ** More on the retrying fetch (electron/services/photosApi.ts) *)

Section FetchMore.

Import PhotosApi Scenarios.
Local Open Scope Z_scope.

Variable net : nat -> request -> outcome.

Lemma retried_false (r : Response) :
  retried (Answered r) = false <-> status r <> 429 /\ status r < 500.
Proof.
  unfold retried, ok. split.
  - intros H. apply orb_false_elim in H as [H1 H2]. apply Z.eqb_neq in H1.
    split; [done|]. destruct (500 <=? status r) eqn:H500; [|by apply Z.leb_gt].
    apply Z.leb_le in H500. rewrite andb_true_r in H2. apply negb_false_iff in H2.
    apply andb_true_iff in H2 as [_ H2]. apply Z.leb_le in H2. lia.
  - intros [H1 H2]. apply orb_false_intro; [by apply Z.eqb_neq|].
    replace (500 <=? status r) with false by (symmetry; apply Z.leb_gt; lia).
    apply andb_false_r.
Qed.

(** The loop, by whether the outcome is one that is retried. *)
Lemma attempts_round_retried (u : url) (retries n i : nat) (w : world) :
  attempts net u retries (S n) i w
  = match net (length (issued w)) (request_of u w) with
    | Answered response =>
        if retried (Answered response) then
          attempts net u retries n (S i) (slept (INITIAL_DELAY * 2 ^ Z.of_nat i) (sent u w))
        else (Ok response, sent u w)
    | Rejected cause =>
        if (i =? retries - 1)%nat then (Throw (FetchError cause), sent u w)
        else attempts net u retries n (S i) (slept (INITIAL_DELAY * 2 ^ Z.of_nat i) (sent u w))
    end.
Proof.
  rewrite attempts_round.
  destruct (net (length (issued w)) (request_of u w)) as [response|cause]; [|done].
  unfold retried. destruct (status response =? 429); [done|]. simpl.
  by destruct (negb (ok response) && (500 <=? status response)).
Qed.

Lemma attempts_answer (u : url) (retries n i : nat) (w w' : world) (r : Response) :
  attempts net u retries n i w = (Ok r, w') ->
  retried (Answered r) = false
  /\ exists before, issued w' = before ++ [request_of u w]
                    /\ net (length before) (request_of u w) = Answered r.
Proof.
  revert i w. induction n as [|n IH]; intros i w; [discriminate|].
  rewrite attempts_round_retried.
  destruct (net (length (issued w)) (request_of u w)) as [response|cause] eqn:Hnet.
  - destruct (retried (Answered response)) eqn:Hretried.
    + intros H. apply IH in H. exact H.
    + intros [= <- <-]. split; [done|]. by exists (issued w).
  - destruct (i =? retries - 1)%nat; [discriminate|].
    intros H. apply IH in H. exact H.
Qed.

(** X8. A response that [fetchWithRetry] returns is never a rate-limit
    answer (429) nor a server failure (500 or above): it is the answer of
    the network to the last request sent, and that answer was not one of
    those the loop retries. *)
Theorem fetch_returns_only_final_answers (u : url) (retries : nat) (w w' : world)
    (r : Response)
    (Hreturned : fetchWithRetry net u retries w = (Ok r, w')) :
  status r <> 429 /\ status r < 500
  /\ exists before, issued w' = before ++ [request_of u w]
                    /\ net (length before) (request_of u w) = Answered r.
Proof.
  apply attempts_answer in Hreturned as [Hnot Hlast].
  apply retried_false in Hnot as [? ?]. done.
Qed.

Lemma delays_S (i k : nat) :
  delays i (S k) = INITIAL_DELAY * 2 ^ Z.of_nat i :: delays (S i) k.
Proof. done. Qed.

Lemma pow2_S (i : nat) : 2 ^ Z.of_nat (S i) = 2 * 2 ^ Z.of_nat i.
Proof. rewrite Nat2Z.inj_succ. apply Z.pow_succ_r. lia. Qed.

(** What the loop does to the log of requests, the waits and the clock. *)
Lemma attempts_effects (u : url) (retries n i : nat) (w : world) :
  exists k m : nat,
    (k <= m <= S k)%nat /\ (m <= n)%nat
    /\ issued (attempts net u retries n i w).2 = issued w ++ replicate m (request_of u w)
    /\ waited (attempts net u retries n i w).2 = waited w ++ delays i k
    /\ clock (attempts net u retries n i w).2
       = clock w + INITIAL_DELAY * (2 ^ Z.of_nat (i + k) - 2 ^ Z.of_nat i).
Proof.
  revert i w. induction n as [|n IH]; intros i w.
  - exists O, O. simpl. rewrite !app_nil_r, Nat.add_0_r.
    repeat split; [lia..|]. unfold INITIAL_DELAY. lia.
  - assert (Hstop : forall res : result Response,
      exists k m : nat,
        (k <= m <= S k)%nat /\ (m <= S n)%nat
        /\ issued (res, sent u w).2 = issued w ++ replicate m (request_of u w)
        /\ waited (res, sent u w).2 = waited w ++ delays i k
        /\ clock (res, sent u w).2
           = clock w + INITIAL_DELAY * (2 ^ Z.of_nat (i + k) - 2 ^ Z.of_nat i)).
    { intros res. exists O, 1%nat. simpl. rewrite app_nil_r, Nat.add_0_r.
      repeat split; [lia..|]. unfold INITIAL_DELAY. lia. }
    assert (Hgo : exists k m : nat,
        (k <= m <= S k)%nat /\ (m <= S n)%nat
        /\ issued (attempts net u retries n (S i)
                     (slept (INITIAL_DELAY * 2 ^ Z.of_nat i) (sent u w))).2
           = issued w ++ replicate m (request_of u w)
        /\ waited (attempts net u retries n (S i)
                     (slept (INITIAL_DELAY * 2 ^ Z.of_nat i) (sent u w))).2
           = waited w ++ delays i k
        /\ clock (attempts net u retries n (S i)
                    (slept (INITIAL_DELAY * 2 ^ Z.of_nat i) (sent u w))).2
           = clock w + INITIAL_DELAY * (2 ^ Z.of_nat (i + k) - 2 ^ Z.of_nat i)).
    { destruct (IH (S i) (slept (INITIAL_DELAY * 2 ^ Z.of_nat i) (sent u w)))
        as (k & m & Hkm & Hm & Hissued & Hwaited & Hclock).
      exists (S k), (S m). split; [lia|]. split; [lia|].
      rewrite Hissued, Hwaited, Hclock. simpl issued. simpl waited. simpl clock.
      split; [|split].
      - rewrite <- app_assoc. done.
      - rewrite <- app_assoc. done.
      - replace (i + S k)%nat with (S i + k)%nat by lia.
        rewrite (pow2_S i). unfold INITIAL_DELAY. lia. }
    rewrite attempts_round_retried.
    destruct (net (length (issued w)) (request_of u w)) as [response|cause].
    + destruct (retried (Answered response)); [exact Hgo|apply Hstop].
    + destruct (i =? retries - 1)%nat; [apply Hstop|exact Hgo].
Qed.

(** X9. A fetch waits after its attempts for 1000, 2000, 4000, ...
    milliseconds in this order, and for nothing else: in all for at most
    [INITIAL_DELAY * (2 ^ retries - 1)] milliseconds (7 seconds with the
    three attempts of the application). It sends the same request each
    time, at most [retries] times, and at most once more than it waits. *)
Theorem fetch_waits_are_bounded (u : url) (retries : nat) (w : world) :
  exists k m : nat,
    (k <= m <= S k)%nat /\ (m <= retries)%nat
    /\ issued (fetchWithRetry net u retries w).2
       = issued w ++ replicate m (request_of u w)
    /\ waited (fetchWithRetry net u retries w).2 = waited w ++ delays 0 k
    /\ clock (fetchWithRetry net u retries w).2
       = clock w + INITIAL_DELAY * (2 ^ Z.of_nat k - 1)
    /\ clock (fetchWithRetry net u retries w).2 - clock w
       <= INITIAL_DELAY * (2 ^ Z.of_nat retries - 1).
Proof.
  destruct (attempts_effects u retries retries 0 w)
    as (k & m & Hkm & Hm & Hissued & Hwaited & Hclock).
  exists k, m. unfold fetchWithRetry. rewrite Hissued, Hwaited, Hclock.
  simpl. repeat split; try lia.
  assert (2 ^ Z.of_nat k <= 2 ^ Z.of_nat retries) by (apply Z.pow_le_mono_r; lia).
  unfold INITIAL_DELAY. lia.
Qed.

End FetchMore.

Section FetchOutcomes.

Import PhotosApi Scenarios.
Local Open Scope Z_scope.

Variable net : nat -> request -> outcome.

Lemma attempts_recover (u : url) (retries k : nat) :
  forall (n i : nat) (w : world) (r : Response),
    (k < n)%nat -> (i + n = retries)%nat ->
    (forall j, (j < k)%nat ->
       retried (net (length (issued w) + j)%nat (request_of u w)) = true) ->
    net (length (issued w) + k)%nat (request_of u w) = Answered r ->
    retried (Answered r) = false ->
    (attempts net u retries n i w).1 = Ok r
    /\ issued (attempts net u retries n i w).2
       = issued w ++ replicate (S k) (request_of u w)
    /\ waited (attempts net u retries n i w).2 = waited w ++ delays i k.
Proof.
  induction k as [|k IH]; intros n i w r Hk Hn Hfirst Hlast Hfinal.
  - destruct n as [|n]; [lia|]. rewrite attempts_round_retried.
    rewrite Nat.add_0_r in Hlast. rewrite Hlast, Hfinal. simpl.
    by rewrite app_nil_r.
  - destruct n as [|n]; [lia|]. rewrite attempts_round_retried.
    pose proof (Hfirst O ltac:(lia)) as H0. rewrite Nat.add_0_r in H0.
    assert (Hgo : attempts net u retries (S n) i w
                  = attempts net u retries n (S i)
                      (slept (INITIAL_DELAY * 2 ^ Z.of_nat i) (sent u w))).
    { rewrite attempts_round_retried.
      destruct (net (length (issued w)) (request_of u w)) as [response|cause].
      - by rewrite H0.
      - replace (i =? retries - 1)%nat with false
          by (symmetry; apply Nat.eqb_neq; lia). done. }
    rewrite <- attempts_round_retried, Hgo.
    destruct (IH n (S i) (slept (INITIAL_DELAY * 2 ^ Z.of_nat i) (sent u w)) r)
      as (Hres & Hissued & Hwaited); [lia|lia| | |done|].
    + intros j Hj. simpl. rewrite length_app. simpl.
      replace (length (issued w) + 1 + j)%nat with (length (issued w) + S j)%nat by lia.
      apply (Hfirst (S j)). lia.
    + simpl. rewrite length_app. simpl.
      replace (length (issued w) + 1 + k)%nat with (length (issued w) + S k)%nat by lia.
      exact Hlast.
    + rewrite Hres, Hissued, Hwaited. simpl. rewrite <- !app_assoc. done.
Qed.

(** X10. The fetch recovers from failures that pass: when the first [k]
    attempts (fewer than [retries]) end in 429, in a status of 500 or
    above or in a transport failure, and the next attempt is answered with
    anything else, that answer is returned, after [k + 1] requests and the
    waits of 1000, 2000, ... milliseconds between them. *)
Theorem fetch_recovers (u : url) (retries k : nat) (w : world) (r : Response)
    (Hleft : (k < retries)%nat)
    (Hfailures : forall j, (j < k)%nat ->
       retried (net (length (issued w) + j)%nat (request_of u w)) = true)
    (Hanswer : net (length (issued w) + k)%nat (request_of u w) = Answered r)
    (Hfinal : status r <> 429 /\ status r < 500) :
  (fetchWithRetry net u retries w).1 = Ok r
  /\ issued (fetchWithRetry net u retries w).2
     = issued w ++ replicate (S k) (request_of u w)
  /\ waited (fetchWithRetry net u retries w).2 = waited w ++ delays 0 k.
Proof.
  apply attempts_recover; [done|lia|done|done|]. by apply retried_false.
Qed.

Lemma attempts_exhausted (u : url) (retries n : nat) :
  forall (i : nat) (w : world),
    (i + S n = retries)%nat ->
    (forall j, (j <= n)%nat ->
       retried (net (length (issued w) + j)%nat (request_of u w)) = true) ->
    (attempts net u retries (S n) i w).1
      = Throw (match net (length (issued w) + n)%nat (request_of u w) with
               | Answered _ => MaxRetriesExceeded
               | Rejected cause => FetchError cause
               end)
    /\ issued (attempts net u retries (S n) i w).2
       = issued w ++ replicate (S n) (request_of u w)
    /\ waited (attempts net u retries (S n) i w).2
       = waited w ++ delays i (match net (length (issued w) + n)%nat (request_of u w) with
                               | Answered _ => S n
                               | Rejected _ => n
                               end).
Proof.
  induction n as [|n IH]; intros i w Hi Hall.
  - rewrite attempts_round_retried. pose proof (Hall O ltac:(lia)) as H0.
    rewrite Nat.add_0_r in *.
    destruct (net (length (issued w)) (request_of u w)) as [response|cause].
    + rewrite H0. simpl. done.
    + replace (i =? retries - 1)%nat with true by (symmetry; apply Nat.eqb_eq; lia).
      simpl. by rewrite app_nil_r.
  - pose proof (Hall O ltac:(lia)) as H0. rewrite Nat.add_0_r in H0.
    assert (Hgo : attempts net u retries (S (S n)) i w
                  = attempts net u retries (S n) (S i)
                      (slept (INITIAL_DELAY * 2 ^ Z.of_nat i) (sent u w))).
    { rewrite attempts_round_retried.
      destruct (net (length (issued w)) (request_of u w)) as [response|cause].
      - by rewrite H0.
      - replace (i =? retries - 1)%nat with false
          by (symmetry; apply Nat.eqb_neq; lia). done. }
    rewrite Hgo.
    destruct (IH (S i) (slept (INITIAL_DELAY * 2 ^ Z.of_nat i) (sent u w)))
      as (Hres & Hissued & Hwaited); [lia| |].
    + intros j Hj. simpl. rewrite length_app. simpl.
      replace (length (issued w) + 1 + j)%nat with (length (issued w) + S j)%nat by lia.
      apply (Hall (S j)). lia.
    + assert (Hlen : (length (issued (slept (INITIAL_DELAY * 2 ^ Z.of_nat i) (sent u w))) + n
                      = length (issued w) + S n)%nat).
      { simpl. rewrite length_app. simpl. lia. }
      rewrite Hlen in Hres, Hwaited. simpl request_of in *.
      change (request_of u (slept (INITIAL_DELAY * 2 ^ Z.of_nat i) (sent u w)))
        with (request_of u w) in *.
      rewrite Hres, Hissued, Hwaited. simpl issued. simpl waited.
      rewrite <- !app_assoc. split; [done|]. split; [done|].
      f_equal. by destruct (net (length (issued w) + S n)%nat (request_of u w)).
Qed.

(** X11. When every one of the [retries] attempts ends in 429, in a status
    of 500 or above or in a transport failure, the fetch gives up after
    exactly [retries] requests. It throws the transport error of the last
    attempt when that attempt was rejected, and 'Max retries exceeded'
    when it was answered; in the second case it has waited after the last
    attempt as well. *)
Theorem fetch_gives_up (u : url) (retries : nat) (w : world)
    (Hretries : (0 < retries)%nat)
    (Hfailures : forall j, (j < retries)%nat ->
       retried (net (length (issued w) + j)%nat (request_of u w)) = true) :
  (fetchWithRetry net u retries w).1
    = Throw (match net (length (issued w) + (retries - 1))%nat (request_of u w) with
             | Answered _ => MaxRetriesExceeded
             | Rejected cause => FetchError cause
             end)
  /\ issued (fetchWithRetry net u retries w).2
     = issued w ++ replicate retries (request_of u w)
  /\ waited (fetchWithRetry net u retries w).2
     = waited w ++ delays 0 (match net (length (issued w) + (retries - 1))%nat
                                       (request_of u w) with
                             | Answered _ => retries
                             | Rejected _ => retries - 1
                             end).
Proof.
  unfold fetchWithRetry. destruct retries as [|n]; [lia|].
  replace (S n - 1)%nat with n by lia.
  apply attempts_exhausted; [lia|]. intros j Hj. apply Hfailures. lia.
Qed.

End FetchOutcomes.

Lemma fetch_returns_only_final_answers_witness :
  exists before : list PhotosApi.request,
    Scenarios.scripted [Scenarios.answer 503; PhotosApi.Rejected "ETIMEDOUT"]
      (Scenarios.answer 404) (length before)
      (PhotosApi.request_of Scenarios.a_url (Scenarios.world_at 0))
    = Scenarios.answer 404.
Proof.
  destruct (fetch_returns_only_final_answers
              (Scenarios.scripted [Scenarios.answer 503; PhotosApi.Rejected "ETIMEDOUT"]
                 (Scenarios.answer 404))
              Scenarios.a_url 3 (Scenarios.world_at 0)
              (PhotosApi.slept 2000 (PhotosApi.sent Scenarios.a_url
                 (PhotosApi.slept 1000 (PhotosApi.sent Scenarios.a_url
                    (PhotosApi.sent Scenarios.a_url (Scenarios.world_at 0))))))
              (PhotosApi.Build_Response 404 (Some (PhotosApi.Build_batchGetData None))))
    as (_ & _ & before & _ & Hlast).
  - vm_compute. reflexivity.
  - exists before. exact Hlast.
Defined.

Lemma fetch_recovers_witness :
  (PhotosApi.fetchWithRetry
     (Scenarios.scripted [Scenarios.answer 503; PhotosApi.Rejected "ETIMEDOUT"]
        (Scenarios.answer 200))
     Scenarios.a_url 3 (Scenarios.world_at 0)).1
  = PhotosApi.Ok (PhotosApi.Build_Response 200 (Some (PhotosApi.Build_batchGetData None))).
Proof.
  refine (proj1 (fetch_recovers
     (Scenarios.scripted [Scenarios.answer 503; PhotosApi.Rejected "ETIMEDOUT"]
        (Scenarios.answer 200))
     Scenarios.a_url 3 2 (Scenarios.world_at 0)
     (PhotosApi.Build_Response 200 (Some (PhotosApi.Build_batchGetData None)))
     ltac:(lia) _ eq_refl _)).
  - intros j Hj. by destruct j as [|[|j]]; [..|lia].
  - simpl. lia.
Defined.

Lemma fetch_gives_up_witness :
  (PhotosApi.fetchWithRetry
     (Scenarios.scripted [Scenarios.answer 503; PhotosApi.Rejected "ETIMEDOUT"]
        (Scenarios.answer 429))
     Scenarios.a_url 3 (Scenarios.world_at 0)).1
  = PhotosApi.Throw PhotosApi.MaxRetriesExceeded.
Proof.
  refine (proj1 (fetch_gives_up
     (Scenarios.scripted [Scenarios.answer 503; PhotosApi.Rejected "ETIMEDOUT"]
        (Scenarios.answer 429))
     Scenarios.a_url 3 (Scenarios.world_at 0) ltac:(lia) _)).
  intros j Hj. by destruct j as [|[|[|j]]]; [..|lia].
Defined.

(** ** More on refreshing the locators *)

Section RefreshMore.

Import PhotosApi Scenarios.
Local Open Scope Z_scope.

Variable net : nat -> request -> outcome.

Lemma requested_ids_batchGet (batch : list string) (token : option string) :
  requested_ids {| req_url := batchGet batch; bearer := token |} = batch.
Proof.
  unfold requested_ids, batchGet. cbn [req_url params].
  induction batch as [|i batch IH]; [done|].
  rewrite !fmap_cons. cbn [snd]. by rewrite IH.
Qed.

Lemma batches_cover (mediaItemIds : list string)
    (Hnet : forall k rq, exists r, net k rq = Answered r
                                   /\ retried (Answered r) = false /\ is_Some (json r)) :
  forall (fuel i : nat) (urlMap : gmap string string) (w : world),
    (length mediaItemIds <= i + fuel)%nat ->
    exists urlMap' reqs,
      (batches net mediaItemIds fuel i urlMap w).1 = Ok urlMap'
      /\ issued (batches net mediaItemIds fuel i urlMap w).2 = issued w ++ reqs
      /\ mjoin (requested_ids <$> reqs) = drop i mediaItemIds
      /\ Forall (fun rq => (0 < length (requested_ids rq) <= 50)%nat
                           /\ bearer rq = accessToken w) reqs.
Proof.
  induction fuel as [|fuel IH]; intros i urlMap w Hfuel.
  - exists urlMap, []. simpl. rewrite app_nil_r, drop_ge by lia. done.
  - destruct (decide (i < length mediaItemIds)%nat) as [Hi|Hi].
    + rewrite batches_round by done.
      destruct (Hnet (length (issued w))
                  (request_of (batchGet (take 50 (drop i mediaItemIds))) w))
        as (r & Hr & Hfinal & [data Hdata]).
      apply retried_false in Hfinal as [H429 H500].
      change MAX_RETRIES with 3%nat.
      rewrite (fetchWithRetry_first_answer net _ 2 w r Hr H429 H500), Hdata.
      destruct (IH (i + 50)%nat
                  (match mediaItemResults data with
                   | Some results => collect urlMap results
                   | None => urlMap
                   end)
                  (sent (batchGet (take 50 (drop i mediaItemIds))) w) ltac:(lia))
        as (urlMap' & reqs & Hres & Hissued & Hids & Hall).
      exists urlMap', (request_of (batchGet (take 50 (drop i mediaItemIds))) w :: reqs).
      split; [done|]. split; [|split].
      * rewrite Hissued. simpl. by rewrite <- app_assoc.
      * rewrite fmap_cons. simpl. rewrite Hids.
        unfold request_of. rewrite requested_ids_batchGet.
        rewrite <- (drop_drop mediaItemIds 50 i). apply take_drop.
      * constructor; [|exact Hall]. unfold request_of.
        rewrite requested_ids_batchGet, length_take, length_drop. split; [lia|done].
    + rewrite batches_done by lia. exists urlMap, [].
      rewrite app_nil_r, drop_ge by lia. done.
Qed.

(** X12. When the service answers every request at once with a body that
    parses, a refresh asks for every id passed exactly once: the requests
    it sends carry, one after the other, the ids in the order given, cut
    into batches of at most 50 and never empty, and the call returns. *)
Theorem refresh_asks_for_every_id_once (mediaItemIds : list string) (w : world)
    (Hnet : forall k rq, exists r, net k rq = Answered r
                                   /\ retried (Answered r) = false /\ is_Some (json r)) :
  exists urlMap reqs,
    (refreshBaseUrls net mediaItemIds w).1 = Ok urlMap
    /\ issued (refreshBaseUrls net mediaItemIds w).2 = issued w ++ reqs
    /\ mjoin (requested_ids <$> reqs) = mediaItemIds
    /\ Forall (fun rq => (0 < length (requested_ids rq) <= 50)%nat
                         /\ bearer rq = accessToken w) reqs.
Proof.
  destruct (batches_cover mediaItemIds Hnet (length mediaItemIds) 0 ∅ w ltac:(lia))
    as (urlMap & reqs & Hres & Hissued & Hids & Hall).
  exists urlMap, reqs. rewrite refreshBaseUrls_issued.
  split; [|done]. unfold refreshBaseUrls, mbind, io_bind.
  destruct (batches net mediaItemIds (length mediaItemIds) 0 ∅ w) as [[m|e] w1];
    simpl in *; congruence.
Qed.

Lemma update_cached_kept_or_reissued (urlMap : gmap string string) (now : Z)
    (item : CachedMediaItem) :
  kept_or_reissued urlMap now item (update_cached urlMap now item).
Proof.
  unfold kept_or_reissued, update_cached.
  destruct (urlMap !! id item) as [newUrl|] eqn:Hurl; [|by repeat split; try left].
  destruct (truthy newUrl) eqn:Htruthy; [|by repeat split; try left].
  simpl. repeat split. right. done.
Qed.

(** X13. A refresh that returns never adds, removes or reorders the items
    of the store and never touches an id, a MIME type or an album id. Each
    item either stays exactly as it was, or gets the locator the answer
    had for its id, which is not empty, together with the time of the
    refresh. *)
Theorem refresh_keeps_the_store_in_shape (mediaItemIds : list string) (w w' : world)
    (urlMap : gmap string string)
    (Hreturned : refreshBaseUrls net mediaItemIds w = (Ok urlMap, w')) :
  Forall2 (kept_or_reissued urlMap (clock w')) (mediaItems w) (mediaItems w')
  /\ id <$> mediaItems w' = id <$> mediaItems w.
Proof.
  unfold refreshBaseUrls, mbind, io_bind in Hreturned.
  pose proof (batches_frame net mediaItemIds (length mediaItemIds) 0 ∅ w) as (_ & Hm & _).
  destruct (batches net mediaItemIds (length mediaItemIds) 0 ∅ w) as [[m|e] w1];
    simpl in *; [|discriminate].
  injection Hreturned as <- <-. simpl. rewrite Hm. split.
  - apply Forall2_fmap_r, Forall_Forall2_diag, Forall_forall.
    intros item _. apply update_cached_kept_or_reissued.
  - rewrite <- list_fmap_compose. apply list_fmap_ext. intros _ item _.
    by destruct (update_cached_kept_or_reissued m (clock w1) item) as [? _].
Qed.

End RefreshMore.

Lemma refresh_asks_for_every_id_once_witness :
  exists reqs,
    PhotosApi.issued (PhotosApi.refreshBaseUrls (Scenarios.scripted [] (Scenarios.answer 200))
                        Scenarios.ids51 (Scenarios.world_with_token 0)).2 = reqs
    /\ mjoin (PhotosApi.requested_ids <$> reqs) = Scenarios.ids51.
Proof.
  destruct (refresh_asks_for_every_id_once (Scenarios.scripted [] (Scenarios.answer 200))
              Scenarios.ids51 (Scenarios.world_with_token 0))
    as (urlMap & reqs & _ & Hissued & Hids & _).
  - intros k rq.
    exists (PhotosApi.Build_Response 200 (Some (PhotosApi.Build_batchGetData None))).
    split; [by destruct k|]. split; [reflexivity|]. by eexists.
  - exists reqs. split; [exact Hissued|exact Hids].
Defined.

Lemma refresh_keeps_the_store_in_shape_witness :
  PhotosApi.id <$> PhotosApi.mediaItems
    (PhotosApi.refreshBaseUrls (Scenarios.scripted [] Scenarios.answer_p1) ["p1"]
       (PhotosApi.Build_world 0 [] [] (Some "token") [Scenarios.image "p1"; Scenarios.image "p2"])).2
  = ["p1"; "p2"].
Proof.
  destruct (PhotosApi.refreshBaseUrls (Scenarios.scripted [] Scenarios.answer_p1) ["p1"]
              (PhotosApi.Build_world 0 [] [] (Some "token")
                 [Scenarios.image "p1"; Scenarios.image "p2"]))
    as [[urlMap|e] w'] eqn:Hreturned.
  - exact (proj2 (refresh_keeps_the_store_in_shape _ _ _ _ _ Hreturned)).
  - vm_compute in Hreturned. discriminate Hreturned.
Defined.

Section RendererRefresh.

Import Scenarios.
Local Open Scope Z_scope.

Variable net : nat -> PhotosApi.request -> PhotosApi.outcome.




End RendererRefresh.


(** ** More on the image cache *)

Section CacheMore.

Import PhotosApi Scenarios.

Variable MAX_CACHE_SIZE : N.





Lemma prefix_append (s t : string) : String.prefix s (s +:+ t) = true.
Proof.
  induction s as [|c s IH]; [by destruct t|].
  change (String.prefix (String c s) (String c s +:+ t))
    with (if Ascii.ascii_dec c c then String.prefix s (s +:+ t) else false).
  destruct (Ascii.ascii_dec c c); [exact IH|congruence].
Qed.

(** X18. [getCachedImagePath] finds a file exactly when the directory has
    a file whose name starts with the id, and what it returns is such a
    file (not necessarily the one cached for this item, when another id
    starts with this one). After [cacheImage] succeeded for an item, its id
    is found. *)
Theorem cached_path_lookup (mediaItemId : string) (dir : gmap string Stats) :
  (forall p, getCachedImagePath mediaItemId dir = Some p ->
             is_Some (dir !! p) /\ String.prefix mediaItemId p = true)
  /\ (getCachedImagePath mediaItemId dir = None <->
      forall p, is_Some (dir !! p) -> String.prefix mediaItemId p = false)
  /\ (forall mediaItem bytes now,
        id mediaItem = mediaItemId ->
        is_Some (getCachedImagePath mediaItemId
                   (cacheImage MAX_CACHE_SIZE mediaItem (Some bytes) now dir).2)).
Proof.
  assert (Hnames : forall (d : gmap string Stats) p,
            In p (map_to_list d).*1 <-> is_Some (d !! p)).
  { intros d p. rewrite <- list_elem_of_In, list_elem_of_fmap. split.
    - intros ([p' st] & -> & Hin). apply elem_of_map_to_list in Hin. by exists st.
    - intros [st Hst]. exists (p, st). split; [done|]. by apply elem_of_map_to_list. }
  assert (Hnone : forall d : gmap string Stats,
            getCachedImagePath mediaItemId d = None <->
            forall p, is_Some (d !! p) -> String.prefix mediaItemId p = false).
  { intros d. unfold getCachedImagePath. split.
    - intros Hfind p Hp. apply (List.find_none _ _ Hfind). by apply Hnames.
    - intros Hall. destruct (List.find _ _) as [p|] eqn:Hfind; [|done].
      apply List.find_some in Hfind as [Hin Hpre].
      apply Hnames in Hin. rewrite (Hall p Hin) in Hpre. discriminate. }
  split; [|split; [apply Hnone|]].
  - intros p Hfind. unfold getCachedImagePath in Hfind.
    apply List.find_some in Hfind as [Hin Hpre]. split; [by apply Hnames|done].
  - intros mediaItem bytes now Hid.
    destruct (getCachedImagePath mediaItemId _) as [p|] eqn:Hfind; [by eexists|].
    exfalso. destruct (Hnone (cacheImage MAX_CACHE_SIZE mediaItem (Some bytes) now dir).2)
      as [Hall _].
    specialize (Hall Hfind (localPath mediaItem)).
    unfold localPath in Hall at 2. rewrite Hid, prefix_append in Hall.
    assert (Hthere : is_Some ((cacheImage MAX_CACHE_SIZE mediaItem (Some bytes) now dir).2
                              !! localPath mediaItem)).
    { unfold cacheImage. destruct (dir !! localPath mediaItem) as [st|] eqn:Hdir; simpl.
      - by rewrite Hdir.
      - by rewrite lookup_insert_eq. }
    by specialize (Hall Hthere).
Qed.

End CacheMore.


Lemma cached_path_lookup_witness :
  is_Some (PhotosApi.getCachedImagePath "E" (Scenarios.put "E" 5 Scenarios.after_ABCD)).
Proof.
  exact (proj2 (proj2 (cached_path_lookup 1000 "E" Scenarios.after_ABCD))
           (Scenarios.image "E") 300%N 5%Z eq_refl).
Defined.

(** ** More on the schedule gate (electron/main.ts, src/App.tsx) *)

Section ScheduleMore.

Import Schedule Scenarios.
Local Open Scope Z_scope.

(** X19. A check that finds the reading of the check before changes none
    of the variables and sends nothing, with one exception: while the
    slideshow runs outside the schedule the stop message is sent at every
    check. No check sends more than two messages. *)
Theorem repeated_check_sends_only_stop (schedule : option ScheduleSettings)
    (day hour : Z) (m : main) :
  let first := checkSchedule schedule day hour m in
  let second := checkSchedule schedule day hour first.1 in
  second.1 = first.1
  /\ second.2
     = (if mainWindow m && isSlideshowRunning m
           && match schedule with
              | Some s => enabled s && negb (shouldPlay_at (timeGrid s) day hour)
              | None => false
              end
        then [schedule_state_changed false] else [])
  /\ (length first.2 <= 2)%nat.
Proof.
  cbv zeta. destruct m as [w l r]. unfold checkSchedule, set_lastScheduleState. simpl.
  destruct w, r; simpl; try (by repeat split; try lia);
    destruct schedule as [[[] grid]|]; simpl; try (by repeat split; try lia);
    generalize (shouldPlay_at grid day hour); intros b;
    destruct (decide (Some b = l)) as [Heq|Hne]; simpl;
    rewrite ?decide_True by done;
    destruct b; simpl; repeat split; lia.
Qed.

(** X20. Switching the schedule off forgets the last reading: with a
    window, the first check after it was switched on again always ends with
    a message carrying the reading, also when it is the reading announced
    last before. With the schedule off or missing nothing is sent, and
    without a window no check sends anything or changes anything. *)
Theorem schedule_switched_on_again_announces (s : ScheduleSettings) (day hour : Z) (m : main)
    (Hon : enabled s = true) :
  let off := checkSchedule (Some {| enabled := false; timeGrid := timeGrid s |}) day hour m in
  off.2 = []
  /\ (checkSchedule None day hour m).2 = []
  /\ (mainWindow m = false ->
      forall schedule, checkSchedule schedule day hour m = (m, []))
  /\ (mainWindow m = true ->
      lastScheduleState off.1 = None
      /\ last (checkSchedule (Some s) day hour off.1).2
         = Some (schedule_state_changed (shouldPlay_at (timeGrid s) day hour))).
Proof.
  destruct m as [w l r], s as [e grid]. simpl in *. subst.
  unfold checkSchedule. simpl.
  generalize (shouldPlay_at grid day hour). intros b.
  destruct w; simpl; repeat split; try done.
  by destruct b, r.
Qed.

Lemma schedule_switched_on_again_announces_witness :
  last (checkSchedule (Some monday_morning) 1 9
          (checkSchedule (Some {| enabled := false; timeGrid := timeGrid monday_morning |})
             1 9 (main_vars showing)).1).2
  = Some (schedule_state_changed true).
Proof.
  exact (proj2 (proj2 (proj2 (proj2 (schedule_switched_on_again_announces monday_morning 1 9
           (main_vars showing) eq_refl))) eq_refl)).
Defined.

(** X21. When the reading becomes true while the slideshow is not on
    screen, one start message is sent. When the user is signed in and at
    least one item is picked, the renderer opens the slideshow, which is
    then running; when no item is picked, or on the login page, it stays
    where it is and no slideshow runs. *)
Theorem rising_reading_starts_slideshow (s : ScheduleSettings) (day hour : Z) (a : app)
    (Hwindow : mainWindow (main_vars a) = true)
    (Hon : enabled s = true)
    (Hlast : lastScheduleState (main_vars a) <> Some true)
    (Hidle : isSlideshowRunning (main_vars a) = false)
    (Hroute : pathname a <> slideshow)
    (Hgate : shouldPlay_at (timeGrid s) day hour = true) :
  (tick (Some s) day hour a).2 = [schedule_state_changed true]
  /\ lastScheduleState (main_vars (tick (Some s) day hour a).1) = Some true
  /\ pathname (tick (Some s) day hour a).1
     = (if signed_in a && (0 <? picked a)%nat then slideshow else pathname a)
  /\ isSlideshowRunning (main_vars (tick (Some s) day hour a).1)
     = signed_in a && (0 <? picked a)%nat.
Proof.
  destruct a as [[w l r] p f n], s as [e grid]. simpl in *. subst.
  unfold tick, checkSchedule. simpl. rewrite Hgate. simpl.
  destruct (decide (Some true = l)) as [<-|_]; [done|]. simpl.
  unfold on_schedule_state_changed, signed_in. simpl.
  destruct p; simpl; try done; by destruct (0 <? n)%nat.
Qed.

Lemma rising_reading_starts_slideshow_witness :
  pathname (tick (Some monday_morning) 1 9
              {| main_vars := {| mainWindow := true; lastScheduleState := Some false;
                                 isSlideshowRunning := false |};
                 pathname := albums; fullscreen := false; picked := 3 |}).1
  = slideshow
  /\ pathname (tick (Some monday_morning) 1 9
                 {| main_vars := {| mainWindow := true; lastScheduleState := Some false;
                                    isSlideshowRunning := false |};
                    pathname := login; fullscreen := false; picked := 3 |}).1
     = login.
Proof.
  split.
  - exact (proj1 (proj2 (proj2 (rising_reading_starts_slideshow monday_morning 1 9
             {| main_vars := {| mainWindow := true; lastScheduleState := Some false;
                                isSlideshowRunning := false |};
                pathname := albums; fullscreen := false; picked := 3 |}
             eq_refl eq_refl ltac:(discriminate) eq_refl ltac:(discriminate) eq_refl)))).
  - exact (proj1 (proj2 (proj2 (rising_reading_starts_slideshow monday_morning 1 9
             {| main_vars := {| mainWindow := true; lastScheduleState := Some false;
                                isSlideshowRunning := false |};
                pathname := login; fullscreen := false; picked := 3 |}
             eq_refl eq_refl ltac:(discriminate) eq_refl ltac:(discriminate) eq_refl)))).
Defined.

End ScheduleMore.

(** ** The schedule grid (src/pages/Settings.tsx) *)

Section GridFacts.

Import Settings Scenarios.

Lemma shape_imap (f : nat -> list bool -> list bool) (grid : list (list bool)) :
  (forall d row, length (f d row) = length row) ->
  length <$> imap f grid = length <$> grid.
Proof.
  intros Hf. rewrite fmap_imap, <- (imap_const length).
  apply imap_ext. intros d row _. simpl. apply Hf.
Qed.

Lemma shape_step (s : state) (a : action) :
  (length <$> timeGrid (handle s a) = length <$> timeGrid s
   \/ is_week (timeGrid (handle s a)))
  /\ (stored (handle s a) = stored s \/ stored (handle s a) = timeGrid (handle s a)
      \/ stored (handle s a) = timeGrid s).
Proof.
  destruct a as [day hour|day hour| |day|hour|p]; simpl.
  - unfold handleCellMouseDown. destruct (timeGrid s !! day); simpl; [|by auto].
    split; [left|by auto]. apply shape_imap. intros d row. apply length_imap.
  - unfold handleCellMouseEnter. destruct (isDragging s); [|by auto].
    destruct (dragStart s) as [[startDay startHour]|]; simpl; [|by auto].
    split; [left|by auto]. apply shape_imap. intros d row. apply length_imap.
  - unfold handleMouseUp. destruct (isDragging s); simpl; auto.
  - unfold handleDayToggle. destruct (timeGrid s !! day); simpl; [|by auto].
    split; [left|by auto]. apply shape_imap. intros d row.
    destruct (d =? day)%nat; [apply length_fmap|done].
  - unfold handleHourToggle. simpl. split; [left|by auto].
    rewrite <- list_fmap_compose. apply list_fmap_ext. intros _ row _. simpl.
    apply length_imap.
  - split; [right|by auto]. by destruct p.
Qed.

(** X22. Editing keeps the grid a week: starting from seven days of
    twenty-four hours in the page and in the store, every sequence of
    clicks, drags, toggles and presets leaves seven days of twenty-four
    hours in both. *)
Theorem grid_stays_a_week (actions : list action) (s : state)
    (Hgrid : is_week (timeGrid s)) (Hstored : is_week (stored s)) :
  is_week (timeGrid (foldl handle s actions))
  /\ is_week (stored (foldl handle s actions)).
Proof.
  revert s Hgrid Hstored. induction actions as [|a actions IH]; intros s Hgrid Hstored;
    [done|].
  simpl. destruct (shape_step s a) as [Hshape Hsaved].
  assert (Hgrid' : is_week (timeGrid (handle s a))).
  { destruct Hshape as [Hsame|Hweek]; [|done]. unfold is_week. by rewrite Hsame. }
  apply IH; [done|]. destruct Hsaved as [->|[->| ->]]; done.
Qed.

Lemma grid_stays_a_week_witness :
  is_week (stored (foldl handle empty_week
                     [cell_mouse_down 2 8; cell_mouse_enter 4 17; mouse_up;
                      day_toggle 6; hour_toggle 12])).
Proof.
  exact (proj2 (grid_stays_a_week
           [cell_mouse_down 2 8; cell_mouse_enter 4 17; mouse_up; day_toggle 6; hour_toggle 12]
           empty_week eq_refl eq_refl)).
Defined.

Lemma cell_imap (f : nat -> nat -> bool -> bool) (grid : list (list bool)) (d h : nat) :
  cell (imap (fun d row => imap (f d) row) grid) d h = f d h <$> cell grid d h.
Proof.
  unfold cell. rewrite list_lookup_imap.
  destruct (grid !! d) as [row|]; simpl; [|done]. apply list_lookup_imap.
Qed.

(** X23. A drag paints a rectangle: after the mouse went down on a cell
    and entered another one, every cell of the rectangle spanned by the two
    has the value opposite to the one the first cell had before, every
    other cell is as it was, and releasing the mouse writes this grid to
    the store. *)
Theorem drag_paints_rectangle (day hour day' hour' : nat) (before : bool) (s : state)
    (Hstart : cell (timeGrid s) day hour = Some before) :
  let dragged := handleCellMouseEnter day' hour' (handleCellMouseDown day hour s) in
  (forall d h c, cell (timeGrid s) d h = Some c ->
     cell (timeGrid dragged) d h
     = Some (if (Nat.min day day' <=? d)%nat && (d <=? Nat.max day day')%nat
                && (Nat.min hour hour' <=? h)%nat && (h <=? Nat.max hour hour')%nat
             then negb before else c))
  /\ stored (handleMouseUp dragged) = timeGrid dragged
  /\ isDragging (handleMouseUp dragged) = false.
Proof.
  intros dragged. subst dragged.
  unfold cell in Hstart. destruct (timeGrid s !! day) as [row|] eqn:Hrow; [|done].
  simpl in Hstart.
  unfold handleCellMouseDown. rewrite Hrow. unfold handleCellMouseEnter. simpl.
  rewrite Hstart. simpl. split; [|done].
  intros d h c Hc.
  rewrite (cell_imap (fun d h cell =>
             if (Nat.min day day' <=? d)%nat && (d <=? Nat.max day day')%nat
                && (Nat.min hour hour' <=? h)%nat && (h <=? Nat.max hour hour')%nat
             then negb before else cell)).
  rewrite (cell_imap (fun d h cell =>
             if (d =? day)%nat && (h =? hour)%nat then negb cell else cell)).
  rewrite Hc. simpl. f_equal.
  destruct ((Nat.min day day' <=? d)%nat && (d <=? Nat.max day day')%nat
            && (Nat.min hour hour' <=? h)%nat && (h <=? Nat.max hour hour')%nat) eqn:Hin;
    [done|].
  destruct ((d =? day)%nat && (h =? hour)%nat) eqn:Hcell; [|done].
  apply andb_true_iff in Hcell as [Hd Hh].
  apply Nat.eqb_eq in Hd, Hh. subst d h.
  assert (Hyes : (Nat.min day day' <=? day)%nat && (day <=? Nat.max day day')%nat
                 && (Nat.min hour hour' <=? hour)%nat && (hour <=? Nat.max hour hour')%nat
                 = true).
  { rewrite !andb_true_iff, !Nat.leb_le. lia. }
  congruence.
Qed.

Lemma drag_paints_rectangle_witness :
  cell (timeGrid (handleCellMouseEnter 4 17 (handleCellMouseDown 2 8 empty_week))) 3 12
  = Some true.
Proof.
  exact (proj1 (drag_paints_rectangle 2 8 4 17 false empty_week eq_refl) 3%nat 12%nat false
           eq_refl).
Defined.

(** X24. The schedule check and the settings page agree on the days: on a
    week grid, for every day of the week and hour of the day, the reading
    is the cell of that hour in row 0 for Monday, ..., 5 for Saturday and 6
    for Sunday, and the fallback for a missing cell is never used. So the
    preset "weekdays" allows playback from Monday to Friday between 6 and
    22 o'clock, "weekends" on Saturday and Sunday, "all" always and "none"
    never. *)
Theorem schedule_reads_the_grid_of_the_page (grid : list (list bool)) (day hour : Z)
    (Hweek : is_week grid) (Hday : (0 <= day <= 6)%Z) (Hhour : (0 <= hour <= 23)%Z) :
  (exists b, cell grid (Z.to_nat ((day + 6) mod 7)) (Z.to_nat hour) = Some b
             /\ Schedule.shouldPlay_at grid day hour = b)
  /\ (forall p,
        Schedule.shouldPlay_at (preset_grid p) day hour
        = match p with
          | all => true
          | none => false
          | weekdays => ((1 <=? day) && (day <=? 5) && (6 <=? hour) && (hour <=? 22))%Z
          | weekends => ((day =? 0) || (day =? 6))%Z
          end).
Proof.
  assert (Hd : (day = 0 \/ day = 1 \/ day = 2 \/ day = 3 \/ day = 4 \/ day = 5 \/ day = 6)%Z)
    by lia.
  split.
  - unfold is_week in Hweek.
    destruct grid as [|r0 [|r1 [|r2 [|r3 [|r4 [|r5 [|r6 [|r7 grid]]]]]]]];
      try discriminate Hweek.
    injection Hweek as H0 H1 H2 H3 H4 H5 H6.
    assert (Hrow : forall row : list bool, length row = 24%nat ->
              exists b, row !! Z.to_nat hour = Some b).
    { intros row Hlen. apply lookup_lt_is_Some. lia. }
    unfold Schedule.shouldPlay_at, cell.
    destruct Hd as [->|[->|[->|[->|[->|[->| ->]]]]]]; simpl;
      match goal with
      | |- context [?row !! Z.to_nat hour] =>
          let Hb := fresh in
          assert (Hb : exists b, row !! Z.to_nat hour = Some b) by (by apply Hrow);
          destruct Hb as [b ->]; by exists b
      end.
  - intros p.
    assert (Hh : exists n : nat, hour = Z.of_nat n /\ (n < 24)%nat).
    { exists (Z.to_nat hour). lia. }
    destruct Hh as (n & -> & Hn).
    destruct Hd as [->|[->|[->|[->|[->|[->| ->]]]]]]; destruct p;
      do 24 (destruct n as [|n]; [reflexivity|]); lia.
Qed.

Lemma schedule_reads_the_grid_of_the_page_witness :
  Schedule.shouldPlay_at (preset_grid weekends) 0 15 = true.
Proof.
  exact (proj2 (schedule_reads_the_grid_of_the_page (preset_grid none) 0 15
                  eq_refl ltac:(lia) ltac:(lia)) weekends).
Defined.

End GridFacts.

(** ** More on the picked-media list (src/pages/AlbumList.tsx) *)

Section PickedListFacts.

Import AlbumList Scenarios.

Lemma filter_id_fresh (itemId : string) (l : list MediaItem) :
  itemId ∉ id <$> l -> filter (fun item => id item <> itemId) l = l.
Proof.
  induction l as [|x l IH]; [done|]. rewrite fmap_cons, not_elem_of_cons.
  intros [Hx Hl]. rewrite filter_cons_True by done. by rewrite IH.
Qed.

(** X25. Deleting an item removes exactly the items with that id and keeps
    the others in their order; deleting an id that is not in the list
    changes nothing; and deleting an item that was just picked into the
    list brings the list back to what it was. *)
Theorem delete_removes_exactly_that_id (itemId : string) (s : state) :
  (itemId ∉ id <$> mediaItems (handleDeleteItem itemId s))
  /\ mediaItems (handleDeleteItem itemId s) `sublist_of` mediaItems s
  /\ (forall item, item ∈ mediaItems s -> id item <> itemId ->
                   item ∈ mediaItems (handleDeleteItem itemId s))
  /\ (itemId ∉ id <$> mediaItems s ->
      mediaItems (handleDeleteItem itemId s) = mediaItems s)
  /\ (forall item, id item = itemId -> itemId ∉ id <$> mediaItems s ->
        mediaItems (handleDeleteItem itemId (fetchPickedMedia (mediaItems s) (Some [item]) s))
        = mediaItems s).
Proof.
  simpl. split; [|split; [|split; [|split]]].
  - intros Hin. apply list_elem_of_fmap in Hin as (item & Hid & Hin).
    apply list_elem_of_filter in Hin as [Hne _]. by apply Hne.
  - apply sublist_filter.
  - intros item Hin Hne. by apply list_elem_of_filter.
  - apply filter_id_fresh.
  - intros item Hid Hfresh. unfold mergedItems.
    rewrite filter_app, (filter_id_fresh itemId (mediaItems s)) by done.
    rewrite (filter_cons _ item). destruct (decide (id item ∉ _)) as [_|Hin].
    + rewrite filter_nil, (filter_cons _ item).
      destruct (decide (id item <> itemId)); [done|]. by rewrite filter_nil, app_nil_r.
    + by rewrite !filter_nil, app_nil_r.
Qed.

Lemma delete_removes_exactly_that_id_witness :
  mediaItems (handleDeleteItem "c"
                (fetchPickedMedia [picked_a; picked_b] (Some [picked_c])
                   {| mediaItems := [picked_a; picked_b];
                      pickedMediaItems := Some [picked_a; picked_b] |}))
  = [picked_a; picked_b].
Proof.
  refine (proj2 (proj2 (proj2 (proj2 (delete_removes_exactly_that_id "c"
            {| mediaItems := [picked_a; picked_b];
               pickedMediaItems := Some [picked_a; picked_b] |}))))
            picked_c eq_refl _).
  apply (bool_decide_unpack _). vm_compute. exact I.
Defined.

Lemma mergedItems_NoDup (old new : list MediaItem) :
  NoDup (id <$> old) -> NoDup (id <$> new) -> NoDup (id <$> mergedItems old new).
Proof.
  intros Hold Hnew. unfold mergedItems. rewrite fmap_app.
  apply NoDup_app. split; [done|]. split.
  - intros i Hin Hin'. apply list_elem_of_fmap in Hin' as (item & -> & Hitem).
    by apply uniqueNewItems_fresh in Hitem.
  - by apply NoDup_fmap_filter.
Qed.

Lemma consistent_step (p : page) (a : action) :
  distinct_picks a -> consistent_page p -> consistent_page (handle p a).
Proof.
  intros Hpick Hp. assert (Hp' := Hp). destruct Hp' as [[Hstore Hnd] Hpoll].
  unfold consistent_page.
  destruct a as [|[newItems|]|itemId| |]; simpl.
  - destruct (polling p) as [captured|] eqn:Hpolling; [exact Hp|]. by repeat split.
  - destruct (polling p) as [captured|] eqn:Hpolling; [|exact Hp].
    simpl. split; [|done]. split; [done|]. simpl in Hpick. by apply mergedItems_NoDup.
  - destruct (polling p) as [captured|] eqn:Hpolling; [|exact Hp].
    simpl. by repeat split.
  - split; [|done].
    unfold consistent, handleDeleteItem. cbn [shown mediaItems pickedMediaItems].
    split; [|by apply NoDup_fmap_filter].
    generalize (filter (fun item => id item <> itemId) (mediaItems (shown p))).
    by intros [|item items].
  - split; [|done]. split; [done|constructor].
  - unfold handleStartSlideshow.
    destruct (mediaItems (shown p)) as [|item items] eqn:Hitems; [exact Hp|].
    simpl. split; [|done]. split; [reflexivity|]. simpl.
    first [exact Hnd|by rewrite Hitems|by rewrite <- Hitems].
Qed.

(** Editing the list does not touch what the polling effect holds. *)
Lemma polling_edits (edits : list action) (p : page) :
  Forall (fun a => is_edit a = true) edits ->
  polling (foldl handle p edits) = polling p.
Proof.
  intros Hedits. revert p. induction Hedits as [|a edits Ha _ IH]; intros p; [done|].
  simpl. rewrite IH. by destruct a.
Qed.

(** X26. The page and the store stay in step: whatever happens on the page
    (the picker is opened, a selection arrives, an item is deleted, the
    list is cleared, the slideshow is started), in any order, the list the
    store answers with is the list the page shows, so the slideshow loads
    what was on the page, and no id occurs twice in it, as long as no
    selection delivers an id twice. Edits made while the picker is open do
    not last: when the selection arrives, the page shows the list it showed
    when the picker was opened, followed by the new items, so an item
    deleted in between, or a list cleared, is back. *)
Theorem page_and_store_agree (actions : list action) (p : page)
    (Hpicks : Forall distinct_picks actions) (Hstart : consistent (shown p))
    (Hidle : polling p = None) :
  consistent (shown (foldl handle p actions))
  /\ mediaItems (loadMediaItems (shown (foldl handle p actions)))
     = mediaItems (shown (foldl handle p actions))
  /\ (forall edits newItems,
        Forall (fun a => is_edit a = true) edits ->
        shown (foldl handle p (pick_photos :: edits ++ [picked (Some newItems)]))
        = {| mediaItems := mergedItems (mediaItems (shown p)) newItems;
             pickedMediaItems := Some (mergedItems (mediaItems (shown p)) newItems) |}).
Proof.
  assert (H : consistent_page (foldl handle p actions)).
  { assert (Hp : consistent_page p) by (split; [done|by rewrite Hidle]).
    clear Hstart Hidle. revert p Hp.
    induction Hpicks as [|a actions Ha _ IH]; intros p Hp; [done|].
    simpl. apply IH. by apply consistent_step. }
  destruct H as [H _]. split; [done|]. split; [by destruct H|].
  intros edits newItems Hedits. simpl. rewrite Hidle. rewrite foldl_app. simpl.
  by rewrite polling_edits.
Qed.

Lemma page_and_store_agree_witness :
  consistent (shown (foldl handle
                {| shown := {| mediaItems := []; pickedMediaItems := None |};
                   polling := None |}
                [pick_photos; picked (Some [picked_a; picked_b]); pick_photos;
                 delete_item "a"; picked (Some [picked_a'; picked_c]);
                 start_slideshow; delete_item "b"]))
  /\ mediaItems (shown (foldl handle
                  {| shown := {| mediaItems := [picked_a; picked_b];
                                 pickedMediaItems := Some [picked_a; picked_b] |};
                     polling := None |}
                  [pick_photos; delete_item "a"; picked (Some [picked_c])]))
     = [picked_a; picked_b; picked_c].
Proof.
  split.
  - refine (proj1 (page_and_store_agree
              [pick_photos; picked (Some [picked_a; picked_b]); pick_photos;
               delete_item "a"; picked (Some [picked_a'; picked_c]);
               start_slideshow; delete_item "b"]
              {| shown := {| mediaItems := []; pickedMediaItems := None |};
                 polling := None |} _ _ eq_refl)).
    + repeat constructor; apply (bool_decide_unpack _); vm_compute; exact I.
    + split; [reflexivity|constructor].
  - refine (f_equal mediaItems
              (proj2 (proj2 (page_and_store_agree []
                 {| shown := {| mediaItems := [picked_a; picked_b];
                                pickedMediaItems := Some [picked_a; picked_b] |};
                    polling := None |} _ _ eq_refl))
                 [delete_item "a"] [picked_c] _)).
    + constructor.
    + split; [reflexivity|]. apply (bool_decide_unpack _). vm_compute. exact I.
    + by repeat constructor.
Defined.

End PickedListFacts.

(** ** The media handlers and the power blocker of the main process *)

Section IpcFacts.

Import Ipc.

Variable md5 : string -> string.
Variable base64 : string -> string.


(** X28. A cached video needs a token all the same: after a call for a
    video succeeded, a later call for the same id answers with the same
    path without sending anything when a token is at hand, whatever the
    locator and the network, and answers that signing in is required when
    none is, although the file is on the disk. *)
Theorem cached_video_needs_a_token (e e' : env) (baseUrl baseUrl' videoId : string)
    (d : disk) (p : string)
    (Hfirst : (get_video e baseUrl videoId d).1 = success p) :
  let d1 := (get_video e baseUrl videoId d).2 in
  get_video e' baseUrl' videoId d1
  = (if is_truthy (token e') then success p else failure auth_required, d1)
  /\ p = videoId +:+ ".mp4"
  /\ is_Some (video_cache d1 !! p).
Proof.
  intros d1.
  assert (Hp : p = videoId +:+ ".mp4"
               /\ is_Some (video_cache d1 !! (videoId +:+ ".mp4"))).
  { subst d1. revert Hfirst. unfold get_video.
    destruct (token e) as [t|]; [|done].
    destruct (PhotosApi.truthy t); [|done].
    destruct (video_cache d !! (videoId +:+ ".mp4")) as [file|] eqn:Hhit.
    - simpl. intros [= <-]. split; [done|]. rewrite Hhit. by eexists.
    - destruct (net e _ t) as [response|]; [|done].
      destruct (ok response); [|done].
      destruct (write_throws e); [done|].
      simpl. intros [= <-]. split; [done|]. rewrite lookup_insert_eq. by eexists. }
  destruct Hp as [-> [file Hfile]]. clearbody d1.
  split; [|split; [done|by eexists]].
  unfold get_video. destruct (token e') as [t'|]; [|done]. simpl.
  destruct (PhotosApi.truthy t'); [|done]. by rewrite Hfile.
Qed.

(** What one call does to the disk and to the requests. *)
Lemma serve_step (c : call) (d : disk) :
  let d' := (serve md5 base64 c d).2 in
  video_cache d ⊆ video_cache d'
  /\ (reads_well c -> image_cache d ⊆ image_cache d')
  /\ (forall path content, image_cache d' !! path = Some content ->
        image_cache d !! path = Some content
        \/ exists e baseUrl size imageId url t response,
             c = image e baseUrl size imageId
             /\ net e url t = answered response /\ ok response = true
             /\ content = "data:" +:+ or_else (contentType response) "image/jpeg"
                          +:+ ";base64," +:+ base64 (body response))
  /\ exists sent, requests d' = requests d ++ sent
       /\ (length sent <= 1)%nat
       /\ Forall (fun r => PhotosApi.truthy r.2 = true) sent.
Proof.
  assert (Hnone : exists sent : list (string * string),
            requests d = requests d ++ sent /\ (length sent <= 1)%nat
            /\ Forall (fun r => PhotosApi.truthy r.2 = true) sent).
  { exists []. rewrite app_nil_r. repeat split; [simpl; lia|constructor]. }
  assert (Hone : forall url t, PhotosApi.truthy t = true ->
            exists sent : list (string * string),
              requests d ++ [(url, t)] = requests d ++ sent /\ (length sent <= 1)%nat
              /\ Forall (fun r => PhotosApi.truthy r.2 = true) sent).
  { intros url t Ht. exists [(url, t)]. repeat split; [simpl; lia|by repeat constructor]. }
  destruct c as [e baseUrl size imageId|e baseUrl videoId]; simpl.
  - unfold get_image.
    set (path := cachePath md5 baseUrl size imageId).
    destruct (if read_throws e then None else image_cache d !! path) as [cached|] eqn:Hhit;
      [simpl; repeat split; auto|].
    destruct (token e) as [t|]; [|simpl; repeat split; auto].
    destruct (PhotosApi.truthy t) eqn:Ht; [|simpl; repeat split; auto].
    set (imageUrl := if is_truthy size then _ else _).
    destruct (net e imageUrl t) as [response|] eqn:Hnet;
      [|simpl; repeat split; auto].
    destruct (ok response) eqn:Hok; [|simpl; repeat split; auto].
    destruct (write_throws e); simpl; [repeat split; auto|].
    repeat split; auto.
    + intros Hread. simpl in Hread. rewrite Hread in Hhit.
      by apply insert_subseteq.
    + intros path' content. destruct (decide (path' = path)) as [->|Hne].
      * rewrite lookup_insert_eq. intros [= <-]. right.
        by exists e, baseUrl, size, imageId, imageUrl, t, response.
      * rewrite lookup_insert_ne by done. auto.
  - unfold get_video.
    destruct (token e) as [t|]; [|simpl; repeat split; auto].
    destruct (PhotosApi.truthy t) eqn:Ht; [|simpl; repeat split; auto].
    destruct (video_cache d !! (videoId +:+ ".mp4")) as [file|] eqn:Hhit;
      [simpl; repeat split; auto|].
    destruct (net e _ t) as [response|]; [|simpl; repeat split; auto].
    destruct (ok response); [|simpl; repeat split; auto].
    destruct (write_throws e); simpl; repeat split; auto.
    by apply insert_subseteq.
Qed.

Lemma serve_all_snoc (calls : list call) (c : call) (d : disk) :
  serve_all md5 base64 (calls ++ [c]) d
  = (serve md5 base64 c (serve_all md5 base64 calls d)).2.
Proof. unfold serve_all. by rewrite foldl_app. Qed.

(** X29. The two handlers only add to the caches and never store an
    error: over any sequence of calls no video file is removed or
    rewritten; no image file is removed or rewritten as long as no read
    throws; an image file that is new or was rewritten holds the data URL
    of a response with an ok status that one of the calls received; and
    every request that was sent carries a non-empty token, at most one
    request for each call. *)
Theorem caches_only_grow (calls : list call) (d : disk) :
  let d' := serve_all md5 base64 calls d in
  video_cache d ⊆ video_cache d'
  /\ (Forall reads_well calls -> image_cache d ⊆ image_cache d')
  /\ (forall path content, image_cache d' !! path = Some content ->
        image_cache d !! path = Some content
        \/ exists e baseUrl size imageId url t response,
             image e baseUrl size imageId ∈ calls
             /\ net e url t = answered response /\ ok response = true
             /\ content = "data:" +:+ or_else (contentType response) "image/jpeg"
                          +:+ ";base64," +:+ base64 (body response))
  /\ exists sent, requests d' = requests d ++ sent
       /\ (length sent <= length calls)%nat
       /\ Forall (fun r => PhotosApi.truthy r.2 = true) sent.
Proof.
  induction calls as [|c calls IH] using rev_ind.
  - simpl. repeat split; auto.
    exists []. rewrite app_nil_r. repeat split; [simpl; lia|constructor].
  - rewrite serve_all_snoc. cbv zeta in IH.
    destruct IH as (Hvideo & Himage & Hfrom & sent & Hsent & Hcount & Htoken).
    destruct (serve_step c (serve_all md5 base64 calls d))
      as (Hvideo1 & Himage1 & Hfrom1 & sent1 & Hsent1 & Hcount1 & Htoken1).
    cbv zeta. repeat split.
    + by etrans.
    + intros Hall. apply Forall_app in Hall as [Hall Hc].
      rewrite Forall_singleton in Hc. etrans; [by apply Himage|by apply Himage1].
    + intros path content Hat.
      destruct (Hfrom1 path content Hat)
        as [Hbefore|(e & baseUrl & size & imageId & url & t & response & -> & Hrest)].
      * destruct (Hfrom path content Hbefore)
          as [?|(e & baseUrl & size & imageId & url & t & response & Hin & Hrest)]; [by left|].
        right. exists e, baseUrl, size, imageId, url, t, response.
        split; [|done]. apply elem_of_app. by left.
      * right. exists e, baseUrl, size, imageId, url, t, response.
        split; [|done]. apply elem_of_app. right. by apply list_elem_of_singleton.
    + exists (sent ++ sent1). rewrite Hsent1, Hsent, app_assoc. repeat split.
      * rewrite !length_app. simpl. lia.
      * by apply Forall_app.
Qed.

(** *** The power blocker *)

Lemma prevent_sleep_ok (prevent : bool) (p : power) :
  power_ok p -> power_ok (prevent_sleep prevent p).2.
Proof.
  unfold power_ok, prevent_sleep. intros Hactive.
  destruct prevent, (powerSaveId p) as [i|] eqn:Hid; simpl; rewrite ?Hid; try done.
  - rewrite Hactive. apply union_empty_r_L.
  - rewrite Hactive. apply difference_diag_L.
Qed.

Lemma prevent_sleep_wish (prevent : bool) (p : power) :
  is_Some (powerSaveId (prevent_sleep prevent p).2) <-> prevent = true.
Proof.
  unfold prevent_sleep.
  destruct prevent, (powerSaveId p) as [i|] eqn:Hid; simpl; rewrite ?Hid;
    split; intros H; try done; try (by eexists); by destruct H.
Qed.

Lemma prevent_sleep_all_snoc (wishes : list bool) (prevent : bool) (p : power) :
  prevent_sleep_all (wishes ++ [prevent]) p
  = (prevent_sleep prevent (prevent_sleep_all wishes p)).2.
Proof. unfold prevent_sleep_all. by rewrite foldl_app. Qed.

Lemma prevent_sleep_all_ok (wishes : list bool) (p : power) :
  power_ok p -> power_ok (prevent_sleep_all wishes p).
Proof.
  intros Hok. induction wishes as [|prevent wishes IH] using rev_ind; [done|].
  rewrite prevent_sleep_all_snoc. by apply prevent_sleep_ok.
Qed.

(** X30. At most one blocker is ever active: from a state in which
    [powerSaveId] names the active blocker, after any sequence of calls of
    'power:prevent-sleep' it still does, at most one blocker is active,
    and one is active exactly when the last call asked for it. A call
    answers [false] exactly when it changed nothing. *)
Theorem one_blocker_at_most (wishes : list bool) (p : power) (Hok : power_ok p) :
  let p' := prevent_sleep_all wishes p in
  power_ok p'
  /\ (size (active p') <= 1)%nat
  /\ (forall prevent, last wishes = Some prevent -> (active p' <> ∅ <-> prevent = true))
  /\ (forall prevent, (prevent_sleep prevent p').1 = false <-> (prevent_sleep prevent p').2 = p').
Proof.
  intros p'. assert (Hok' : power_ok p') by by apply prevent_sleep_all_ok.
  split; [done|]. split; [|split].
  - rewrite Hok'. destruct (powerSaveId p').
    + by rewrite size_singleton.
    + rewrite size_empty. lia.
  - intros prevent Hlast. apply last_Some in Hlast as [before ->].
    subst p'. rewrite prevent_sleep_all_snoc in *.
    rewrite <- prevent_sleep_wish with (p := prevent_sleep_all before p).
    rewrite Hok'.
    destruct (powerSaveId _) as [i|]; split; intros H; try done; by eexists.
  - intros prevent. unfold prevent_sleep.
    destruct prevent, (powerSaveId p') as [i|] eqn:Hid; simpl; split; try done.
    + intros H. apply (f_equal powerSaveId) in H. simpl in H. congruence.
    + intros H. apply (f_equal powerSaveId) in H. simpl in H. congruence.
Qed.

End IpcFacts.


Lemma cached_video_needs_a_token_witness :
  (Ipc.get_video Scenarios.signed_out "https://lh3/v1" "v1"
     (Ipc.get_video Scenarios.online "https://lh3/v1" "v1" Scenarios.empty_disk).2).1
  = Ipc.failure Ipc.auth_required.
Proof.
  exact (f_equal fst (proj1 (cached_video_needs_a_token Scenarios.online Scenarios.signed_out
           "https://lh3/v1" "https://lh3/v1" "v1" Scenarios.empty_disk "v1.mp4" eq_refl))).
Defined.

Lemma one_blocker_at_most_witness :
  size (Ipc.active (Ipc.prevent_sleep_all [true; true; false; true] Ipc.power_off)) <= 1.
Proof.
  exact (proj1 (proj2 (one_blocker_at_most [true; true; false; true] Ipc.power_off
           eq_refl))).
Defined.
